(** * Fresnelier: zone plate and photon sieve mask generation

    A shallow embedding of [fresnelier.py].  Integer quantities (image sizes,
    pixel coordinates, ring indices, dot radii) are in [Z]; a numpy image is
    a list of rows of 0/1 pixels.  The process-wide random source is a stream
    [rng : nat -> R] of successive [random.random()] values together with the
    index of the next unread value.

    Python floats are followed at three levels of detail.

    - Exact: floats are real numbers ([R]), [np.sqrt], [np.cos], [np.sin] and
      [np.pi] are the real functions and [int()] is truncation toward zero.
      The photon sieve, which needs the trigonometric functions, is modelled
      at this level, and so are the statements that hold with a margin of
      whole pixels, which rounding in the last bit does not reach.
    - Rounded: the first stage (radius sequence and canvas) with each
      operation followed by a rounding function [rnd], for the statements
      about every input that depend on how results are rounded.
    - Binary64: the zone plate generator in IEEE 754 binary64
      ([PrimFloat.float]), bit for bit, for the statements about what the
      code returns at a given input.

    The C library's [pow], behind [wavelength ** 2], is the one operation of
    the first stage that IEEE 754 does not pin down; at the rounded and the
    binary64 level it is a parameter [pow2]. *)

From Stdlib Require Import Floats.
From Stdlib Require Import String Ascii.
From Stdlib Require Import Reals ZArith List Bool Lia Lra Psatz.
Import ListNotations.

Open Scope R_scope.

(** A decimal float literal stands for the nearest binary64 number, as in
    Python. *)
Set Warnings "-inexact-float".

(** ** Results of fallible, possibly looping code *)

Inductive exn : Type :=
| ValueError (msg : string)
| OverflowError
| IndexError.

Definition empty_min : exn := ValueError "min() arg is an empty sequence".
Definition nan_to_int : exn := ValueError "cannot convert float NaN to integer".
Definition negative_dims : exn := ValueError "negative dimensions are not allowed".
Definition too_few_rings : exn := ValueError "Number of rings must be at least 1".

(** [Diverge] is only produced when the fuel given to the [while True] loop
    of the random photon sieve runs out. *)
Inductive res (A : Type) : Type :=
| Ok (a : A)
| Raise (e : exn)
| Diverge.

Arguments Ok {A} a.
Arguments Raise {A} e.
Arguments Diverge {A}.

Definition bind {A B : Type} (c : res A) (k : A -> res B) : res B :=
  match c with
  | Ok a => k a
  | Raise e => Raise e
  | Diverge => Diverge
  end.

Notation "x <- c ;; k" := (bind c (fun x => k))
  (at level 61, c at next level, right associativity).

(** ** Numeric helpers *)

Definition Rleb (a b : R) : bool := if Rle_dec a b then true else false.
Definition Rltb (a b : R) : bool := if Rlt_dec a b then true else false.

(** Python's [int(x)] on a float: truncation toward zero. *)
Definition int_of (r : R) : Z :=
  if Rle_dec 0 r then Zfloor r else (- Zfloor (- r))%Z.

(** [range(lo, hi)] *)
Definition zrange (lo hi : Z) : list Z :=
  map (fun i => (lo + Z.of_nat i)%Z) (seq 0 (Z.to_nat (hi - lo))).

(** [range(lo, hi, 2)] *)
Definition zrange2 (lo hi : Z) : list Z :=
  map (fun i => (lo + 2 * Z.of_nat i)%Z) (seq 0 (Z.to_nat ((hi - lo + 1) / 2))).

(** [np.diff] *)
Fixpoint diff (l : list R) : list R :=
  match l with
  | a :: (b :: _) as t => (b - a) :: diff t
  | _ => []
  end.

(** [min(...)]: [None] stands for the [ValueError] raised on an empty
    sequence. *)
Definition list_min (l : list R) : option R :=
  match l with
  | [] => None
  | a :: t => Some (fold_left Rmin t a)
  end.

(** ** Unit conversion *)

Inductive unit_name : Type := U_m | U_cm | U_mm | U_um | U_nm.

Definition convert_units (value : R) (unit : unit_name) : R :=
  match unit with
  | U_m => value
  | U_cm => value / 100
  | U_mm => value / 1000
  | U_um => value / 1000000
  | U_nm => value / 1000000000
  end.

(** ** Radius sequence, exact level *)

Definition radicand (wavelength focal_length : R) (n : Z) : R :=
  IZR n * wavelength * focal_length + (IZR n) ^ 2 * (wavelength ^ 2) / 4.

(** Line 24 and line 56: the list comprehension over [range(1, num_rings + 1)],
    without rounding; [ring_radii_rnd] and [ring_radii64] below follow the
    rounding of each operation. *)
Definition ring_radii (wavelength focal_length : R) (num_rings : Z) : list R :=
  map (fun n => sqrt (radicand wavelength focal_length n))
      (zrange 1 (num_rings + 1)).

(** [np.sqrt] of a negative float is NaN.  A negative radicand at some [n]
    is negative at [n = 1] too, so that the first difference, and with it the
    minimum of line 27, is NaN; [int(...)] on line 29 then raises
    [ValueError].  With fewer than two radii there is no difference and
    [min] raises before that. *)
Definition has_nan (wavelength focal_length : R) (num_rings : Z) : bool :=
  existsb (fun n => Rltb (radicand wavelength focal_length n) 0)
          (zrange 1 (num_rings + 1)).

(** ** Canvas sizing (lines 27-33 and 59-65), exact level *)

Definition min_ring_thickness_px : Z := 8.

Definition scale_radii (radii : list R) (image_size : Z) : list R :=
  map (fun r => (r / last radii 0) * IZR (image_size / 2)) radii.

(** Without rounding; [canvas_rnd] and [canvas64] below follow the rounding
    of each operation, which can move [image_size] by one. *)
Definition canvas (radii : list R) : res (Z * list R) :=
  match list_min (diff radii) with
  | None => Raise empty_min
  | Some min_ring_thickness =>
      if Req_dec_T min_ring_thickness 0 then
        (* 8 / 0.0 is inf (or the product is NaN): int() raises *)
        Raise (if Req_dec_T (last radii 0) 0 then nan_to_int else OverflowError)
      else
        let image_size :=
          int_of ((IZR min_ring_thickness_px / min_ring_thickness)
                  * last radii 0 * 2) in
        Ok (image_size, scale_radii radii image_size)
  end.

(** ** Images *)

Definition image : Type := list (list Z).

Definition zeros (n : Z) : image :=
  repeat (repeat 0%Z (Z.to_nat n)) (Z.to_nat n).

Definition pixel (img : image) (y x : Z) : Z :=
  nth (Z.to_nat x) (nth (Z.to_nat y) img []) 0%Z.

Fixpoint imap_from {A B : Type} (f : Z -> A -> B) (i : Z) (l : list A) : list B :=
  match l with
  | [] => []
  | a :: t => f i a :: imap_from f (i + 1)%Z t
  end.

(** Assignment through a boolean mask or an index set: every pixel is
    recomputed from its coordinates and old value. *)
Definition map_pixels (f : Z -> Z -> Z -> Z) (img : image) : image :=
  imap_from (fun y row => imap_from (fun x v => f y x v) 0%Z row) 0%Z img.

Definition square (n : Z) (img : image) : Prop :=
  length img = Z.to_nat n /\ Forall (fun row => length row = Z.to_nat n) img.

(** Lines 47-49 and 126-128: [image[:, [0, -1]] = 0; image[[0, -1], :] = 0].
    On an empty image index 0 is out of bounds. *)
Definition set_border (image_size : Z) (img : image) : res image :=
  if (image_size <=? 0)%Z then Raise IndexError
  else Ok (map_pixels
             (fun y x v =>
                if (x =? 0)%Z || (x =? image_size - 1)%Z
                   || (y =? 0)%Z || (y =? image_size - 1)%Z
                then 0%Z else v) img).

(** ** Zone plate rasterizer (lines 36-51) *)

Definition distance (center y x : Z) : R :=
  sqrt (IZR ((x - center) ^ 2 + (y - center) ^ 2)).

Definition radius_at (radii : list R) (k : Z) : R :=
  nth (Z.to_nat k) radii 0.

(** Line 45: [image[(distance >= radii[k-1]) & (distance < radii[k])] = 1]. *)
Definition in_band (radii : list R) (k : Z) (d : R) : bool :=
  Rleb (radius_at radii (k - 1)) d && Rltb d (radius_at radii k).

Definition fill_band (radii : list R) (center k : Z) (img : image) : image :=
  map_pixels (fun y x v => if in_band radii k (distance center y x) then 1%Z else v) img.

Definition zone_rings (radii : list R) (center num_rings : Z) (img : image) : image :=
  fold_left (fun im k => if (k mod 2 =? 1)%Z then fill_band radii center k im else im)
            (zrange 0 num_rings) img.

Definition zone_plate (image_size : Z) (radii : list R) (num_rings : Z) : res image :=
  if (image_size <? 0)%Z then Raise negative_dims
  else
    let center := (image_size / 2)%Z in
    set_border image_size (zone_rings radii center num_rings (zeros image_size)).

Definition generate_fresnel_zone_plate
    (wavelength focal_length : R) (num_rings : Z) : res image :=
  if has_nan wavelength focal_length num_rings && (1 <? num_rings)%Z
  then Raise nan_to_int
  else
    c <- canvas (ring_radii wavelength focal_length num_rings) ;;
    zone_plate (fst c) (snd c) num_rings.

(** ** Photon sieve rasterizer (lines 67-130) *)

(** Line 75-76: the centre circle is assigned 0. *)
Definition clear_center (center : Z) (radius_outer : R) (img : image) : image :=
  map_pixels
    (fun y x v =>
       if Rleb (IZR ((x - center) ^ 2 + (y - center) ^ 2)) (radius_outer ^ 2)
       then 0%Z else v) img.

(** Lines 106-107 and 118-119: [np.ogrid[-dot_radius:dot_radius, ...]] has
    entries [-dot_radius + i] for [0 <= i < 2 * dot_radius]; [disk_mask] is the
    boolean mask at index [(i, j)]. *)
Definition disk_mask (dot_radius i j : Z) : bool :=
  ((- dot_radius + i) ^ 2 + (- dot_radius + j) ^ 2 <=? dot_radius ^ 2)%Z.

(** Lines 106-112 and 118-124.  The slice [image[y_min:y_max, x_min:x_max]]
    has at most [2 * dot_radius] rows and columns, the mask is cut to the
    shape of the slice from its first row and column, and the slice pixel
    [(i, j)] is the image pixel [(y_min + i, x_min + j)]. *)
Definition stamp_disk (img : image) (image_size y x dot_radius : Z) : image :=
  let y_min := Z.max 0 (y - dot_radius) in
  let y_max := Z.min image_size (y + dot_radius) in
  let x_min := Z.max 0 (x - dot_radius) in
  let x_max := Z.min image_size (x + dot_radius) in
  map_pixels
    (fun Y X v =>
       if (y_min <=? Y)%Z && (Y <? y_max)%Z && (x_min <=? X)%Z && (X <? x_max)%Z
          && disk_mask dot_radius (Y - y_min) (X - x_min)
       then 1%Z else v) img.

Definition in_canvas (image_size y x : Z) : bool :=
  (0 <=? x)%Z && (x <? image_size)%Z && (0 <=? y)%Z && (y <? image_size)%Z.

Definition dot_x (center : Z) (radius_inner ring_thickness angle : R) : Z :=
  (center + int_of ((radius_inner + ring_thickness / 2) * cos angle))%Z.

Definition dot_y (center : Z) (radius_inner ring_thickness angle : R) : Z :=
  (center + int_of ((radius_inner + ring_thickness / 2) * sin angle))%Z.

(** Lines 115-124: the bounds test and the stamp shared by both modes. *)
Definition stamp_at_angle (img : image) (image_size center : Z)
    (radius_inner ring_thickness : R) (dot_radius : Z) (random_angle : R) : image :=
  let x := dot_x center radius_inner ring_thickness random_angle in
  let y := dot_y center radius_inner ring_thickness random_angle in
  if in_canvas image_size y x then stamp_disk img image_size y x dot_radius
  else img.

(** Line 85. *)
Definition dot_radius_of (ring_thickness : R) : Z :=
  Z.max (int_of (ring_thickness / 2)) (min_ring_thickness_px / 2).

(** Line 95: [np.linspace(0, 2 * np.pi, num_dots, endpoint=False)]. *)
Definition linspace_angles (num_dots : Z) : list R :=
  map (fun j => IZR j * (2 * PI / IZR num_dots)) (zrange 0 num_dots).

(** ** Command-line arguments (lines 133-143) *)

Record arguments : Type := {
  arg_wavelength : R;
  arg_wavelength_unit : unit_name;
  arg_focal_length : R;
  arg_focal_length_unit : unit_name;
  arg_num_rings : Z;
  arg_generate : string
}.

Fixpoint contains (c : ascii) (s : string) : bool :=
  match s with
  | EmptyString => false
  | String c' s' => Ascii.eqb c c' || contains c s'
  end.

Section PhotonSieve.

(** Successive values of [random.random()], each in [0, 1). *)
Variable rng : nat -> R.

(** [random.uniform(a, b)] reading the draw of index [i]. *)
Definition uniform (a b : R) (i : nat) : R := a + (b - a) * rng i.

(** Lines 86-94: the dot count of a ring and the index of the next draw. *)
Definition num_dots_of (random_spacing : bool) (radius_outer : R)
    (dot_radius : Z) (i : nat) : Z * nat :=
  let dot_spacing_min := IZR dot_radius * 3 in
  let dot_spacing_max := IZR dot_radius * 4 in
  let dot_spacing_min_rand := IZR dot_radius * (11 / 10) in
  let dot_spacing_max_rand := IZR dot_radius * 4 in
  let circumference := 2 * PI * radius_outer in
  if random_spacing then
    (Z.max 1 (int_of (circumference /
                      ((dot_spacing_min_rand + dot_spacing_max_rand)
                       * uniform (13 / 10) (15 / 10) i))), S i)
  else
    (Z.max 1 (int_of (circumference /
                      ((dot_spacing_min + dot_spacing_max) / 2))), i).

(** Lines 100-105: the [while True] loop.  It returns the accepted angle
    and the index of the next draw. *)
Fixpoint retry (fuel : nat) (img : image) (image_size center : Z)
    (radius_inner ring_thickness : R) (num_dots : Z)
    (random_angle : R) (i : nat) : res (R * nat) :=
  match fuel with
  | O => Diverge
  | S fuel' =>
      let x := dot_x center radius_inner ring_thickness random_angle in
      let y := dot_y center radius_inner ring_thickness random_angle in
      if in_canvas image_size y x && (pixel img y x =? 0)%Z then
        Ok (random_angle, i)
      else
        retry fuel' img image_size center radius_inner ring_thickness num_dots
              (random_angle + uniform 0 (PI / IZR num_dots) i) (S i)
  end.

(** Lines 98-124: the body of [for angle in angles]. *)
Definition place_dot (random_spacing : bool) (fuel : nat)
    (image_size center : Z) (radius_inner ring_thickness : R)
    (num_dots dot_radius : Z) (st : image * nat) (angle : R)
    : res (image * nat) :=
  let (img, i) := st in
  if random_spacing then
    r <- retry fuel img image_size center radius_inner ring_thickness num_dots
               (angle + uniform 0 (PI / IZR num_dots) i) (S i) ;;
    let x := dot_x center radius_inner ring_thickness (fst r) in
    let y := dot_y center radius_inner ring_thickness (fst r) in
    let img1 := stamp_disk img image_size y x dot_radius in
    Ok (stamp_at_angle img1 image_size center radius_inner ring_thickness
                       dot_radius (fst r), snd r)
  else
    Ok (stamp_at_angle img image_size center radius_inner ring_thickness
                       dot_radius angle, i).

Fixpoint place_dots (random_spacing : bool) (fuel : nat)
    (image_size center : Z) (radius_inner ring_thickness : R)
    (num_dots dot_radius : Z) (angles : list R) (st : image * nat)
    : res (image * nat) :=
  match angles with
  | [] => Ok st
  | angle :: rest =>
      st' <- place_dot random_spacing fuel image_size center radius_inner
                       ring_thickness num_dots dot_radius st angle ;;
      place_dots random_spacing fuel image_size center radius_inner
                 ring_thickness num_dots dot_radius rest st'
  end.

(** Lines 80-124: the body of [for k in range(1, num_rings, 2)]. *)
Definition sieve_ring (random_spacing : bool) (fuel : nat)
    (image_size center : Z) (radii : list R) (st : image * nat) (k : Z)
    : res (image * nat) :=
  let radius_inner := radius_at radii (k - 1) in
  let radius_outer := radius_at radii k in
  let ring_thickness := radius_outer - radius_inner in
  let dot_radius := dot_radius_of ring_thickness in
  let nd := num_dots_of random_spacing radius_outer dot_radius (snd st) in
  place_dots random_spacing fuel image_size center radius_inner ring_thickness
             (fst nd) dot_radius (linspace_angles (fst nd)) (fst st, snd nd).

Fixpoint sieve_rings (random_spacing : bool) (fuel : nat)
    (image_size center : Z) (radii : list R) (ks : list Z) (st : image * nat)
    : res (image * nat) :=
  match ks with
  | [] => Ok st
  | k :: rest =>
      st' <- sieve_ring random_spacing fuel image_size center radii st k ;;
      sieve_rings random_spacing fuel image_size center radii rest st'
  end.

(** The rasterizer proper: everything after the canvas is known. *)
Definition photon_sieve (random_spacing : bool) (fuel : nat)
    (image_size : Z) (radii : list R) (num_rings : Z) : res image :=
  if (image_size <? 0)%Z then Raise negative_dims
  else
    let center := (image_size / 2)%Z in
    let img0 := clear_center center (radius_at radii 0) (zeros image_size) in
    st <- sieve_rings random_spacing fuel image_size center radii
                      (zrange2 1 num_rings) (img0, O) ;;
    set_border image_size (fst st).

Definition generate_photon_sieve (fuel : nat)
    (wavelength focal_length : R) (num_rings : Z) (random_spacing : bool)
    : res image :=
  if has_nan wavelength focal_length num_rings && (1 <? num_rings)%Z
  then Raise nan_to_int
  else
    c <- canvas (ring_radii wavelength focal_length num_rings) ;;
    photon_sieve random_spacing fuel (fst c) (snd c) num_rings.

(** Lines 148-162: conversion, the ring-count check and the requested
    generators, in order; the result is the [images] dictionary. *)
Definition main (fuel : nat) (a : arguments) : res (list (string * image)) :=
  let wavelength := convert_units (arg_wavelength a) (arg_wavelength_unit a) in
  let focal_length := convert_units (arg_focal_length a) (arg_focal_length_unit a) in
  let num_rings := arg_num_rings a in
  if (num_rings <=? 1)%Z then Raise too_few_rings
  else
    images1 <- (if contains "f"%char (arg_generate a) then
                  im <- generate_fresnel_zone_plate wavelength focal_length num_rings ;;
                  Ok [("fresnel_zone_plate"%string, im)]
                else Ok []) ;;
    images2 <- (if contains "p"%char (arg_generate a) then
                  im <- generate_photon_sieve fuel wavelength focal_length num_rings false ;;
                  Ok (images1 ++ [("photon_sieve"%string, im)])
                else Ok images1) ;;
    (if contains "r"%char (arg_generate a) then
       im <- generate_photon_sieve fuel wavelength focal_length num_rings true ;;
       Ok (images2 ++ [("random_photon_sieve"%string, im)])
     else Ok images2).

End PhotonSieve.

(** ** Collision avoidance as the specification words it

    The procedure of section 4.4, step 6, for one candidate angle: the angle
    is moved by a random offset, and moved again while the position holds an
    opaque pixel, until an open position is found (a disk is stamped there)
    or the position is outside the canvas (the dot is skipped).  It is
    compared with [place_dot], which follows lines 98-124. *)
Fixpoint retry_spec (rng : nat -> R) (fuel : nat) (img : image)
    (image_size center : Z) (radius_inner ring_thickness : R) (num_dots : Z)
    (random_angle : R) (i : nat) : res (option R * nat) :=
  match fuel with
  | O => Diverge
  | S fuel' =>
      let x := dot_x center radius_inner ring_thickness random_angle in
      let y := dot_y center radius_inner ring_thickness random_angle in
      if negb (in_canvas image_size y x) then Ok (None, i)
      else if (pixel img y x =? 0)%Z then Ok (Some random_angle, i)
      else
        retry_spec rng fuel' img image_size center radius_inner ring_thickness
                   num_dots (random_angle + uniform rng 0 (PI / IZR num_dots) i) (S i)
  end.

Definition place_dot_spec (rng : nat -> R) (fuel : nat)
    (image_size center : Z) (radius_inner ring_thickness : R)
    (num_dots dot_radius : Z) (st : image * nat) (angle : R)
    : res (image * nat) :=
  let (img, i) := st in
  r <- retry_spec rng fuel img image_size center radius_inner ring_thickness
                  num_dots (angle + uniform rng 0 (PI / IZR num_dots) i) (S i) ;;
  match fst r with
  | None => Ok (img, snd r)
  | Some a =>
      Ok (stamp_disk img image_size
                     (dot_y center radius_inner ring_thickness a)
                     (dot_x center radius_inner ring_thickness a) dot_radius,
          snd r)
  end.

(** ** The first stage under a rounding function

    For statements about every input, the float arithmetic of lines 24-33
    (and 56-65) is followed with an explicit rounding: every operation
    returns [rnd] of its exact result, as IEEE 754 prescribes for [+], [-],
    [*], [/] and the square root.  For binary64 [rnd] is rounding to nearest,
    ties to even; it is monotone and leaves the integers up to [2^53] and
    every float unchanged.  [pow2 x] is the float that [x ** 2] returns.
    Results beyond the range of binary64 (an infinity, or the [OverflowError]
    of [**]) are outside this model.  With the identity for [rnd] and the
    square for [pow2] these are the exact definitions above. *)

Definition monotone (rnd : R -> R) : Prop :=
  forall x y : R, x <= y -> rnd x <= rnd y.

(** The integers a float holds exactly. *)
Definition exact_integers (rnd : R -> R) : Prop :=
  forall z : Z, (Z.abs z <= 2 ^ 53)%Z -> rnd (IZR z) = IZR z.

(** The difference of two distinct floats is not rounded to zero (gradual
    underflow). *)
Definition distinct_gaps (rnd : R -> R) : Prop :=
  forall a b : R, rnd a = a -> rnd b = b -> a < b -> 0 < rnd (b - a).

(** Line 24 and line 56; [n] and [n ** 2] are converted to float without
    error. *)
Definition ring_radii_rnd (rnd pow2 : R -> R) (wavelength focal_length : R)
    (num_rings : Z) : list R :=
  map (fun n =>
         rnd (sqrt (rnd (rnd (rnd (IZR n * wavelength) * focal_length)
                         + rnd (rnd (IZR (n ^ 2) * pow2 wavelength) / 4)))))
      (zrange 1 (num_rings + 1)).

(** [np.diff] *)
Fixpoint diff_rnd (rnd : R -> R) (l : list R) : list R :=
  match l with
  | a :: (b :: _) as t => rnd (b - a) :: diff_rnd rnd t
  | _ => []
  end.

(** Lines 27-33 and 59-65, with the cases of [canvas] for a zero
    difference; [8], [2] and [image_size // 2] are converted to float without
    error. *)
Definition canvas_rnd (rnd : R -> R) (radii : list R) : res (Z * list R) :=
  match list_min (diff_rnd rnd radii) with
  | None => Raise empty_min
  | Some min_ring_thickness =>
      if Req_dec_T min_ring_thickness 0 then
        Raise (if Req_dec_T (last radii 0) 0 then nan_to_int else OverflowError)
      else
        let image_size :=
          int_of (rnd (rnd (rnd (IZR min_ring_thickness_px / min_ring_thickness)
                            * last radii 0) * 2)) in
        Ok (image_size,
            map (fun r => rnd (rnd (r / last radii 0) * IZR (image_size / 2))) radii)
  end.

(** ** The zone plate generator in binary64

    The zone plate generator uses no trigonometric function, so its float
    arithmetic can be followed exactly: [PrimFloat.float] is IEEE 754
    binary64 with round-to-nearest-even, the arithmetic of Python's [float]
    and of [np.float64]. *)

(** A Python [int] used in float arithmetic: the nearest float (an integer
    up to [2^53] is kept exactly). *)
Definition Z2F (n : Z) : PrimFloat.float :=
  SF2Prim (binary_normalize prec emax n 0 false).

(** [int(x)] on a float: truncation toward zero; NaN and the infinities
    raise. *)
Definition int_of64 (x : PrimFloat.float) : res Z :=
  match Prim2SF x with
  | S754_nan => Raise nan_to_int
  | S754_infinity _ => Raise OverflowError
  | S754_zero _ => Ok 0%Z
  | S754_finite s m e =>
      let a := if (0 <=? e)%Z then (Zpos m * 2 ^ e)%Z else (Zpos m / 2 ^ (- e))%Z in
      Ok (if s then (- a)%Z else a)
  end.

(** [x ** 2] on a Python float calls the C library's [pow] and raises
    [OverflowError] when the result of a finite [x] is out of range; an
    underflow is no error.  [pow] is accurate to the last bit but need not
    return the nearest float, so the generator takes it as a parameter
    [pow2 : PrimFloat.float -> option PrimFloat.float], with [None] for the
    [OverflowError].

    [square64] is the correctly rounded square.  [pow] returns it wherever
    the square is itself a float (as for 2, 12, 28, 98, 2000) or underflows
    to zero (as for 1e-200), and raises where it is beyond the largest float
    by orders of magnitude (as for 1e200). *)
Definition square64 (x : PrimFloat.float) : option PrimFloat.float :=
  if is_infinity (x * x)%float && negb (is_infinity x) then None
  else Some (x * x)%float.

(** Line 24 and line 56.  With no ring the comprehension is empty and
    [wavelength ** 2] is not evaluated. *)
Definition ring_radii64 (pow2 : PrimFloat.float -> option PrimFloat.float)
    (wavelength focal_length : PrimFloat.float) (num_rings : Z)
    : res (list PrimFloat.float) :=
  if (num_rings <=? 0)%Z then Ok []
  else
    match pow2 wavelength with
    | None => Raise OverflowError
    | Some w2 =>
        Ok (map (fun n =>
                   PrimFloat.sqrt (Z2F n * wavelength * focal_length
                                   + Z2F (n ^ 2) * w2 / Z2F 4)%float)
                (zrange 1 (num_rings + 1)))
    end.

(** [np.diff] *)
Fixpoint diff64 (l : list PrimFloat.float) : list PrimFloat.float :=
  match l with
  | a :: (b :: _) as t => (b - a)%float :: diff64 t
  | _ => []
  end.

(** [min(...)] compares with [<] and keeps the earlier element otherwise;
    [None] stands for the [ValueError] raised on an empty sequence. *)
Definition min64 (l : list PrimFloat.float) : option PrimFloat.float :=
  match l with
  | [] => None
  | a :: t => Some (fold_left (fun m x => if (x <? m)%float then x else m) t a)
  end.

(** Lines 27-33 and 59-65. *)
Definition canvas64 (radii : list PrimFloat.float) : res (Z * list PrimFloat.float) :=
  match min64 (diff64 radii) with
  | None => Raise empty_min
  | Some min_ring_thickness =>
      image_size <- int_of64 (Z2F min_ring_thickness_px / min_ring_thickness
                              * last radii PrimFloat.zero * Z2F 2)%float ;;
      Ok (image_size,
          map (fun r => (r / last radii PrimFloat.zero * Z2F (image_size / 2))%float) radii)
  end.

(** Lines 24-33 and 56-65: the first stage, the same in both generators. *)
Definition sized_canvas64 (pow2 : PrimFloat.float -> option PrimFloat.float)
    (wavelength focal_length : PrimFloat.float) (num_rings : Z)
    : res (Z * list PrimFloat.float) :=
  radii <- ring_radii64 pow2 wavelength focal_length num_rings ;;
  canvas64 radii.

(** Line 41, at row [y] and column [x]: the squared distance is an [int64]
    (below [2^63] on every canvas that fits in memory), converted to float
    by [np.sqrt]. *)
Definition distance64 (center y x : Z) : PrimFloat.float :=
  PrimFloat.sqrt (of_uint63 (Uint63Axioms.of_Z ((x - center) ^ 2 + (y - center) ^ 2))).

(** Line 45. *)
Definition in_band64 (radii : list PrimFloat.float) (k : Z) (d : PrimFloat.float) : bool :=
  (nth (Z.to_nat (k - 1)) radii PrimFloat.zero <=? d)%float
  && (d <? nth (Z.to_nat k) radii PrimFloat.zero)%float.

Definition zone_rings64 (radii : list PrimFloat.float) (center num_rings : Z)
    (img : image) : image :=
  fold_left (fun im k =>
               if (k mod 2 =? 1)%Z then
                 map_pixels (fun y x v =>
                               if in_band64 radii k (distance64 center y x)
                               then 1%Z else v) im
               else im)
            (zrange 0 num_rings) img.

(** Lines 36-51. *)
Definition zone_plate64 (image_size : Z) (radii : list PrimFloat.float)
    (num_rings : Z) : res image :=
  if (image_size <? 0)%Z then Raise negative_dims
  else
    set_border image_size
      (zone_rings64 radii (image_size / 2) num_rings (zeros image_size)).

Definition generate_fresnel_zone_plate64
    (pow2 : PrimFloat.float -> option PrimFloat.float)
    (wavelength focal_length : PrimFloat.float) (num_rings : Z) : res image :=
  c <- sized_canvas64 pow2 wavelength focal_length num_rings ;;
  zone_plate64 (fst c) (snd c) num_rings.

(** Lines 7-19 in binary64, on the parser's five unit names; [100] and
    [1000] are converted to float. *)
Definition convert_units64 (value : PrimFloat.float) (unit : unit_name)
    : PrimFloat.float :=
  match unit with
  | U_m => value
  | U_cm => (value / Z2F 100)%float
  | U_mm => (value / Z2F 1000)%float
  | U_um => (value / 1e6)%float
  | U_nm => (value / 1e9)%float
  end.

(** ** The lens diameter (lines 178-195) *)

(** A float that may be NaN, for the diameter computed after the generators
    have run (or have been skipped). *)
Inductive float : Type := Num (x : R) | NaN.

(** [np.sqrt]: NaN, with a warning, on a negative number. *)
Definition fsqrt (x : R) : float := if Rltb x 0 then NaN else Num (sqrt x).

(** Multiplication by a number; NaN stays NaN. *)
Definition fmul (a : float) (b : R) : float :=
  match a with
  | Num x => Num (x * b)
  | NaN => NaN
  end.

(** [a >= b]; every comparison with NaN is false. *)
Definition fge (a : float) (b : R) : bool :=
  match a with
  | Num x => Rleb b x
  | NaN => false
  end.

(** Line 193. *)
Definition outer_ring_diameter (wavelength focal_length : R) (num_rings : Z) : float :=
  fmul (fsqrt (IZR num_rings * wavelength * focal_length
               + (IZR num_rings) ^ 2 * (wavelength ^ 2) / 4)) 2.

(** The unit suffixes of [format_diameter]. *)
Inductive length_suffix : Type := S_m | S_cm | S_mm | S_um | S_nm | S_pm.

(** Lines 179-191.  The result stands for the number handed to the [:.2f]
    format and the suffix written after it; the decimal rounding of the
    format is not part of the model. *)
Definition format_diameter (diameter_m : float) : float * length_suffix :=
  if fge diameter_m 1 then (diameter_m, S_m)
  else if fge diameter_m (1 / 100) then (fmul diameter_m 100, S_cm)
  else if fge diameter_m (1 / 1000) then (fmul diameter_m 1000, S_mm)
  else if fge diameter_m (1 / 1000000) then (fmul diameter_m 1000000, S_um)
  else if fge diameter_m (1 / 1000000000) then (fmul diameter_m 1000000000, S_nm)
  else (fmul diameter_m 1000000000000, S_pm).

(** The length in metres of one unit of a suffix. *)
Definition suffix_metres (s : length_suffix) : R :=
  match s with
  | S_m => 1
  | S_cm => 1 / 100
  | S_mm => 1 / 1000
  | S_um => 1 / 1000000
  | S_nm => 1 / 1000000000
  | S_pm => 1 / 1000000000000
  end.

(** ** Predicates used in the statements *)

(** A radius sequence as the data model describes it: at least two radii,
    positive and strictly increasing. *)
Fixpoint increasing (l : list R) : Prop :=
  match l with
  | a :: (b :: _) as t => a < b /\ increasing t
  | _ => True
  end.

(** A valid [RadiusSequence]. *)
Definition valid_radii (radii : list R) : Prop :=
  (2 <= length radii)%nat /\ 0 < hd 0 radii /\ increasing radii.

(** The first and last row and column of the image. *)
Definition on_border (image_size y x : Z) : Prop :=
  x = 0%Z \/ x = (image_size - 1)%Z \/ y = 0%Z \/ y = (image_size - 1)%Z.

(** The exceptions that come from inside a generator, as opposed to the
    ring-count check of [main]. *)
Definition internal (e : exn) : Prop :=
  e = empty_min \/ e = nan_to_int \/ e = negative_dims
  \/ e = OverflowError \/ e = IndexError.

(** The condition under which [stamp_disk], centred at row [y] and column
    [x], assigns 1 to the pixel at row [Y] and column [X]. *)
Definition in_stamp (image_size y x dot_radius Y X : Z) : bool :=
  (Z.max 0 (y - dot_radius) <=? Y)%Z && (Y <? Z.min image_size (y + dot_radius))%Z
  && (Z.max 0 (x - dot_radius) <=? X)%Z && (X <? Z.min image_size (x + dot_radius))%Z
  && disk_mask dot_radius (Y - Z.max 0 (y - dot_radius)) (X - Z.max 0 (x - dot_radius)).

(** The angle after [n] further perturbations, the first of which reads draw
    [i]. *)
Fixpoint angle_after (rng : nat -> R) (num_dots : Z) (random_angle : R) (i n : nat) : R :=
  match n with
  | O => random_angle
  | S n' =>
      angle_after rng num_dots
        (random_angle + uniform rng 0 (PI / IZR num_dots) i) (S i) n'
  end.

(** The exit test of line 103. *)
Definition accepts (img : image) (image_size center : Z)
    (radius_inner ring_thickness angle : R) : bool :=
  in_canvas image_size (dot_y center radius_inner ring_thickness angle)
                       (dot_x center radius_inner ring_thickness angle)
  && (pixel img (dot_y center radius_inner ring_thickness angle)
                (dot_x center radius_inner ring_thickness angle) =? 0)%Z.

(** The angle and the pixel position of the [j]-th dot of a ring with inner
    radius [a], outer radius [b] and [n] dots, when every earlier dot was
    placed at its first position; [i1] is the index of the draw read by the
    first dot. *)
Definition dot_angle (rng : nat -> R) (i1 : nat) (n : Z) (j : nat) : R :=
  IZR (0 + Z.of_nat j) * (2 * PI / IZR n) + uniform rng 0 (PI / IZR n) (i1 + j).

Definition dot_col (rng : nat -> R) (center : Z) (a b : R) (i1 : nat) (n : Z)
    (j : nat) : Z :=
  dot_x center a (b - a) (dot_angle rng i1 n j).

Definition dot_row (rng : nat -> R) (center : Z) (a b : R) (i1 : nat) (n : Z)
    (j : nat) : Z :=
  dot_y center a (b - a) (dot_angle rng i1 n j).

(** Every opaque pixel is within the inner radius of the ring or in the stamp
    of one of the first [j] dots of the ring. *)
Definition dots_inv (rng : nat -> R) (image_size center : Z) (a b : R)
    (i1 : nat) (n : Z) (j : nat) (img : image) : Prop :=
  forall y x, (0 <= y < image_size)%Z -> (0 <= x < image_size)%Z ->
    pixel img y x <> 0%Z ->
    IZR ((x - center) ^ 2 + (y - center) ^ 2) <= a ^ 2
    \/ exists j', (j' < j)%nat
         /\ in_stamp image_size (dot_row rng center a b i1 n j')
                      (dot_col rng center a b i1 n j') (dot_radius_of (b - a)) y x
            = true.

(** What the rasterizers use of a canvas built from valid physical
    parameters: every ring is more than 7.5 pixels thick, no thicker than its
    inner radius, and inside the half-width of the canvas. *)
Definition good_canvas (image_size : Z) (radii : list R) (num_rings : Z) : Prop :=
  (0 < image_size)%Z /\ (2 <= num_rings)%Z
  /\ forall k : Z, (1 <= k < num_rings)%Z ->
       0 < radius_at radii (k - 1)
       /\ 15 / 2 < radius_at radii k - radius_at radii (k - 1)
       /\ radius_at radii k - radius_at radii (k - 1) <= radius_at radii (k - 1)
       /\ radius_at radii k <= IZR (image_size / 2).

(** Every opaque pixel is at distance at most [bound] from the centre. *)
Definition opaque_within (image_size : Z) (img : image) (bound : R) : Prop :=
  forall y x, (0 <= y < image_size)%Z -> (0 <= x < image_size)%Z ->
    pixel img y x <> 0%Z ->
    IZR ((x - image_size / 2) ^ 2 + (y - image_size / 2) ^ 2) <= bound ^ 2.

(** Every opaque pixel is at distance more than [bound] from the centre. *)
Definition opaque_outside (image_size : Z) (img : image) (bound : R) : Prop :=
  forall y x, (0 <= y < image_size)%Z -> (0 <= x < image_size)%Z ->
    pixel img y x <> 0%Z ->
    bound ^ 2 < IZR ((x - image_size / 2) ^ 2 + (y - image_size / 2) ^ 2).

(** Every pixel is 0 or 1. *)
Definition binary (img : image) : Prop :=
  Forall (Forall (fun v => v = 0%Z \/ v = 1%Z)) img.

(** The keys of the [images] dictionary of [main], in insertion order. *)
Definition requested_titles (generate : string) : list string :=
  (if contains "f"%char generate then ["fresnel_zone_plate"%string] else [])
  ++ (if contains "p"%char generate then ["photon_sieve"%string] else [])
  ++ (if contains "r"%char generate then ["random_photon_sieve"%string] else []).

(** ** Example inputs *)

(** A command line with a negative wavelength and focal length. *)
Definition negative_arguments : arguments :=
  {| arg_wavelength := -2;
     arg_wavelength_unit := U_m;
     arg_focal_length := -24;
     arg_focal_length_unit := U_m;
     arg_num_rings := 2;
     arg_generate := "f" |}.

(** A 4 pixel canvas with centre 2 and a ring of inner radius 2 and
    thickness 1, so that the mid-ring radius is 2.5; one dot; the draws are
    0, 1/2, 1/2, ... *)
Definition retry_rng (i : nat) : R :=
  match i with
  | O => 0
  | S _ => 1 / 2
  end.

(** All draws are 0: the count factor is 1.3 and no angle is moved. *)
Definition zero_rng (i : nat) : R := 0.

(** The image after the six dots, each stamped twice (lines 106-112 and
    118-124), and the returned mask. *)
Definition stamp_twice (img : image) (y x : Z) : image :=
  stamp_disk (stamp_disk img 53 y x 4) 53 y x 4.

Definition example_dots : image :=
  stamp_twice (stamp_twice (stamp_twice (stamp_twice (stamp_twice (stamp_twice
    (zeros 53) 26 48) 45 37) 45 15) 26 4) 7 15) 7 37.

Definition example_mask : image :=
  map_pixels (fun y x v =>
                if (x =? 0)%Z || (x =? 53 - 1)%Z || (y =? 0)%Z || (y =? 53 - 1)%Z
                then 0%Z else v) example_dots.

(** A valid command line asking for the random photon sieve and the zone
    plate. *)
Definition valid_arguments : arguments :=
  {| arg_wavelength := 2;
     arg_wavelength_unit := U_m;
     arg_focal_length := 24;
     arg_focal_length_unit := U_m;
     arg_num_rings := 2;
     arg_generate := "rf" |}.

(** Rounding to the nearest multiple of [2^-10], an example of a rounding. *)
Definition round_grid (x : R) : R := IZR (Zfloor (x * 1024 + / 2)) / 1024.

(** * Properties *)

(** ** Basic facts about the helpers *)

Lemma Rleb_true (a b : R) : Rleb a b = true <-> a <= b.
Proof. unfold Rleb; destruct (Rle_dec a b); split; intros; try easy; congruence. Qed.

Lemma Rltb_true (a b : R) : Rltb a b = true <-> a < b.
Proof. unfold Rltb; destruct (Rlt_dec a b); split; intros; try easy; congruence. Qed.

Lemma Rltb_false (a b : R) : Rltb a b = false <-> b <= a.
Proof.
  unfold Rltb; destruct (Rlt_dec a b); split; intros; try easy; try lra.
Qed.

Lemma int_of_nonneg (r : R) : 0 <= r -> int_of r = Zfloor r.
Proof. intros H; unfold int_of; destruct (Rle_dec 0 r); [reflexivity | contradiction]. Qed.

Lemma int_of_eq (r : R) (z : Z) : (0 <= z)%Z -> IZR z <= r < IZR z + 1 -> int_of r = z.
Proof.
  intros Hz H. rewrite int_of_nonneg.
  - now apply Zfloor_eq.
  - apply IZR_le in Hz. lra.
Qed.

Lemma int_of_neg_eq (r : R) (z : Z) : (0 <= z)%Z -> IZR z <= - r < IZR z + 1 -> int_of r = (- z)%Z.
Proof.
  intros Hz H. unfold int_of. destruct (Rle_dec 0 r) as [Hr | Hr].
  - assert (r = 0) by (apply IZR_le in Hz; lra). subst r.
    assert (z = 0%Z).
    { apply IZR_le in Hz. destruct H as [H1 H2]. rewrite Ropp_0 in H1.
      apply eq_IZR. lra. }
    subst z. replace 0 with (IZR 0) by reflexivity. now rewrite ZfloorZ.
  - f_equal. now apply Zfloor_eq.
Qed.

Lemma nth_map_lt {A B : Type} (f : A -> B) (l : list A) (i : nat) (d : B) (d' : A) :
  (i < length l)%nat -> nth i (map f l) d = f (nth i l d').
Proof.
  revert i; induction l as [|a l IH]; intros [|i] H; simpl in *; try lia; auto.
  apply IH; lia.
Qed.

Lemma length_zrange (lo hi : Z) : length (zrange lo hi) = Z.to_nat (hi - lo).
Proof. unfold zrange. now rewrite length_map, length_seq. Qed.

Lemma nth_zrange (lo hi : Z) (i : nat) (d : Z) :
  (i < Z.to_nat (hi - lo))%nat -> nth i (zrange lo hi) d = (lo + Z.of_nat i)%Z.
Proof.
  intros H. unfold zrange.
  rewrite nth_map_lt with (d' := 0%nat) by now rewrite length_seq.
  rewrite seq_nth by assumption. reflexivity.
Qed.

Lemma in_zrange (lo hi k : Z) : In k (zrange lo hi) <-> (lo <= k < hi)%Z.
Proof.
  unfold zrange. rewrite in_map_iff. split.
  - intros [i [<- Hi]]. apply in_seq in Hi. lia.
  - intros H. exists (Z.to_nat (k - lo)). split; [lia | apply in_seq; lia].
Qed.

(** ** Radius sequence *)

Lemma length_ring_radii (wavelength focal_length : R) (num_rings : Z) :
  length (ring_radii wavelength focal_length num_rings) = Z.to_nat num_rings.
Proof.
  unfold ring_radii. rewrite length_map, length_zrange. f_equal. lia.
Qed.

Lemma radius_at_ring_radii (wavelength focal_length : R) (num_rings k : Z) :
  (0 <= k < num_rings)%Z ->
  radius_at (ring_radii wavelength focal_length num_rings) k
  = sqrt (radicand wavelength focal_length (k + 1)).
Proof.
  intros H. unfold radius_at, ring_radii.
  rewrite nth_map_lt with (d' := 0%Z) by (rewrite length_zrange; lia).
  rewrite nth_zrange by lia.
  do 2 f_equal. lia.
Qed.

Lemma radicand_increasing (wavelength focal_length : R) (a b : Z) :
  0 < wavelength -> 0 < focal_length -> (0 <= a < b)%Z ->
  radicand wavelength focal_length a < radicand wavelength focal_length b.
Proof.
  intros Hw Hf [Ha Hab]. unfold radicand.
  apply IZR_le in Ha. apply IZR_lt in Hab.
  assert (0 < wavelength * focal_length) by nra.
  assert (0 < wavelength ^ 2) by nra.
  assert (IZR a ^ 2 < IZR b ^ 2) by nra.
  nra.
Qed.

Lemma radicand_nonneg (wavelength focal_length : R) (a : Z) :
  0 < wavelength -> 0 < focal_length -> (0 <= a)%Z ->
  0 <= radicand wavelength focal_length a.
Proof.
  intros Hw Hf Ha. unfold radicand. apply IZR_le in Ha.
  assert (0 <= IZR a * wavelength * focal_length).
  { apply Rmult_le_pos; [apply Rmult_le_pos|]; lra. }
  assert (0 <= IZR a ^ 2 * wavelength ^ 2 / 4) by nra.
  lra.
Qed.

(** ** Canvas sizing *)

Lemma fold_Rmin_le (l : list R) (a : R) : fold_left Rmin l a <= a.
Proof.
  revert a; induction l as [|b l IH]; intros a; simpl; [lra|].
  eapply Rle_trans; [apply IH | apply Rmin_l].
Qed.

Lemma fold_Rmin_lower (l : list R) (a x : R) : In x l -> fold_left Rmin l a <= x.
Proof.
  revert a; induction l as [|b l IH]; intros a; simpl; [tauto|].
  intros [-> | H].
  - eapply Rle_trans; [apply fold_Rmin_le | apply Rmin_r].
  - now apply IH.
Qed.

Lemma fold_Rmin_in (l : list R) (a : R) :
  fold_left Rmin l a = a \/ In (fold_left Rmin l a) l.
Proof.
  revert a; induction l as [|b l IH]; intros a; simpl; [now left|].
  destruct (IH (Rmin a b)) as [H | H]; [| now right; right].
  rewrite H. unfold Rmin. destruct (Rle_dec a b); [now left | now right; left].
Qed.

Lemma list_min_spec (l : list R) (m : R) :
  list_min l = Some m -> In m l /\ forall x, In x l -> m <= x.
Proof.
  destruct l as [|a t]; simpl; [discriminate|].
  intros [= <-]. split.
  - destruct (fold_Rmin_in t a) as [-> | H]; [now left | now right].
  - intros x [<- | H]; [apply fold_Rmin_le | now apply fold_Rmin_lower].
Qed.

Lemma fold_Rmin_scale (c : R) (l : list R) (a : R) : 0 <= c ->
  fold_left Rmin (map (fun g => g * c) l) (a * c) = fold_left Rmin l a * c.
Proof.
  intros Hc. revert a; induction l as [|b l IH]; intros a; simpl; [reflexivity|].
  rewrite <- IH. f_equal. unfold Rmin.
  destruct (Rle_dec a b), (Rle_dec (a * c) (b * c)); try reflexivity; nra.
Qed.

Lemma list_min_scale (c : R) (l : list R) (m : R) : 0 <= c ->
  list_min l = Some m -> list_min (map (fun g => g * c) l) = Some (m * c).
Proof.
  intros Hc. destruct l as [|a t]; simpl; [discriminate|].
  intros [= <-]. now rewrite fold_Rmin_scale.
Qed.

Lemma diff_scale (c : R) (l : list R) :
  diff (map (fun r => r * c) l) = map (fun g => g * c) (diff l).
Proof.
  induction l as [|a [|b t] IH]; simpl in *; try reflexivity.
  rewrite IH. f_equal. ring.
Qed.

Lemma length_diff (l : list R) : length (diff l) = (length l - 1)%nat.
Proof.
  induction l as [|a [|b t] IH]; simpl in *; try reflexivity.
  rewrite IH. lia.
Qed.

Lemma diff_positive (l : list R) : increasing l -> forall g, In g (diff l) -> 0 < g.
Proof.
  induction l as [|a [|b t] IH]; simpl; try tauto.
  intros [Hab Ht] g [<- | Hg]; [lra | now apply IH].
Qed.

Lemma increasing_hd_le_last (l : list R) (d : R) :
  increasing l -> l <> [] -> hd d l <= last l d.
Proof.
  induction l as [|a [|b t] IH]; simpl; intros Hinc Hne; try congruence; try lra.
  destruct Hinc as [Hab Ht]. simpl in IH.
  assert (b <= last (b :: t) d) by (apply IH; [assumption | discriminate]).
  simpl in H. lra.
Qed.

(** The last radius is the first one plus all the gaps, hence at least the
    first one plus the last gap. *)
Lemma increasing_gap_below_last (l : list R) (g : R) :
  increasing l -> 0 < hd 0 l -> In g (diff l) -> exists x, In x (diff l) /\ hd 0 l + x <= last l 0.
Proof.
  destruct l as [|a [|b t]]; simpl; try tauto.
  intros [Hab Ht] Ha _. exists (b - a). split; [now left|].
  pose proof (increasing_hd_le_last (b :: t) 0 Ht ltac:(discriminate)) as H.
  simpl in H. lra.
Qed.

Lemma valid_radii_min_gap (radii : list R) :
  valid_radii radii ->
  exists min_gap, list_min (diff radii) = Some min_gap
    /\ 0 < min_gap /\ min_gap < last radii 0.
Proof.
  intros (Hlen & Hhd & Hinc).
  destruct (list_min (diff radii)) as [m|] eqn:Hm.
  - exists m. split; [reflexivity|].
    destruct (list_min_spec _ _ Hm) as [Hin Hlow].
    split; [eapply diff_positive; eauto|].
    destruct (increasing_gap_below_last radii m Hinc Hhd Hin) as (x & Hx & Hle).
    specialize (Hlow x Hx). lra.
  - destruct radii as [|a [|b t]]; simpl in *; try lia; discriminate.
Qed.

Lemma half_of_floor (q : R) : (Zfloor (q * 2) / 2)%Z = Zfloor q.
Proof.
  symmetry. apply Zfloor_eq.
  pose proof (Zfloor_bound (q * 2)) as [H1 H2].
  pose proof (Z.div_mod (Zfloor (q * 2)) 2 ltac:(lia)) as Hd.
  pose proof (Z.mod_pos_bound (Zfloor (q * 2)) 2 ltac:(lia)) as Hm.
  set (s := Zfloor (q * 2)) in *. set (h := (s / 2)%Z) in *.
  assert (Hlo : (2 * h <= s)%Z) by lia.
  assert (Hhi : (s <= 2 * h + 1)%Z) by lia.
  apply IZR_le in Hlo, Hhi. rewrite mult_IZR in Hlo. rewrite plus_IZR, mult_IZR in Hhi.
  lra.
Qed.

Lemma length_scale_radii (radii : list R) (image_size : Z) :
  length (scale_radii radii image_size) = length radii.
Proof. unfold scale_radii. apply length_map. Qed.

Lemma nth_scale_radii (radii : list R) (image_size : Z) (k : nat) :
  (k < length radii)%nat ->
  nth k (scale_radii radii image_size) 0
  = nth k radii 0 * (IZR (image_size / 2) / last radii 0).
Proof.
  intros H. unfold scale_radii.
  rewrite nth_map_lt with (d' := 0) by assumption.
  unfold Rdiv. ring.
Qed.

Lemma nth_last (l : list R) (d : R) : nth (length l - 1) l d = last l d.
Proof.
  induction l as [|a [|b t] IH]; simpl in *; try reflexivity.
  rewrite <- IH. now rewrite Nat.sub_0_r.
Qed.

Lemma canvas_valid (radii : list R) (min_gap : R) :
  list_min (diff radii) = Some min_gap -> 0 < min_gap -> 0 < last radii 0 ->
  canvas radii
  = Ok (Zfloor ((8 / min_gap) * last radii 0 * 2),
        scale_radii radii (Zfloor ((8 / min_gap) * last radii 0 * 2))).
Proof.
  intros Hm Hpos Hlast. unfold canvas. rewrite Hm.
  destruct (Req_dec_T min_gap 0) as [E | _]; [lra|].
  unfold min_ring_thickness_px.
  rewrite int_of_nonneg; [reflexivity|].
  assert (0 < 8 / min_gap) by (apply Rdiv_lt_0_compat; lra).
  nra.
Qed.

(** The running example: wavelength 2, focal length 24, two rings.  The radii
    are 7 and 10, the canvas is 53 pixels wide and the scaled radii are 18.2
    and 26. *)
Lemma ring_radii_example : ring_radii 2 24 2 = [7; 10].
Proof.
  unfold ring_radii, zrange, radicand. simpl.
  replace (1 * 2 * 24 + 1 * (1 * 1) * (2 * (2 * 1)) / 4) with (Rsqr 7)
    by (unfold Rsqr; lra).
  replace (2 * 2 * 24 + 2 * (2 * 1) * (2 * (2 * 1)) / 4) with (Rsqr 10)
    by (unfold Rsqr; lra).
  rewrite !sqrt_Rsqr by lra. reflexivity.
Qed.

Lemma valid_radii_example : valid_radii [7; 10].
Proof. unfold valid_radii; simpl. repeat split; try lia; lra. Qed.

Lemma canvas_example : canvas [7; 10] = Ok (53%Z, [182 / 10; 26]).
Proof.
  rewrite canvas_valid with (min_gap := 10 - 7); simpl; try lra; try reflexivity.
  assert (E : Zfloor (8 / (10 - 7) * 10 * 2) = 53%Z) by (apply Zfloor_eq; lra).
  rewrite E. unfold scale_radii. simpl.
  change (IZR (53 / 2)) with 26.
  replace (7 / 10 * 26) with (182 / 10) by lra.
  replace (10 / 10 * 26) with 26 by lra.
  reflexivity.
Qed.

(** The canvas side and the scale factor for a smallest gap [g] and a last
    radius [L]. *)
Lemma scaled_gap_bounds (g L : R) :
  0 < g -> g < L ->
  (Zfloor (8 / g * L * 2) / 2)%Z = Zfloor (8 / g * L)
  /\ 0 <= IZR (Zfloor (8 / g * L)) / L
  /\ g * (IZR (Zfloor (8 / g * L)) / L) <= 8
  /\ 8 - g / L < g * (IZR (Zfloor (8 / g * L)) / L)
  /\ IZR (Zfloor (8 / g * L * 2)) <= 16 * L / g < IZR (Zfloor (8 / g * L * 2)) + 1.
Proof.
  intros Hpos Hlt.
  assert (HL : 0 < L) by lra.
  set (q := 8 / g * L).
  assert (Hq : 0 < q).
  { unfold q. assert (0 < 8 / g) by (apply Rdiv_lt_0_compat; lra). nra. }
  pose proof (Zfloor_bound q) as [Hq1 Hq2].
  pose proof (Zfloor_bound (q * 2)) as [Hs1 Hs2].
  assert (Hqg : q * g = 8 * L) by (unfold q; field; lra).
  assert (Hc : 0 <= IZR (Zfloor q) / L).
  { apply Rmult_le_pos; [| left; now apply Rinv_0_lt_compat].
    apply IZR_le. apply Zfloor_lub. simpl. lra. }
  assert (Hgl : g * (IZR (Zfloor q) / L) * L = g * IZR (Zfloor q)) by (field; lra).
  assert (Hgl2 : g / L * L = g) by (field; lra).
  split; [apply half_of_floor|]. split; [assumption|].
  split; [| split].
  - apply Rmult_le_reg_r with (r := L); [assumption|]. rewrite Hgl. nra.
  - apply Rmult_lt_reg_r with (r := L); [assumption|].
    rewrite Hgl. rewrite Rmult_minus_distr_r, Hgl2. nra.
  - assert (E : 16 * L / g = q * 2) by (unfold q; field; lra).
    rewrite E. lra.
Qed.

(** ** Images and pixel assignment *)

Lemma length_imap_from {A B : Type} (f : Z -> A -> B) (i : Z) (l : list A) :
  length (imap_from f i l) = length l.
Proof. revert i; induction l as [|a l IH]; intros i; simpl; [reflexivity | now rewrite IH]. Qed.

Lemma nth_imap_from {A B : Type} (f : Z -> A -> B) (i : Z) (l : list A)
    (n : nat) (d : B) (d' : A) :
  (n < length l)%nat ->
  nth n (imap_from f i l) d = f (i + Z.of_nat n)%Z (nth n l d').
Proof.
  revert i n; induction l as [|a l IH]; intros i [|n] H; simpl in H; try lia.
  - simpl. f_equal. lia.
  - cbn [imap_from nth]. rewrite IH by lia. f_equal. lia.
Qed.

Lemma square_zeros (n : Z) : square n (zeros n).
Proof.
  unfold square, zeros. split; [apply repeat_length|].
  apply Forall_forall. intros row H. apply repeat_spec in H. subst row.
  apply repeat_length.
Qed.

Lemma pixel_zeros (n y x : Z) : pixel (zeros n) y x = 0%Z.
Proof.
  unfold pixel, zeros.
  destruct (Nat.lt_ge_cases (Z.to_nat y) (Z.to_nat n)) as [H | H].
  - rewrite nth_repeat_lt by assumption.
    destruct (Nat.lt_ge_cases (Z.to_nat x) (Z.to_nat n)) as [H' | H'].
    + now rewrite nth_repeat_lt.
    + apply nth_overflow. now rewrite repeat_length.
  - rewrite nth_overflow with (l := repeat (repeat 0%Z (Z.to_nat n)) (Z.to_nat n))
      by now rewrite repeat_length.
    now destruct (Z.to_nat x).
Qed.

Lemma square_map_pixels (f : Z -> Z -> Z -> Z) (n : Z) (img : image) :
  square n img -> square n (map_pixels f img).
Proof.
  intros [Hl Hr]. unfold square, map_pixels. split.
  - now rewrite length_imap_from.
  - apply Forall_forall. intros row Hin.
    destruct (In_nth _ _ [] Hin) as (i & Hi & <-).
    rewrite length_imap_from in Hi.
    rewrite nth_imap_from with (d' := []) by assumption.
    rewrite length_imap_from.
    rewrite Forall_forall in Hr. apply Hr. now apply nth_In.
Qed.

Lemma pixel_map_pixels (f : Z -> Z -> Z -> Z) (n : Z) (img : image) (y x : Z) :
  square n img -> (0 <= y < n)%Z -> (0 <= x < n)%Z ->
  pixel (map_pixels f img) y x = f y x (pixel img y x).
Proof.
  intros [Hl Hr] Hy Hx. unfold pixel, map_pixels.
  rewrite nth_imap_from with (d' := []) by lia.
  assert (Hrow : length (nth (Z.to_nat y) img []) = Z.to_nat n).
  { rewrite Forall_forall in Hr. apply Hr. apply nth_In. lia. }
  rewrite nth_imap_from with (d' := 0%Z) by lia.
  f_equal; lia.
Qed.

Lemma classic_border (image_size y x : Z) :
  on_border image_size y x \/ ~ on_border image_size y x.
Proof. unfold on_border. lia. Qed.

Lemma set_border_spec (image_size : Z) (img : image) :
  (0 < image_size)%Z -> square image_size img ->
  exists out, set_border image_size img = Ok out
    /\ square image_size out
    /\ forall y x, (0 <= y < image_size)%Z -> (0 <= x < image_size)%Z ->
         (on_border image_size y x -> pixel out y x = 0%Z)
         /\ (~ on_border image_size y x -> pixel out y x = pixel img y x).
Proof.
  intros Hn Hsq. unfold set_border.
  destruct (image_size <=? 0)%Z eqn:E; [lia|].
  eexists. split; [reflexivity|]. split; [now apply square_map_pixels|].
  intros y x Hy Hx. rewrite pixel_map_pixels with (n := image_size) by assumption.
  unfold on_border.
  destruct (x =? 0)%Z eqn:E1; destruct (x =? image_size - 1)%Z eqn:E2;
    destruct (y =? 0)%Z eqn:E3; destruct (y =? image_size - 1)%Z eqn:E4; simpl;
    split; intros H; try reflexivity; exfalso; lia.
Qed.

(** ** Zone plate rasterizer *)

Lemma square_zone_rings (radii : list R) (center : Z) (n : Z) (ks : list Z) (img : image) :
  square n img ->
  square n (fold_left (fun im k => if (k mod 2 =? 1)%Z then fill_band radii center k im else im)
                      ks img).
Proof.
  revert img; induction ks as [|k ks IH]; intros img Hsq; simpl; [assumption|].
  apply IH. destruct (k mod 2 =? 1)%Z; [now apply square_map_pixels | assumption].
Qed.

Lemma pixel_zone_rings (radii : list R) (center n : Z) (ks : list Z) (img : image) (y x : Z) :
  square n img -> (0 <= y < n)%Z -> (0 <= x < n)%Z ->
  pixel (fold_left (fun im k => if (k mod 2 =? 1)%Z then fill_band radii center k im else im)
                   ks img) y x
  = if existsb (fun k => (k mod 2 =? 1)%Z && in_band radii k (distance center y x)) ks
    then 1%Z else pixel img y x.
Proof.
  revert img; induction ks as [|k ks IH]; intros img Hsq Hy Hx; simpl; [reflexivity|].
  destruct (k mod 2 =? 1)%Z eqn:Ek; simpl.
  - rewrite IH by (try apply square_map_pixels; assumption).
    unfold fill_band. rewrite pixel_map_pixels with (n := n) by assumption.
    destruct (in_band radii k (distance center y x)); simpl; [|reflexivity].
    now destruct (existsb _ ks).
  - now apply IH.
Qed.

Lemma in_band_true (radii : list R) (k : Z) (d : R) :
  in_band radii k d = true <-> radius_at radii (k - 1) <= d < radius_at radii k.
Proof.
  unfold in_band. rewrite andb_true_iff, Rleb_true, Rltb_true. tauto.
Qed.

(** The rasterizer on any canvas with at least one pixel. *)
Lemma zone_plate_pixels (image_size : Z) (radii : list R) (num_rings : Z) :
  (0 < image_size)%Z ->
  exists img, zone_plate image_size radii num_rings = Ok img
    /\ square image_size img
    /\ forall y x, (0 <= y < image_size)%Z -> (0 <= x < image_size)%Z ->
         (pixel img y x = 1%Z \/ pixel img y x = 0%Z)
         /\ (pixel img y x = 1%Z <->
             ~ on_border image_size y x
             /\ exists k, (0 <= k < num_rings)%Z /\ (k mod 2 = 1)%Z
                  /\ radius_at radii (k - 1) <= distance (image_size / 2) y x
                     < radius_at radii k).
Proof.
  intros Hn. unfold zone_plate, zone_rings.
  destruct (image_size <? 0)%Z eqn:E; [lia|].
  set (body := fold_left _ _ _).
  assert (Hsq : square image_size body)
    by (apply square_zone_rings, square_zeros).
  destruct (set_border_spec image_size body Hn Hsq) as (out & Hout & Hsqo & Hpix).
  exists out. split; [assumption | split; [assumption|]].
  intros y x Hy Hx. destruct (Hpix y x Hy Hx) as [Hb Hnb].
  assert (Hbody : pixel body y x
    = if existsb (fun k => (k mod 2 =? 1)%Z
                           && in_band radii k (distance (image_size / 2) y x))
                 (zrange 0 num_rings)
      then 1%Z else 0%Z).
  { unfold body. rewrite pixel_zone_rings with (n := image_size)
      by (try apply square_zeros; assumption).
    now rewrite pixel_zeros. }
  assert (Hex : existsb (fun k => (k mod 2 =? 1)%Z
                           && in_band radii k (distance (image_size / 2) y x))
                 (zrange 0 num_rings) = true
     <-> exists k, (0 <= k < num_rings)%Z /\ (k mod 2 = 1)%Z
                  /\ radius_at radii (k - 1) <= distance (image_size / 2) y x
                     < radius_at radii k).
  { rewrite existsb_exists. split.
    - intros (k & Hk & Hc). apply in_zrange in Hk.
      apply andb_true_iff in Hc. destruct Hc as [Ho Hin].
      exists k. rewrite <- in_band_true. repeat split; try lia; assumption.
    - intros (k & Hk & Ho & Hin). exists k. split; [now apply in_zrange|].
      apply andb_true_iff. split; [lia | now apply in_band_true]. }
  destruct (classic_border image_size y x) as [B | B].
  - rewrite (Hb B). split; [now right|]. split; [discriminate | tauto].
  - rewrite (Hnb B), Hbody.
    destruct (existsb _ _) eqn:Ee.
    + split; [now left|]. split; [intros _; split; [assumption | now apply Hex] | reflexivity].
    + split; [now right|]. split; [discriminate|].
      intros [_ H]. apply Hex in H. discriminate.
Qed.

(** ** Valid physical parameters give a valid canvas *)

Lemma increasing_of_nth (l : list R) :
  (forall i : nat, (S i < length l)%nat -> nth i l 0 < nth (S i) l 0) -> increasing l.
Proof.
  induction l as [|a [|b t] IH]; intros H; simpl; auto.
  split.
  - apply (H 0%nat). simpl. lia.
  - apply IH. intros i Hi. apply (H (S i)). simpl in *. lia.
Qed.

Lemma ring_radii_valid (wavelength focal_length : R) (num_rings : Z) :
  0 < wavelength -> 0 < focal_length -> (2 <= num_rings)%Z ->
  valid_radii (ring_radii wavelength focal_length num_rings).
Proof.
  intros Hw Hf HN. unfold valid_radii. rewrite length_ring_radii.
  split; [lia | split].
  - assert (E : hd 0 (ring_radii wavelength focal_length num_rings)
                = radius_at (ring_radii wavelength focal_length num_rings) 0).
    { unfold radius_at. simpl.
      destruct (ring_radii wavelength focal_length num_rings); reflexivity. }
    rewrite E, radius_at_ring_radii by lia.
    apply sqrt_lt_R0.
    replace 0 with (radicand wavelength focal_length 0) by (unfold radicand; simpl; lra).
    apply radicand_increasing; auto; lia.
  - apply increasing_of_nth. intros i Hi. rewrite length_ring_radii in Hi.
    pose proof (radius_at_ring_radii wavelength focal_length num_rings (Z.of_nat i)) as E1.
    pose proof (radius_at_ring_radii wavelength focal_length num_rings (Z.of_nat (S i))) as E2.
    unfold radius_at in E1, E2. rewrite Nat2Z.id in E1, E2.
    rewrite E1, E2 by lia.
    apply sqrt_lt_1; try (apply radicand_nonneg; auto; lia).
    apply radicand_increasing; auto; lia.
Qed.

Lemma has_nan_valid (wavelength focal_length : R) (num_rings : Z) :
  0 < wavelength -> 0 < focal_length ->
  has_nan wavelength focal_length num_rings = false.
Proof.
  intros Hw Hf. unfold has_nan.
  destruct (existsb _ _) eqn:E; [|reflexivity].
  apply existsb_exists in E. destruct E as (n & Hn & Hlt).
  apply in_zrange in Hn. apply Rltb_true in Hlt.
  pose proof (radicand_nonneg wavelength focal_length n Hw Hf ltac:(lia)). lra.
Qed.

(** A valid radius sequence yields a canvas at least 16 pixels wide. *)
Lemma canvas_valid_size (radii : list R) :
  valid_radii radii ->
  exists image_size scaled,
    canvas radii = Ok (image_size, scaled)
    /\ scaled = scale_radii radii image_size
    /\ (16 <= image_size)%Z.
Proof.
  intros Hv. destruct (valid_radii_min_gap radii Hv) as (g & Hg & Hpos & Hlt).
  do 2 eexists. split; [apply canvas_valid; eauto; lra|]. split; [reflexivity|].
  apply Zfloor_lub.
  assert (H : 1 < last radii 0 / g).
  { apply Rmult_lt_reg_r with (r := g); [assumption|].
    replace (last radii 0 / g * g) with (last radii 0) by (field; lra). lra. }
  replace (8 / g * last radii 0 * 2) with (16 * (last radii 0 / g)) by (field; lra).
  lra.
Qed.

(** ** Exceptions raised by the generators *)

Lemma internal_not_validation (e : exn) : internal e -> e <> too_few_rings.
Proof.
  unfold internal, empty_min, nan_to_int, negative_dims, too_few_rings.
  intros [-> | [-> | [-> | [-> | ->]]]]; discriminate.
Qed.

Lemma canvas_raises (radii : list R) (e : exn) : canvas radii = Raise e -> internal e.
Proof.
  unfold canvas, internal. destruct (list_min (diff radii)) as [g|].
  - destruct (Req_dec_T g 0); [|discriminate].
    destruct (Req_dec_T (last radii 0) 0); intros [= <-]; auto.
  - intros [= <-]; auto.
Qed.

Lemma set_border_raises (image_size : Z) (img : image) (e : exn) :
  set_border image_size img = Raise e -> internal e.
Proof.
  unfold set_border, internal. destruct (image_size <=? 0)%Z; [|discriminate].
  intros [= <-]; auto 6.
Qed.

Lemma generate_fresnel_zone_plate_raises (wavelength focal_length : R) (num_rings : Z) (e : exn) :
  generate_fresnel_zone_plate wavelength focal_length num_rings = Raise e -> internal e.
Proof.
  unfold generate_fresnel_zone_plate.
  destruct (has_nan _ _ _ && _); [intros [= <-]; unfold internal; auto|].
  destruct (canvas _) as [c | e' |] eqn:Hc; simpl; try discriminate.
  - unfold zone_plate. destruct (fst c <? 0)%Z.
    + intros [= <-]; unfold internal; auto.
    + apply set_border_raises.
  - intros [= <-]. eapply canvas_raises; eauto.
Qed.

Section SieveExceptions.

Variable rng : nat -> R.

Lemma retry_no_raise fuel img image_size center radius_inner ring_thickness
    num_dots random_angle i e :
  retry rng fuel img image_size center radius_inner ring_thickness num_dots
        random_angle i <> Raise e.
Proof.
  revert random_angle i; induction fuel as [|fuel IH]; intros a i; simpl;
    [discriminate|].
  destruct (in_canvas _ _ _ && _); [discriminate | apply IH].
Qed.

Lemma place_dot_no_raise random_spacing fuel image_size center radius_inner
    ring_thickness num_dots dot_radius st angle e :
  place_dot rng random_spacing fuel image_size center radius_inner
            ring_thickness num_dots dot_radius st angle <> Raise e.
Proof.
  unfold place_dot. destruct st as [img i]. destruct random_spacing; [|discriminate].
  destruct (retry _ _ _ _ _ _ _ _ _ _) eqn:Hr; simpl; try discriminate.
  exfalso. eapply retry_no_raise; eauto.
Qed.

Lemma place_dots_no_raise random_spacing fuel image_size center radius_inner
    ring_thickness num_dots dot_radius angles st e :
  place_dots rng random_spacing fuel image_size center radius_inner
             ring_thickness num_dots dot_radius angles st <> Raise e.
Proof.
  revert st; induction angles as [|a rest IH]; intros st; simpl; [discriminate|].
  destruct (place_dot _ _ _ _ _ _ _ _ _ _ _) eqn:Hp; simpl; try discriminate.
  - apply IH.
  - exfalso. eapply place_dot_no_raise; eauto.
Qed.

Lemma sieve_rings_no_raise random_spacing fuel image_size center radii ks st e :
  sieve_rings rng random_spacing fuel image_size center radii ks st <> Raise e.
Proof.
  revert st; induction ks as [|k rest IH]; intros st; simpl; [discriminate|].
  destruct (sieve_ring _ _ _ _ _ _ _ _) eqn:Hs; simpl; try discriminate.
  - apply IH.
  - exfalso. unfold sieve_ring in Hs. eapply place_dots_no_raise; eauto.
Qed.

Lemma generate_photon_sieve_raises fuel wavelength focal_length num_rings
    random_spacing e :
  generate_photon_sieve rng fuel wavelength focal_length num_rings random_spacing
  = Raise e -> internal e.
Proof.
  unfold generate_photon_sieve.
  destruct (has_nan _ _ _ && _); [intros [= <-]; unfold internal; auto|].
  destruct (canvas _) as [c | e' |] eqn:Hc; simpl; try discriminate.
  - unfold photon_sieve. destruct (fst c <? 0)%Z.
    + intros [= <-]; unfold internal; auto.
    + destruct (sieve_rings _ _ _ _ _ _ _ _) eqn:Hs; simpl; try discriminate.
      * apply set_border_raises.
      * exfalso. eapply sieve_rings_no_raise; eauto.
  - intros [= <-]. eapply canvas_raises; eauto.
Qed.

(** C9, amended.  [main] raises its validation error exactly when
    [num_rings < 2]; the wavelength and the focal length are not checked.
    The check precedes every generator call. *)
Theorem main_validation (fuel : nat) (a : arguments) :
  main rng fuel a = Raise too_few_rings <-> (arg_num_rings a < 2)%Z.
Proof.
  unfold main. destruct (arg_num_rings a <=? 1)%Z eqn:E.
  - split; [lia | reflexivity].
  - split; [|lia]. intros H. exfalso. revert H.
    set (w := convert_units _ _). set (f := convert_units _ _).
    set (n := arg_num_rings a).
    destruct (contains "f" _).
    + destruct (generate_fresnel_zone_plate w f n) eqn:Hf; simpl; try discriminate.
      2:{ intros [= ->]. apply generate_fresnel_zone_plate_raises in Hf.
          now apply internal_not_validation in Hf. }
      destruct (contains "p" _).
      * destruct (generate_photon_sieve rng fuel w f n false) eqn:Hp; simpl; try discriminate.
        2:{ intros [= ->]. apply generate_photon_sieve_raises in Hp.
            now apply internal_not_validation in Hp. }
        destruct (contains "r" _); [|discriminate].
        destruct (generate_photon_sieve rng fuel w f n true) eqn:Hr; simpl; try discriminate.
        intros [= ->]. apply generate_photon_sieve_raises in Hr.
        now apply internal_not_validation in Hr.
      * destruct (contains "r" _); [|discriminate].
        destruct (generate_photon_sieve rng fuel w f n true) eqn:Hr; simpl; try discriminate.
        intros [= ->]. apply generate_photon_sieve_raises in Hr.
        now apply internal_not_validation in Hr.
    + simpl. destruct (contains "p" _).
      * destruct (generate_photon_sieve rng fuel w f n false) eqn:Hp; simpl; try discriminate.
        2:{ intros [= ->]. apply generate_photon_sieve_raises in Hp.
            now apply internal_not_validation in Hp. }
        destruct (contains "r" _); [|discriminate].
        destruct (generate_photon_sieve rng fuel w f n true) eqn:Hr; simpl; try discriminate.
        intros [= ->]. apply generate_photon_sieve_raises in Hr.
        now apply internal_not_validation in Hr.
      * destruct (contains "r" _); [|discriminate].
        destruct (generate_photon_sieve rng fuel w f n true) eqn:Hr; simpl; try discriminate.
        intros [= ->]. apply generate_photon_sieve_raises in Hr.
        now apply internal_not_validation in Hr.
Qed.

End SieveExceptions.

(** ** A run with a negative wavelength *)

Lemma ring_radii_negative : ring_radii (-2) (-24) 2 = [7; 10].
Proof.
  unfold ring_radii, zrange, radicand. simpl.
  replace (1 * -2 * -24 + 1 * (1 * 1) * (-2 * (-2 * 1)) / 4) with (Rsqr 7)
    by (unfold Rsqr; lra).
  replace (2 * -2 * -24 + 2 * (2 * 1) * (-2 * (-2 * 1)) / 4) with (Rsqr 10)
    by (unfold Rsqr; lra).
  rewrite !sqrt_Rsqr by lra. reflexivity.
Qed.

Lemma has_nan_negative : has_nan (-2) (-24) 2 = false.
Proof.
  unfold has_nan, zrange, radicand. simpl.
  assert (E1 : Rltb (1 * -2 * -24 + 1 * (1 * 1) * (-2 * (-2 * 1)) / 4) 0 = false)
    by (apply Rltb_false; lra).
  assert (E2 : Rltb (2 * -2 * -24 + 2 * (2 * 1) * (-2 * (-2 * 1)) / 4) 0 = false)
    by (apply Rltb_false; lra).
  rewrite E1, E2. reflexivity.
Qed.

(** C9 as stated fails: with wavelength -2 m and focal length -24 m (both
    non-positive) and two rings, [main] raises nothing and returns the zone
    plate mask. *)
Lemma validation_counterexample :
  convert_units (arg_wavelength negative_arguments)
                (arg_wavelength_unit negative_arguments) <= 0
  /\ convert_units (arg_focal_length negative_arguments)
                   (arg_focal_length_unit negative_arguments) <= 0
  /\ exists img : image,
       main (fun _ => 0) 0 negative_arguments
       = Ok [("fresnel_zone_plate"%string, img)].
Proof.
  simpl. split; [lra | split; [lra|]].
  destruct (zone_plate_pixels 53 [182 / 10; 26] 2 ltac:(lia))
    as (img & Hz & _).
  assert (Hg : generate_fresnel_zone_plate (-2) (-24) 2 = Ok img).
  { unfold generate_fresnel_zone_plate.
    rewrite has_nan_negative, ring_radii_negative, canvas_example.
    unfold bind. cbn [fst snd]. exact Hz. }
  exists img. unfold main, negative_arguments.
  cbn -[generate_fresnel_zone_plate generate_photon_sieve].
  rewrite Hg. reflexivity.
Qed.

(** ** Dot radius and dot count *)

Lemma PI_bounds : 313 / 100 < PI < 324 / 100.
Proof.
  pose proof (PI_2_3_7_ineq 0) as [H1 H2].
  unfold sum_f_R0, tg_alt, PI_2_3_7_tg, Ratan_seq in H1, H2.
  simpl in H1, H2. lra.
Qed.

Lemma dot_radius_of_nonneg (ring_thickness : R) :
  0 <= ring_thickness ->
  dot_radius_of ring_thickness = Z.max (Zfloor (ring_thickness / 2)) 4.
Proof.
  intros H. unfold dot_radius_of, min_ring_thickness_px.
  rewrite int_of_nonneg by lra. reflexivity.
Qed.

Lemma dot_radius_min (ring_thickness : R) : (4 <= dot_radius_of ring_thickness)%Z.
Proof.
  unfold dot_radius_of, min_ring_thickness_px.
  change (8 / 2)%Z with 4%Z. lia.
Qed.

Lemma uniform_range_strict (rng : nat -> R) (a b : R) (i : nat) :
  a < b -> 0 <= rng i < 1 -> a <= uniform rng a b i < b.
Proof. intros Hab [H0 H1]. unfold uniform. nra. Qed.

(** C5, amended.  The dot radius is [max (floor (ringThickness / 2)) 4].
    Without random spacing the dot count is
    [max 1 (floor (circumference / avgSpacing))] with [avgSpacing] the midpoint
    of [3 * dotRadius, 4 * dotRadius].  With random spacing the divisor is the
    sum [1.1 * dotRadius + 4 * dotRadius] of the two ends of the jittered range
    (not their midpoint), multiplied by one factor [u] in [1.3, 1.5) read from
    a single draw for the ring. *)
Theorem num_dots_spec (rng : nat -> R) (radius_outer ring_thickness : R) (i : nat) :
  0 <= ring_thickness -> 0 <= radius_outer -> 0 <= rng i < 1 ->
  dot_radius_of ring_thickness = Z.max (Zfloor (ring_thickness / 2)) 4
  /\ num_dots_of rng false radius_outer (dot_radius_of ring_thickness) i
     = (Z.max 1 (Zfloor (2 * PI * radius_outer
                         / ((3 * IZR (dot_radius_of ring_thickness)
                             + 4 * IZR (dot_radius_of ring_thickness)) / 2))), i)
  /\ exists u : R,
       u = uniform rng (13 / 10) (15 / 10) i
       /\ 13 / 10 <= u < 15 / 10
       /\ num_dots_of rng true radius_outer (dot_radius_of ring_thickness) i
          = (Z.max 1 (Zfloor (2 * PI * radius_outer
                              / ((11 / 10 * IZR (dot_radius_of ring_thickness)
                                  + 4 * IZR (dot_radius_of ring_thickness)) * u))),
             S i).
Proof.
  intros HT Hr Hrng.
  pose proof (dot_radius_min ring_thickness) as Hd. apply IZR_le in Hd.
  set (d := IZR (dot_radius_of ring_thickness)) in *.
  pose proof PI_RGT_0 as Hpi.
  assert (Hc : 0 <= 2 * PI * radius_outer) by nra.
  split; [now apply dot_radius_of_nonneg | split].
  - unfold num_dots_of. fold d.
    replace ((d * 3 + d * 4) / 2) with ((3 * d + 4 * d) / 2) by lra.
    rewrite int_of_nonneg; [reflexivity|].
    apply Rmult_le_pos; [assumption|]. left. apply Rinv_0_lt_compat. lra.
  - exists (uniform rng (13 / 10) (15 / 10) i). split; [reflexivity|].
    pose proof (uniform_range_strict rng (13 / 10) (15 / 10) i ltac:(lra) Hrng) as Hu.
    split; [assumption|].
    unfold num_dots_of. fold d.
    set (u := uniform rng (13 / 10) (15 / 10) i) in *.
    replace (d * (11 / 10) + d * 4) with (11 / 10 * d + 4 * d) by lra.
    rewrite int_of_nonneg; [reflexivity|].
    apply Rmult_le_pos; [assumption|]. left. apply Rinv_0_lt_compat. nra.
Qed.

Lemma num_dots_spec_witness :
  dot_radius_of (78 / 10) = Z.max (Zfloor (78 / 10 / 2)) 4
  /\ num_dots_of (fun _ => 0) false 26 (dot_radius_of (78 / 10)) 0
     = (Z.max 1 (Zfloor (2 * PI * 26
                         / ((3 * IZR (dot_radius_of (78 / 10))
                             + 4 * IZR (dot_radius_of (78 / 10))) / 2))), 0%nat)
  /\ exists u : R,
       u = uniform (fun _ => 0) (13 / 10) (15 / 10) 0
       /\ 13 / 10 <= u < 15 / 10
       /\ num_dots_of (fun _ => 0) true 26 (dot_radius_of (78 / 10)) 0
          = (Z.max 1 (Zfloor (2 * PI * 26
                              / ((11 / 10 * IZR (dot_radius_of (78 / 10))
                                  + 4 * IZR (dot_radius_of (78 / 10))) * u))),
             1%nat).
Proof.
  apply (num_dots_spec (fun _ => 0) 26 (78 / 10) 0); lra.
Defined.

Lemma dot_radius_example : dot_radius_of (78 / 10) = 4%Z.
Proof.
  unfold dot_radius_of, min_ring_thickness_px.
  rewrite (int_of_eq (78 / 10 / 2) 3) by (try lia; simpl; lra). reflexivity.
Qed.

(** With outer radius 26, dot radius 4 and the factor 1.3 the ring gets 6
    dots. *)
Lemma num_dots_example :
  num_dots_of (fun _ => 0) true 26 4 0 = (6%Z, 1%nat).
Proof.
  unfold num_dots_of, uniform. pose proof PI_bounds as [Hlo Hhi].
  rewrite (int_of_eq _ 6); [reflexivity | lia |].
  replace (2 * PI * 26 / ((4 * (11 / 10) + 4 * 4) * (13 / 10 + (15 / 10 - 13 / 10) * 0)))
    with (PI * (5200 / 2652)) by (field; lra).
  simpl. lra.
Qed.

(** C5 as stated fails on the random branch: with outer radius 26, ring
    thickness 7.8 and the factor 1.3, the midpoint [2.55 * dotRadius] scaled by
    the factor would give 12 dots, while the generator computes 6. *)
Lemma num_dots_counterexample :
  uniform (fun _ => 0) (13 / 10) (15 / 10) 0 = 13 / 10
  /\ Z.max 1 (Zfloor (2 * PI * 26
                      / (255 / 100 * IZR (dot_radius_of (78 / 10))
                         * uniform (fun _ => 0) (13 / 10) (15 / 10) 0))) = 12%Z
  /\ fst (num_dots_of (fun _ => 0) true 26 (dot_radius_of (78 / 10)) 0) = 6%Z.
Proof.
  rewrite dot_radius_example, num_dots_example.
  split; [unfold uniform; lra | split; [|reflexivity]].
  pose proof PI_bounds as [Hlo Hhi].
  rewrite Zfloor_eq with (z := 12%Z); [reflexivity|].
  replace (2 * PI * 26 / (255 / 100 * 4 * uniform (fun _ => 0) (13 / 10) (15 / 10) 0))
    with (PI * (5200 / 1326)) by (unfold uniform; field; lra).
  simpl. lra.
Qed.

(** ** Disk stamping *)

Lemma square_stamp_disk (n : Z) (img : image) (image_size y x dot_radius : Z) :
  square n img -> square n (stamp_disk img image_size y x dot_radius).
Proof. intros H. unfold stamp_disk. now apply square_map_pixels. Qed.

Lemma pixel_stamp_disk (img : image) (image_size y x dot_radius Y X : Z) :
  square image_size img -> (0 <= Y < image_size)%Z -> (0 <= X < image_size)%Z ->
  pixel (stamp_disk img image_size y x dot_radius) Y X
  = if in_stamp image_size y x dot_radius Y X then 1%Z else pixel img Y X.
Proof.
  intros Hsq HY HX. unfold stamp_disk.
  rewrite pixel_map_pixels with (n := image_size) by assumption. reflexivity.
Qed.

(** Away from the low edges the stamp is the disk of radius [dot_radius]
    restricted to offsets in [-dot_radius, dot_radius). *)
Lemma in_stamp_unclipped (image_size y x dot_radius Y X : Z) :
  (dot_radius <= y)%Z -> (dot_radius <= x)%Z ->
  (0 <= Y < image_size)%Z -> (0 <= X < image_size)%Z ->
  in_stamp image_size y x dot_radius Y X = true
  <-> (- dot_radius <= Y - y < dot_radius)%Z /\ (- dot_radius <= X - x < dot_radius)%Z
      /\ ((Y - y) ^ 2 + (X - x) ^ 2 <= dot_radius ^ 2)%Z.
Proof.
  intros Hy Hx HY HX. unfold in_stamp, disk_mask.
  rewrite !Z.max_r by lia.
  replace (- dot_radius + (Y - (y - dot_radius)))%Z with (Y - y)%Z by lia.
  replace (- dot_radius + (X - (x - dot_radius)))%Z with (X - x)%Z by lia.
  rewrite !andb_true_iff, !Z.leb_le, !Z.ltb_lt. lia.
Qed.

(** A disk clipped at the top-left corner: the mask is cut from its first
    row and column, so the centre pixel itself is not set while a pixel
    farther than the radius is. *)
Lemma stamp_disk_low_clip :
  pixel (stamp_disk (zeros 16) 16 1 1 4) 1 1 = 0%Z
  /\ pixel (stamp_disk (zeros 16) 16 1 1 4) 4 4 = 1%Z
  /\ (4 ^ 2 < (4 - 1) ^ 2 + (4 - 1) ^ 2)%Z.
Proof. vm_compute. repeat split; congruence. Qed.

(** ** The collision-avoidance loop *)

Section RetryLoop.

Variable rng : nat -> R.

Lemma retry_unfold fuel img image_size center radius_inner ring_thickness
    num_dots random_angle i :
  retry rng (S fuel) img image_size center radius_inner ring_thickness num_dots
        random_angle i
  = if accepts img image_size center radius_inner ring_thickness random_angle
    then Ok (random_angle, i)
    else retry rng fuel img image_size center radius_inner ring_thickness num_dots
               (random_angle + uniform rng 0 (PI / IZR num_dots) i) (S i).
Proof. reflexivity. Qed.

Lemma retry_Ok_iff fuel img image_size center radius_inner ring_thickness
    num_dots random_angle i angle' i' :
  retry rng fuel img image_size center radius_inner ring_thickness num_dots
        random_angle i = Ok (angle', i')
  <-> exists n : nat,
        (n < fuel)%nat
        /\ accepts img image_size center radius_inner ring_thickness
                   (angle_after rng num_dots random_angle i n) = true
        /\ (forall m : nat, (m < n)%nat ->
              accepts img image_size center radius_inner ring_thickness
                      (angle_after rng num_dots random_angle i m) = false)
        /\ angle' = angle_after rng num_dots random_angle i n
        /\ i' = (i + n)%nat.
Proof.
  revert random_angle i; induction fuel as [|fuel IH]; intros a i.
  - simpl. split; [discriminate | intros (n & Hn & _); lia].
  - rewrite retry_unfold.
    destruct (accepts img image_size center radius_inner ring_thickness a) eqn:Ha.
    + split.
      * intros [= <- <-]. exists 0%nat. simpl.
        split; [lia|]. split; [assumption|]. split; [intros m Hm; lia|].
        split; [reflexivity | lia].
      * intros (n & Hn & Hacc & Hrej & -> & ->).
        destruct n as [|n]; [simpl; do 2 f_equal; lia|].
        specialize (Hrej 0%nat ltac:(lia)). simpl in Hrej. congruence.
    + rewrite IH. split.
      * intros (n & Hn & Hacc & Hrej & -> & ->).
        exists (S n). simpl.
        split; [lia|]. split; [assumption|]. split; [|split; [reflexivity | lia]].
        intros [|m] Hm; simpl; [assumption | apply Hrej; lia].
      * intros (n & Hn & Hacc & Hrej & -> & ->).
        destruct n as [|n]; [simpl in Hacc; congruence|].
        exists n. simpl in *.
        split; [lia|]. split; [assumption|]. split; [|split; [reflexivity | lia]].
        intros m Hm. apply (Hrej (S m)). lia.
Qed.

Lemma accepts_true img image_size center radius_inner ring_thickness angle :
  accepts img image_size center radius_inner ring_thickness angle = true
  <-> in_canvas image_size (dot_y center radius_inner ring_thickness angle)
                           (dot_x center radius_inner ring_thickness angle) = true
      /\ pixel img (dot_y center radius_inner ring_thickness angle)
                   (dot_x center radius_inner ring_thickness angle) = 0%Z.
Proof. unfold accepts. now rewrite andb_true_iff, Z.eqb_eq. Qed.

Lemma accepts_false img image_size center radius_inner ring_thickness angle :
  accepts img image_size center radius_inner ring_thickness angle = false
  <-> in_canvas image_size (dot_y center radius_inner ring_thickness angle)
                           (dot_x center radius_inner ring_thickness angle) = false
      \/ pixel img (dot_y center radius_inner ring_thickness angle)
                   (dot_x center radius_inner ring_thickness angle) <> 0%Z.
Proof. unfold accepts. now rewrite andb_false_iff, Z.eqb_neq. Qed.

(** A run of lines 98-124 that returns: the angle of the dot is first moved
    by an offset in [0, pi / num_dots), then moved again by such an offset as
    long as the resulting position is outside the canvas or holds an opaque
    pixel; the loop ends at the first position that is inside the canvas and
    open, and a disk is stamped there. *)
Lemma place_dot_random_run (fuel : nat) (image_size center : Z)
    (radius_inner ring_thickness : R) (num_dots dot_radius : Z)
    (img : image) (i : nat) (angle : R) (img' : image) (i' : nat) :
  (0 < num_dots)%Z ->
  (forall j : nat, 0 <= rng j < 1) ->
  place_dot rng true fuel image_size center radius_inner ring_thickness
            num_dots dot_radius (img, i) angle = Ok (img', i') ->
  (forall j : nat, 0 <= uniform rng 0 (PI / IZR num_dots) j < PI / IZR num_dots)
  /\ exists n : nat,
       (n < fuel)%nat /\ i' = (S i + n)%nat
       /\ (forall m : nat, (m < n)%nat ->
             let a := angle_after rng num_dots
                        (angle + uniform rng 0 (PI / IZR num_dots) i) (S i) m in
             in_canvas image_size (dot_y center radius_inner ring_thickness a)
                                  (dot_x center radius_inner ring_thickness a) = false
             \/ pixel img (dot_y center radius_inner ring_thickness a)
                          (dot_x center radius_inner ring_thickness a) <> 0%Z)
       /\ let a := angle_after rng num_dots
                     (angle + uniform rng 0 (PI / IZR num_dots) i) (S i) n in
          let x := dot_x center radius_inner ring_thickness a in
          let y := dot_y center radius_inner ring_thickness a in
          in_canvas image_size y x = true
          /\ pixel img y x = 0%Z
          /\ img' = stamp_disk (stamp_disk img image_size y x dot_radius)
                               image_size y x dot_radius.
Proof.
  intros Hnd Hrng Hp. split.
  - intros j. apply uniform_range_strict; [|apply Hrng].
    apply Rdiv_lt_0_compat; [apply PI_RGT_0 | now apply IZR_lt].
  - unfold place_dot in Hp.
    destruct (retry _ _ _ _ _ _ _ _ _ _) as [[a' j'] | |] eqn:Hr; simpl in Hp;
      try discriminate.
    apply retry_Ok_iff in Hr. destruct Hr as (n & Hn & Hacc & Hrej & -> & ->).
    exists n. split; [assumption|].
    apply accepts_true in Hacc. destruct Hacc as [Hin Hpx].
    unfold stamp_at_angle in Hp. rewrite Hin in Hp. injection Hp as <- <-.
    split; [reflexivity|]. split.
    + intros m Hm. apply accepts_false. now apply Hrej.
    + cbv zeta. repeat split; assumption.
Qed.

End RetryLoop.

(** ** A dot whose first position is outside the canvas *)

Lemma retry_rng_range (j : nat) : 0 <= retry_rng j < 1.
Proof. destruct j; simpl; lra. Qed.

Lemma retry_positions :
  dot_x 2 2 1 0 = 4%Z /\ dot_y 2 2 1 0 = 2%Z
  /\ dot_x 2 2 1 (PI / 2) = 2%Z /\ dot_y 2 2 1 (PI / 2) = 4%Z
  /\ dot_x 2 2 1 PI = 0%Z /\ dot_y 2 2 1 PI = 2%Z.
Proof.
  unfold dot_x, dot_y.
  rewrite cos_0, sin_0, cos_PI2, sin_PI2, cos_PI, sin_PI.
  rewrite (int_of_eq ((2 + 1 / 2) * 1) 2) by (try lia; simpl; lra).
  rewrite (int_of_eq ((2 + 1 / 2) * 0) 0) by (try lia; simpl; lra).
  rewrite (int_of_neg_eq ((2 + 1 / 2) * -1) 2) by (try lia; simpl; lra).
  repeat split; reflexivity.
Qed.

Lemma retry_run :
  retry retry_rng 5 (zeros 4) 4 2 2 1 1 (0 + uniform retry_rng 0 (PI / IZR 1) 0) 1
  = Ok (PI, 3%nat).
Proof.
  destruct retry_positions as (X0 & Y0 & X1 & Y1 & X2 & Y2).
  assert (A0 : 0 + uniform retry_rng 0 (PI / IZR 1) 0 = 0)
    by (unfold uniform; simpl; lra).
  assert (A1 : 0 + uniform retry_rng 0 (PI / IZR 1) 1 = PI / 2)
    by (unfold uniform; simpl; lra).
  assert (A2 : PI / 2 + uniform retry_rng 0 (PI / IZR 1) 2 = PI)
    by (unfold uniform; simpl; lra).
  rewrite A0, retry_unfold. unfold accepts at 1. rewrite X0, Y0.
  cbn [in_canvas Z.leb Z.ltb Z.compare Pos.compare Pos.compare_cont andb].
  rewrite A1, retry_unfold. unfold accepts at 1. rewrite X1, Y1.
  cbn [in_canvas Z.leb Z.ltb Z.compare Pos.compare Pos.compare_cont andb].
  rewrite A2, retry_unfold. unfold accepts at 1. rewrite X2, Y2.
  reflexivity.
Qed.

Lemma place_dot_retry_run :
  place_dot retry_rng true 5 4 2 2 1 1 4 (zeros 4, 0%nat) 0
  = Ok (stamp_disk (stamp_disk (zeros 4) 4 2 0 4) 4 2 0 4, 3%nat).
Proof.
  destruct retry_positions as (_ & _ & _ & _ & X2 & Y2).
  unfold place_dot. rewrite retry_run. unfold bind. cbn [fst snd].
  unfold stamp_at_angle. rewrite X2, Y2. reflexivity.
Qed.

(** ** The random photon sieve on the running example *)

Lemma sqrt3_bounds : 1732 / 1000 < sqrt 3 < 17321 / 10000.
Proof.
  split.
  - replace (1732 / 1000) with (sqrt (Rsqr (1732 / 1000)))
      by (apply sqrt_Rsqr; lra).
    apply sqrt_lt_1; unfold Rsqr; lra.
  - replace (17321 / 10000) with (sqrt (Rsqr (17321 / 10000)))
      by (apply sqrt_Rsqr; lra).
    apply sqrt_lt_1; unfold Rsqr; lra.
Qed.

Lemma cos_4PI3 : cos (PI / 3 + PI) = - (1 / 2).
Proof. now rewrite neg_cos, cos_PI3. Qed.

Lemma sin_4PI3 : sin (PI / 3 + PI) = - (sqrt 3 / 2).
Proof. now rewrite neg_sin, sin_PI3. Qed.

Lemma cos_5PI3 : cos (2 * (PI / 3) + PI) = - (-1 / 2).
Proof. now rewrite neg_cos, cos_2PI3. Qed.

Lemma sin_5PI3 : sin (2 * (PI / 3) + PI) = - (sqrt 3 / 2).
Proof. now rewrite neg_sin, sin_2PI3. Qed.

(** The six dot centres of the dark ring, at mid-ring radius 22.1. *)
Lemma example_positions :
  let ri := 182 / 10 in
  let t := 26 - 182 / 10 in
  (dot_x 26 ri t 0 = 48 /\ dot_y 26 ri t 0 = 26)%Z
  /\ (dot_x 26 ri t (PI / 3) = 37 /\ dot_y 26 ri t (PI / 3) = 45)%Z
  /\ (dot_x 26 ri t (2 * (PI / 3)) = 15 /\ dot_y 26 ri t (2 * (PI / 3)) = 45)%Z
  /\ (dot_x 26 ri t PI = 4 /\ dot_y 26 ri t PI = 26)%Z
  /\ (dot_x 26 ri t (PI / 3 + PI) = 15 /\ dot_y 26 ri t (PI / 3 + PI) = 7)%Z
  /\ (dot_x 26 ri t (2 * (PI / 3) + PI) = 37 /\ dot_y 26 ri t (2 * (PI / 3) + PI) = 7)%Z.
Proof.
  intros ri t. pose proof sqrt3_bounds as [S1 S2]. unfold dot_x, dot_y, ri, t.
  rewrite cos_0, sin_0, cos_PI3, sin_PI3, cos_2PI3, sin_2PI3, cos_PI, sin_PI,
    cos_4PI3, sin_4PI3, cos_5PI3, sin_5PI3.
  repeat split.
  - rewrite (int_of_eq _ 22); [reflexivity | lia | simpl; lra].
  - rewrite (int_of_eq _ 0); [reflexivity | lia | simpl; lra].
  - rewrite (int_of_eq _ 11); [reflexivity | lia | simpl; lra].
  - rewrite (int_of_eq _ 19); [reflexivity | lia | simpl; lra].
  - rewrite (int_of_neg_eq _ 11); [reflexivity | lia | simpl; lra].
  - rewrite (int_of_eq _ 19); [reflexivity | lia | simpl; lra].
  - rewrite (int_of_neg_eq _ 22); [reflexivity | lia | simpl; lra].
  - rewrite (int_of_eq _ 0); [reflexivity | lia | simpl; lra].
  - rewrite (int_of_neg_eq _ 11); [reflexivity | lia | simpl; lra].
  - rewrite (int_of_neg_eq _ 19); [reflexivity | lia | simpl; lra].
  - rewrite (int_of_eq _ 11); [reflexivity | lia | simpl; lra].
  - rewrite (int_of_neg_eq _ 19); [reflexivity | lia | simpl; lra].
Qed.

Lemma imap_from_repeat {A B : Type} (f : Z -> A -> B) (a : A) (b : B) (n : nat) (i : Z) :
  (forall j, f j a = b) -> imap_from f i (repeat a n) = repeat b n.
Proof.
  intros H. revert i; induction n as [|n IH]; intros i; simpl; [reflexivity|].
  now rewrite H, IH.
Qed.

Lemma map_pixels_zeros (f : Z -> Z -> Z -> Z) (n : Z) :
  (forall y x, f y x 0%Z = 0%Z) -> map_pixels f (zeros n) = zeros n.
Proof.
  intros H. unfold map_pixels, zeros.
  apply imap_from_repeat. intros y. now apply imap_from_repeat.
Qed.

(** Clearing the centre circle of the freshly allocated image changes
    nothing. *)
Lemma clear_center_zeros (center : Z) (radius_outer : R) (n : Z) :
  clear_center center radius_outer (zeros n) = zeros n.
Proof.
  unfold clear_center. apply map_pixels_zeros.
  intros y x. now destruct (Rleb _ _).
Qed.

Lemma place_dot_first_try (rng : nat -> R) (fuel : nat) (image_size center : Z)
    (radius_inner ring_thickness : R) (num_dots dot_radius : Z)
    (img : image) (i : nat) (angle : R) (x y : Z) :
  dot_x center radius_inner ring_thickness
        (angle + uniform rng 0 (PI / IZR num_dots) i) = x ->
  dot_y center radius_inner ring_thickness
        (angle + uniform rng 0 (PI / IZR num_dots) i) = y ->
  in_canvas image_size y x = true ->
  pixel img y x = 0%Z ->
  place_dot rng true (S fuel) image_size center radius_inner ring_thickness
            num_dots dot_radius (img, i) angle
  = Ok (stamp_disk (stamp_disk img image_size y x dot_radius)
                   image_size y x dot_radius, S i).
Proof.
  intros Hx Hy Hin Hpx. unfold place_dot. rewrite retry_unfold.
  unfold accepts. rewrite Hx, Hy, Hin, Hpx. cbn [Z.eqb andb bind fst snd].
  unfold stamp_at_angle. rewrite Hx, Hy, Hin. reflexivity.
Qed.

Lemma example_angles :
  linspace_angles 6
  = [0 * (2 * PI / 6); 1 * (2 * PI / 6); 2 * (2 * PI / 6);
     3 * (2 * PI / 6); 4 * (2 * PI / 6); 5 * (2 * PI / 6)].
Proof. reflexivity. Qed.

Ltac example_dot canon HX HY :=
  erewrite place_dot_first_try;
  [ cbn [bind]
  | match goal with
    | |- dot_x _ _ _ ?a = _ =>
        replace a with canon by (unfold uniform, zero_rng; lra); exact HX
    end
  | match goal with
    | |- dot_y _ _ _ ?a = _ =>
        replace a with canon by (unfold uniform, zero_rng; lra); exact HY
    end
  | reflexivity
  | vm_compute; reflexivity ].

Lemma example_sieve_ring :
  sieve_ring zero_rng true 1 53 26 [182 / 10; 26] (zeros 53, 0%nat) 1
  = Ok (example_dots, 7%nat).
Proof.
  destruct example_positions
    as ((X0 & Y0) & (X1 & Y1) & (X2 & Y2) & (X3 & Y3) & (X4 & Y4) & (X5 & Y5)).
  unfold sieve_ring.
  change (radius_at [182 / 10; 26] (1 - 1)) with (182 / 10).
  change (radius_at [182 / 10; 26] 1) with 26.
  assert (D : dot_radius_of (26 - 182 / 10) = 4%Z).
  { replace (26 - 182 / 10) with (78 / 10) by lra. exact dot_radius_example. }
  rewrite D. cbn [fst snd].
  change (num_dots_of zero_rng true 26 4 0) with (num_dots_of (fun _ => 0) true 26 4 0).
  rewrite num_dots_example. cbn [fst snd].
  rewrite example_angles. cbn [place_dots].
  example_dot 0 X0 Y0.
  example_dot (PI / 3) X1 Y1.
  example_dot (2 * (PI / 3)) X2 Y2.
  example_dot PI X3 Y3.
  example_dot (PI / 3 + PI) X4 Y4.
  example_dot (2 * (PI / 3) + PI) X5 Y5.
  reflexivity.
Qed.

Lemma example_photon_sieve :
  photon_sieve zero_rng true 1 53 [182 / 10; 26] 2 = Ok example_mask.
Proof.
  unfold photon_sieve.
  change (53 <? 0)%Z with false. cbv iota.
  change (53 / 2)%Z with 26%Z. cbv zeta.
  rewrite clear_center_zeros.
  change (zrange2 1 2) with [1%Z]. cbn [sieve_rings].
  rewrite example_sieve_ring. reflexivity.
Qed.

Lemma example_generate :
  generate_photon_sieve zero_rng 1 2 24 2 true = Ok example_mask.
Proof.
  unfold generate_photon_sieve.
  rewrite has_nan_valid by lra.
  rewrite ring_radii_example, canvas_example.
  unfold bind. cbn [fst snd]. exact example_photon_sieve.
Qed.

(** C10 as stated fails: in this run of the random photon sieve the pixel
    at row 26, column 44 is opaque although its distance from the canvas
    centre (26, 26) is 18, inside the innermost disk of radius 18.2.  It
    belongs to the first dot of the dark ring, centred at column 48 with
    radius 4. *)
Lemma inner_disk_counterexample :
  (forall i : nat, 0 <= zero_rng i < 1)
  /\ canvas (ring_radii 2 24 2) = Ok (53%Z, [182 / 10; 26])
  /\ generate_photon_sieve zero_rng 1 2 24 2 true = Ok example_mask
  /\ distance (53 / 2) 26 44 <= radius_at [182 / 10; 26] 0
  /\ pixel example_mask 26 44 = 1%Z.
Proof.
  split; [intros i; unfold zero_rng; lra|].
  split; [rewrite ring_radii_example; exact canvas_example|].
  split; [exact example_generate|].
  split; [|vm_compute; reflexivity].
  change (distance (53 / 2) 26 44) with (sqrt 324).
  change (radius_at [182 / 10; 26] 0) with (182 / 10).
  replace 324 with (Rsqr 18) by (unfold Rsqr; lra).
  rewrite sqrt_Rsqr by lra. lra.
Qed.

(** C8 on the run above.  The first dot is centred at row 26, column 48 with
    radius 4.  The pixels at row 30 and at column 52, at distance exactly 4
    from the centre and inside the 53 pixel canvas, are not set by the stamp,
    while their mirror images at row 22 and column 44 are; the pixel at row
    30, column 48 is still 0 in the returned mask. *)
Theorem stamp_disk_misses_rim :
  pixel (stamp_disk (zeros 53) 53 26 48 4) 30 48 = 0%Z
  /\ pixel (stamp_disk (zeros 53) 53 26 48 4) 26 52 = 0%Z
  /\ pixel (stamp_disk (zeros 53) 53 26 48 4) 22 48 = 1%Z
  /\ pixel (stamp_disk (zeros 53) 53 26 48 4) 26 44 = 1%Z
  /\ ((30 - 26) ^ 2 + (48 - 48) ^ 2 <= 4 ^ 2)%Z
  /\ ((26 - 26) ^ 2 + (52 - 48) ^ 2 <= 4 ^ 2)%Z
  /\ generate_photon_sieve zero_rng 1 2 24 2 true = Ok example_mask
  /\ pixel example_mask 30 48 = 0%Z.
Proof.
  split; [vm_compute; reflexivity|].
  split; [vm_compute; reflexivity|].
  split; [vm_compute; reflexivity|].
  split; [vm_compute; reflexivity|].
  split; [vm_compute; congruence|].
  split; [vm_compute; congruence|].
  split; [exact example_generate | vm_compute; reflexivity].
Qed.

(** ** Shape of the photon sieve mask *)

Section SieveShape.

Variable rng : nat -> R.

Lemma square_stamp_at_angle n img image_size center radius_inner ring_thickness
    dot_radius angle :
  square n img ->
  square n (stamp_at_angle img image_size center radius_inner ring_thickness
                           dot_radius angle).
Proof.
  intros H. unfold stamp_at_angle.
  destruct (in_canvas _ _ _); [now apply square_stamp_disk | assumption].
Qed.

Lemma square_place_dot n random_spacing fuel image_size center radius_inner
    ring_thickness num_dots dot_radius st angle st' :
  square n (fst st) ->
  place_dot rng random_spacing fuel image_size center radius_inner ring_thickness
            num_dots dot_radius st angle = Ok st' ->
  square n (fst st').
Proof.
  destruct st as [img i]. simpl. intros Hsq. unfold place_dot.
  destruct random_spacing.
  - destruct (retry _ _ _ _ _ _ _ _ _ _) as [r | |]; simpl; try discriminate.
    intros [= <-]. simpl. now apply square_stamp_at_angle, square_stamp_disk.
  - intros [= <-]. simpl. now apply square_stamp_at_angle.
Qed.

Lemma square_place_dots n random_spacing fuel image_size center radius_inner
    ring_thickness num_dots dot_radius angles st st' :
  square n (fst st) ->
  place_dots rng random_spacing fuel image_size center radius_inner ring_thickness
             num_dots dot_radius angles st = Ok st' ->
  square n (fst st').
Proof.
  revert st; induction angles as [|a rest IH]; intros st Hsq; simpl.
  - now intros [= <-].
  - destruct (place_dot _ _ _ _ _ _ _ _ _ _ _) as [st1 | |] eqn:Hp; simpl;
      try discriminate.
    apply IH. eapply square_place_dot; eauto.
Qed.

Lemma square_sieve_rings n random_spacing fuel image_size center radii ks st st' :
  square n (fst st) ->
  sieve_rings rng random_spacing fuel image_size center radii ks st = Ok st' ->
  square n (fst st').
Proof.
  revert st; induction ks as [|k rest IH]; intros st Hsq; simpl.
  - now intros [= <-].
  - destruct (sieve_ring _ _ _ _ _ _ _ _) as [st1 | |] eqn:Hs; simpl;
      try discriminate.
    apply IH. unfold sieve_ring in Hs.
    eapply square_place_dots; [|exact Hs]. exact Hsq.
Qed.

End SieveShape.

(** ** Truncation and distances *)

Lemma int_of_bounds (r : R) :
  (0 <= r /\ 0 <= IZR (int_of r) <= r /\ r < IZR (int_of r) + 1)
  \/ (r < 0 /\ r <= IZR (int_of r) <= 0 /\ IZR (int_of r) - 1 < r).
Proof.
  unfold int_of. destruct (Rle_dec 0 r) as [H | H].
  - left. pose proof (Zfloor_bound r) as [H1 H2].
    split; [assumption|]. split; [|lra]. split; [|assumption].
    apply IZR_le. apply Zfloor_lub. simpl. lra.
  - right. pose proof (Zfloor_bound (- r)) as [H1 H2].
    rewrite opp_IZR.
    assert (0 <= IZR (Zfloor (- r))).
    { apply IZR_le. apply Zfloor_lub. simpl. lra. }
    lra.
Qed.

Lemma chord_sq (p q : R) :
  (cos p - cos q) ^ 2 + (sin p - sin q) ^ 2 = 4 * sin ((p - q) / 2) ^ 2.
Proof.
  rewrite form2, form4.
  pose proof (sin2_cos2 ((p + q) / 2)) as H. unfold Rsqr in H.
  nra.
Qed.

Lemma sin_cubic_lower (x : R) : 0 <= x -> x <= 1 -> x - x ^ 3 / 6 <= sin x.
Proof.
  intros H0 H1. pose proof PI_bounds as [P1 P2].
  pose proof (SIN x H0 ltac:(lra)) as [Hs _].
  unfold sin_lb, sin_approx, sum_f_R0, sin_term in Hs.
  assert (F1 : INR (fact (2 * 0 + 1)) = 1) by (rewrite INR_IZR_INZ; reflexivity).
  assert (F3 : INR (fact (2 * 1 + 1)) = 6) by (rewrite INR_IZR_INZ; reflexivity).
  assert (F5 : INR (fact (2 * 2 + 1)) = 120) by (rewrite INR_IZR_INZ; reflexivity).
  assert (F7 : INR (fact (2 * 3 + 1)) = 5040) by (rewrite INR_IZR_INZ; reflexivity).
  rewrite F1, F3, F5, F7 in Hs. simpl in Hs.
  assert (Hx2 : 0 <= x * x <= 1) by nra.
  assert (Hx5 : 0 <= x * (x * (x * (x * x)))).
  { repeat apply Rmult_le_pos; assumption. }
  assert (Htail : 0 <= x * (x * (x * (x * x))) * (/ 120 - x * x / 5040)).
  { apply Rmult_le_pos; [assumption | lra]. }
  lra.
Qed.

Lemma sin_lower (x d : R) :
  0 <= x -> x <= 81 / 100 -> x <= d -> d <= PI - x -> 89 / 100 * x <= sin d.
Proof.
  intros H0 H1 H2 H3. pose proof PI_bounds as [P1 P2].
  assert (Hx : 89 / 100 * x <= sin x).
  { pose proof (sin_cubic_lower x H0 ltac:(lra)) as Hs.
    assert (x * x <= 6561 / 10000) by nra.
    assert (x ^ 3 / 6 <= x * (6561 / 60000)) by (simpl; nra).
    lra. }
  destruct (Rle_dec d (PI / 2)) as [Hd | Hd].
  - pose proof (sin_incr_1 x d ltac:(lra) ltac:(lra) ltac:(lra) ltac:(lra) H2). lra.
  - rewrite <- sin_PI_x.
    pose proof (sin_incr_1 x (PI - d) ltac:(lra) ltac:(lra) ltac:(lra) ltac:(lra) ltac:(lra)).
    lra.
Qed.

Lemma int_of_sq_le (r : R) : IZR (int_of r) ^ 2 <= r ^ 2.
Proof. destruct (int_of_bounds r) as [(H0 & H1 & H2) | (H0 & H1 & H2)]; nra. Qed.

Lemma int_of_close (r : R) : -1 < IZR (int_of r) - r < 1.
Proof. destruct (int_of_bounds r) as [(H0 & H1 & H2) | (H0 & H1 & H2)]; lra. Qed.

Lemma int_of_abs_le (r m : R) : - m <= r <= m -> - m <= IZR (int_of r) <= m.
Proof. intros H. destruct (int_of_bounds r) as [(H0 & H1 & H2) | (H0 & H1 & H2)]; lra. Qed.

(** Truncating the two coordinates of a point on the circle of radius [m]
    moves it toward the origin, by less than 3 in squared-radius terms per
    unit of [m]. *)
Lemma truncated_radius (m X Y : R) :
  0 <= m -> X ^ 2 + Y ^ 2 = m ^ 2 ->
  m ^ 2 - 3 * m <= IZR (int_of X) ^ 2 + IZR (int_of Y) ^ 2 <= m ^ 2.
Proof.
  intros Hm HXY.
  pose proof (int_of_sq_le X) as HX. pose proof (int_of_sq_le Y) as HY.
  split; [|lra].
  assert (Haux : forall Z : R, exists u,
             0 <= u /\ u ^ 2 = Z ^ 2 /\ Z ^ 2 - 2 * u <= IZR (int_of Z) ^ 2).
  { intros Z. pose proof (pow2_ge_0 (IZR (int_of Z))) as Hp.
    destruct (int_of_bounds Z) as [(H0 & H1 & H2) | (H0 & H1 & H2)].
    - exists Z. split; [assumption|]. split; [reflexivity|].
      destruct (Rle_dec 1 Z).
      + assert (0 <= (IZR (int_of Z) - (Z - 1)) * (IZR (int_of Z) + (Z - 1)))
          by (apply Rmult_le_pos; lra).
        nra.
      + assert (0 <= Z * (2 - Z)) by (apply Rmult_le_pos; lra). nra.
    - exists (- Z). split; [lra|]. split; [ring|].
      destruct (Rle_dec 1 (- Z)).
      + assert (0 <= (- IZR (int_of Z) - (- Z - 1)) * (- IZR (int_of Z) + (- Z - 1)))
          by (apply Rmult_le_pos; lra).
        nra.
      + assert (0 <= (- Z) * (2 + Z)) by (apply Rmult_le_pos; lra). nra. }
  destruct (Haux X) as (u & Hu0 & Hu2 & HuX).
  destruct (Haux Y) as (v & Hv0 & Hv2 & HvY).
  assert (Huv : 2 * (u + v) <= 3 * m).
  { pose proof (pow2_ge_0 (u - v)) as Huv.
    assert (Hs : (u + v) ^ 2 <= 2 * m ^ 2) by nra.
    destruct (Rle_dec (2 * (u + v)) (3 * m)) as [|Hn]; [assumption|].
    exfalso.
    assert (0 <= (2 * (u + v) - 3 * m) * (2 * (u + v) + 3 * m))
      by (apply Rmult_le_pos; lra).
    assert (0 <= m ^ 2) by apply pow2_ge_0.
    assert (0 < (u + v)) by lra.
    nra. }
  lra.
Qed.

Lemma circle_point (m t : R) : (m * cos t) ^ 2 + (m * sin t) ^ 2 = m ^ 2.
Proof. pose proof (sin2_cos2 t) as H. unfold Rsqr in H. nra. Qed.

(** Two points of the circle of radius [m] whose half angular distance [d]
    has [sin d >= q] are at least [2 * m * q] apart; if that is at least
    [sqrt 2 * (r + 2)], their truncations differ by more than [r] in one
    coordinate. *)
Lemma truncated_separation (m p q s r : R) :
  0 <= m -> 0 <= s -> 0 <= r -> s <= sin ((p - q) / 2) ->
  2 * (r + 2) ^ 2 <= (2 * m * s) ^ 2 ->
  let dx := IZR (int_of (m * cos p)) - IZR (int_of (m * cos q)) in
  let dy := IZR (int_of (m * sin p)) - IZR (int_of (m * sin q)) in
  r < dx \/ dx < - r \/ r < dy \/ dy < - r.
Proof.
  intros Hm Hs Hr Hsin Hbig dx dy.
  pose proof (chord_sq p q) as Hc.
  assert (Hch : (2 * m * s) ^ 2
                <= (m * cos p - m * cos q) ^ 2 + (m * sin p - m * sin q) ^ 2).
  { replace ((m * cos p - m * cos q) ^ 2 + (m * sin p - m * sin q) ^ 2)
      with (m ^ 2 * ((cos p - cos q) ^ 2 + (sin p - sin q) ^ 2)) by ring.
    rewrite Hc.
    assert (s ^ 2 <= sin ((p - q) / 2) ^ 2) by nra.
    assert (0 <= m ^ 2) by nra.
    nra. }
  pose proof (int_of_close (m * cos p)) as C1. pose proof (int_of_close (m * cos q)) as C2.
  pose proof (int_of_close (m * sin p)) as C3. pose proof (int_of_close (m * sin q)) as C4.
  set (DX := m * cos p - m * cos q) in *. set (DY := m * sin p - m * sin q) in *.
  assert (Hcase : (r + 2) ^ 2 <= DX ^ 2 \/ (r + 2) ^ 2 <= DY ^ 2).
  { destruct (Rle_dec ((r + 2) ^ 2) (DX ^ 2)); [now left | right; lra]. }
  unfold dx, dy.
  destruct Hcase as [H | H].
  - assert (r + 2 <= DX \/ DX <= - (r + 2)) by nra.
    unfold DX in *. lra.
  - assert (r + 2 <= DY \/ DY <= - (r + 2)) by nra.
    unfold DY in *. lra.
Qed.

Lemma IZR_sq (z : Z) : IZR (z ^ 2) = IZR z ^ 2.
Proof. replace (z ^ 2)%Z with (z * z)%Z by ring. rewrite mult_IZR. ring. Qed.

Lemma in_stamp_box (image_size y x dot_radius Y X : Z) :
  in_stamp image_size y x dot_radius Y X = true ->
  (y - dot_radius <= Y < y + dot_radius)%Z /\ (x - dot_radius <= X < x + dot_radius)%Z.
Proof.
  unfold in_stamp. rewrite !andb_true_iff, !Z.leb_le, !Z.ltb_lt. lia.
Qed.

(** The triangle inequality for the Euclidean norm, on squares. *)
Lemma norm_triangle_sq (u1 u2 w1 w2 m d : R) :
  0 <= m -> 0 <= d -> u1 ^ 2 + u2 ^ 2 <= m ^ 2 -> w1 ^ 2 + w2 ^ 2 <= d ^ 2 ->
  (u1 + w1) ^ 2 + (u2 + w2) ^ 2 <= (m + d) ^ 2.
Proof.
  intros Hm Hd Hu Hw.
  assert (Hcs : (u1 * w1 + u2 * w2) ^ 2 <= (m * d) ^ 2).
  { pose proof (pow2_ge_0 (u1 * w2 - u2 * w1)) as Hdet.
    assert (H1 : (u1 * w1 + u2 * w2) ^ 2 <= (u1 ^ 2 + u2 ^ 2) * (w1 ^ 2 + w2 ^ 2)) by nra.
    assert (H2 : (u1 ^ 2 + u2 ^ 2) * (w1 ^ 2 + w2 ^ 2) <= m ^ 2 * d ^ 2).
    { apply Rmult_le_compat; try assumption.
      - pose proof (pow2_ge_0 u1); pose proof (pow2_ge_0 u2); lra.
      - pose proof (pow2_ge_0 w1); pose proof (pow2_ge_0 w2); lra. }
    nra. }
  assert (Hdot : u1 * w1 + u2 * w2 <= m * d).
  { destruct (Rle_dec (u1 * w1 + u2 * w2) (m * d)) as [|Hn]; [assumption | exfalso].
    assert (0 <= m * d) by (apply Rmult_le_pos; assumption).
    assert (0 < (u1 * w1 + u2 * w2 - m * d) * (u1 * w1 + u2 * w2 + m * d))
      by (apply Rmult_lt_0_compat; lra).
    nra. }
  nra.
Qed.

Section RingPlacement.

Variable rng : nat -> R.
Hypothesis rng_range : forall i : nat, 0 <= rng i < 1.

Variable fuel : nat.
Variables (image_size center : Z) (a b : R) (i1 : nat) (n : Z).

Hypothesis size_center : (2 * center <= image_size)%Z.
Hypothesis inner_pos : 0 < a.
Hypothesis thick : 15 / 2 < b - a.
Hypothesis thin : b - a <= a.
Hypothesis outer_le : b <= IZR center.
Hypothesis count_pos : (1 <= n)%Z.
Hypothesis count_bound :
  (2 <= n)%Z -> IZR n * (663 / 100 * IZR (dot_radius_of (b - a))) <= 2 * PI * b.

Local Abbreviation theta := (dot_angle rng i1 n).
Local Abbreviation px := (dot_col rng center a b i1 n).
Local Abbreviation py := (dot_row rng center a b i1 n).
Local Abbreviation ring_inv := (dots_inv rng image_size center a b i1 n).

Lemma ring_dot_radius :
  (4 <= dot_radius_of (b - a))%Z
  /\ IZR (dot_radius_of (b - a)) <= (b - a) / 2 + 1 / 4
  /\ (IZR (dot_radius_of (b - a)) <= (b - a) / 2 \/ dot_radius_of (b - a) = 4%Z).
Proof.
  split; [apply dot_radius_min|].
  rewrite dot_radius_of_nonneg by lra.
  pose proof (Zfloor_bound ((b - a) / 2)) as [H1 H2].
  destruct (Z.max_spec (Zfloor ((b - a) / 2)) 4) as [[Hlt ->] | [Hge ->]].
  - split; [simpl; lra | now right].
  - split; [lra | left; lra].
Qed.

Lemma mid_bounds :
  a < a + (b - a) / 2 /\ a + (b - a) / 2 < b /\ 3 / 4 * b <= a + (b - a) / 2.
Proof. lra. Qed.

Lemma offsets_in_mid (t : R) :
  - (a + (b - a) / 2) <= (a + (b - a) / 2) * cos t <= a + (b - a) / 2
  /\ - (a + (b - a) / 2) <= (a + (b - a) / 2) * sin t <= a + (b - a) / 2.
Proof.
  pose proof (COS_bound t) as [C1 C2]. pose proof (SIN_bound t) as [S1 S2].
  pose proof mid_bounds as (M1 & M2 & M3).
  split; split; nra.
Qed.

Lemma dot_in_canvas (t : R) :
  in_canvas image_size (dot_y center a (b - a) t) (dot_x center a (b - a) t) = true
  /\ (dot_radius_of (b - a) <= dot_x center a (b - a) t)%Z
  /\ (dot_radius_of (b - a) <= dot_y center a (b - a) t)%Z.
Proof.
  pose proof mid_bounds as (M1 & M2 & M3).
  destruct (offsets_in_mid t) as [HX HY].
  apply int_of_abs_le in HX, HY.
  unfold dot_x, dot_y.
  set (tx := int_of ((a + (b - a) / 2) * cos t)) in *.
  set (ty := int_of ((a + (b - a) / 2) * sin t)) in *.
  destruct ring_dot_radius as (D1 & D2 & D3).
  assert (Hx1 : (- center < tx < center)%Z).
  { split; [apply lt_IZR; rewrite opp_IZR | apply lt_IZR]; lra. }
  assert (Hy1 : (- center < ty < center)%Z).
  { split; [apply lt_IZR; rewrite opp_IZR | apply lt_IZR]; lra. }
  assert (Hlow : forall tz : Z, - (a + (b - a) / 2) <= IZR tz ->
                  (dot_radius_of (b - a) <= center + tz)%Z).
  { intros tz Htz.
    assert (Hr : (b - a) / 2 <= IZR (center + tz)) by (rewrite plus_IZR; lra).
    destruct D3 as [D3 | D3].
    - apply le_IZR. lra.
    - rewrite D3. assert (3 < center + tz)%Z by (apply lt_IZR; lra). lia. }
  split; [|split; apply Hlow; lra].
  unfold in_canvas. rewrite !andb_true_iff, !Z.leb_le, !Z.ltb_lt. lia.
Qed.

Lemma dot_radius_sq (t : R) :
  a ^ 2 < IZR ((dot_x center a (b - a) t - center) ^ 2
               + (dot_y center a (b - a) t - center) ^ 2)
  <= (a + (b - a) / 2) ^ 2.
Proof.
  pose proof mid_bounds as (M1 & M2 & M3).
  pose proof (truncated_radius (a + (b - a) / 2) _ _ ltac:(lra)
                (circle_point (a + (b - a) / 2) t)) as [H1 H2].
  unfold dot_x, dot_y.
  replace (center + int_of ((a + (b - a) / 2) * cos t) - center)%Z
    with (int_of ((a + (b - a) / 2) * cos t)) by lia.
  replace (center + int_of ((a + (b - a) / 2) * sin t) - center)%Z
    with (int_of ((a + (b - a) / 2) * sin t)) by lia.
  rewrite plus_IZR, !IZR_sq.
  split; [|exact H2].
  eapply Rlt_le_trans; [|exact H1].
  nra.
Qed.

Lemma half_angle_range (j' j : nat) :
  (j' < j)%nat -> (Z.of_nat j < n)%Z ->
  PI / IZR n / 2 <= (theta j - theta j') / 2 <= PI - PI / IZR n / 2.
Proof.
  intros Hlt Hj. unfold dot_angle.
  assert (Hn : 0 < IZR n) by (apply IZR_lt; lia).
  assert (Hs : 0 < PI / IZR n) by (apply Rdiv_lt_0_compat; [apply PI_RGT_0 | assumption]).
  pose proof (uniform_range_strict rng 0 (PI / IZR n) (i1 + j) Hs (rng_range _)) as [O1 O2].
  pose proof (uniform_range_strict rng 0 (PI / IZR n) (i1 + j') Hs (rng_range _)) as [O3 O4].
  set (s := PI / IZR n) in *.
  assert (Hns : IZR n * s = PI) by (unfold s; field; lra).
  replace (2 * PI / IZR n) with (2 * s) by (unfold s; field; lra).
  set (D := IZR (0 + Z.of_nat j) - IZR (0 + Z.of_nat j')).
  assert (HD1 : 1 <= D).
  { unfold D. rewrite <- minus_IZR. apply IZR_le. lia. }
  assert (HD2 : D <= IZR n - 1).
  { unfold D. rewrite <- !minus_IZR. apply IZR_le. lia. }
  assert (E : (IZR (0 + Z.of_nat j) * (2 * s) + uniform rng 0 s (i1 + j)
               - (IZR (0 + Z.of_nat j') * (2 * s) + uniform rng 0 s (i1 + j'))) / 2
              = D * s + (uniform rng 0 s (i1 + j) - uniform rng 0 s (i1 + j')) / 2)
    by (unfold D; field).
  rewrite E.
  assert (s <= D * s) by nra.
  assert (D * s <= PI - s) by nra.
  lra.
Qed.

Lemma dots_separated (j' j : nat) :
  (j' < j)%nat -> (Z.of_nat j < n)%Z ->
  (dot_radius_of (b - a) < px j - px j' \/ px j - px j' < - dot_radius_of (b - a)
   \/ dot_radius_of (b - a) < py j - py j' \/ py j - py j' < - dot_radius_of (b - a))%Z.
Proof.
  intros Hlt Hj.
  assert (Hn2 : (2 <= n)%Z) by lia.
  assert (Hn : 2 <= IZR n) by (apply IZR_le in Hn2; exact Hn2).
  pose proof PI_bounds as [P1 P2].
  pose proof mid_bounds as (M1 & M2 & M3).
  destruct ring_dot_radius as (D1 & D2 & D3). apply IZR_le in D1.
  pose proof (count_bound Hn2) as Hc.
  pose proof (half_angle_range j' j Hlt Hj) as [Hd1 Hd2].
  set (s := PI / IZR n) in *.
  assert (Hs : 0 < s) by (apply Rdiv_lt_0_compat; lra).
  assert (Hns : IZR n * s = PI) by (unfold s; field; lra).
  assert (Hs81 : s / 2 <= 81 / 100) by nra.
  pose proof (sin_lower (s / 2) ((theta j - theta j') / 2) ltac:(lra) Hs81 Hd1 Hd2) as Hsin.
  set (dr := IZR (dot_radius_of (b - a))) in *.
  set (m := a + (b - a) / 2) in *.
  assert (Hms : 248625 / 100000 * dr <= m * s).
  { apply Rmult_le_reg_r with (r := IZR n); [lra|].
    replace (m * s * IZR n) with (m * (IZR n * s)) by ring. rewrite Hns.
    assert (0 < b) by lra.
    nra. }
  assert (Hbig : 2 * (dr + 2) ^ 2 <= (2 * m * (89 / 100 * (s / 2))) ^ 2).
  { assert (H1 : 22127625 / 10000000 * dr <= 2 * m * (89 / 100 * (s / 2))) by lra.
    assert (H2 : 2 * (dr + 2) ^ 2 <= (22127625 / 10000000 * dr) ^ 2) by nra.
    assert (H3 : 0 <= 22127625 / 10000000 * dr) by lra.
    nra. }
  pose proof (truncated_separation m (theta j) (theta j') (89 / 100 * (s / 2)) dr
                ltac:(lra) ltac:(lra) ltac:(lra) Hsin Hbig) as Hsep.
  cbv zeta in Hsep.
  unfold dot_col, dot_row, dot_x, dot_y. fold m.
  rewrite <- !minus_IZR in Hsep.
  destruct Hsep as [H | [H | [H | H]]].
  - left. apply lt_IZR. rewrite minus_IZR, !plus_IZR. rewrite minus_IZR in H. fold dr. lra.
  - right; left. apply lt_IZR. rewrite opp_IZR, minus_IZR, !plus_IZR.
    rewrite minus_IZR in H. fold dr. lra.
  - right; right; left. apply lt_IZR. rewrite minus_IZR, !plus_IZR.
    rewrite minus_IZR in H. fold dr. lra.
  - right; right; right. apply lt_IZR. rewrite opp_IZR, minus_IZR, !plus_IZR.
    rewrite minus_IZR in H. fold dr. lra.
Qed.

Lemma ring_dot_open (j : nat) (img : image) :
  ring_inv j img -> (Z.of_nat j < n)%Z -> pixel img (py j) (px j) = 0%Z.
Proof.
  intros Hinv Hj.
  destruct (Z.eq_dec (pixel img (py j) (px j)) 0) as [E | E]; [assumption | exfalso].
  destruct (dot_in_canvas (theta j)) as (Hin & _).
  fold (px j) (py j) in Hin.
  unfold in_canvas in Hin. rewrite !andb_true_iff, !Z.leb_le, !Z.ltb_lt in Hin.
  destruct (Hinv (py j) (px j) ltac:(lia) ltac:(lia) E) as [Hr | (j' & Hj' & Hst)].
  - pose proof (dot_radius_sq (theta j)) as [H1 _]. fold (px j) (py j) in H1. lra.
  - apply in_stamp_box in Hst.
    pose proof (dots_separated j' j Hj' Hj). lia.
Qed.

Lemma ring_inv_stamp (j : nat) (img : image) :
  square image_size img -> ring_inv j img ->
  ring_inv (S j)
    (stamp_disk (stamp_disk img image_size (py j) (px j) (dot_radius_of (b - a)))
                image_size (py j) (px j) (dot_radius_of (b - a))).
Proof.
  intros Hsq Hinv y x Hy Hx Hpx.
  rewrite !pixel_stamp_disk in Hpx by (try apply square_stamp_disk; assumption).
  destruct (in_stamp image_size (py j) (px j) (dot_radius_of (b - a)) y x) eqn:E.
  - right. exists j. split; [lia | assumption].
  - destruct (Hinv y x Hy Hx Hpx) as [H | (j' & Hj' & Hst)]; [now left|].
    right. exists j'. split; [lia | assumption].
Qed.

Lemma place_dots_first_try (len : nat) :
  forall (j : nat) (img : image),
    (Z.of_nat (j + len) <= n)%Z -> square image_size img -> ring_inv j img ->
    exists img' : image,
      place_dots rng true (S fuel) image_size center a (b - a) n (dot_radius_of (b - a))
        (map (fun z => IZR z * (2 * PI / IZR n))
             (map (fun i => (0 + Z.of_nat i)%Z) (seq j len)))
        (img, (i1 + j)%nat)
      = Ok (img', (i1 + j + len)%nat)
      /\ square image_size img' /\ ring_inv (j + len) img'.
Proof.
  induction len as [|len IH]; intros j img Hj Hsq Hinv.
  - exists img. simpl. rewrite !Nat.add_0_r. auto.
  - cbn [seq map place_dots].
    destruct (dot_in_canvas (theta j)) as (Hin & _).
    rewrite (place_dot_first_try rng fuel image_size center a (b - a) n
               (dot_radius_of (b - a)) img (i1 + j) _ (px j) (py j)
               eq_refl eq_refl Hin (ring_dot_open j img Hinv ltac:(lia))).
    cbn [bind].
    destruct (IH (S j) _ ltac:(lia)
                (square_stamp_disk _ _ _ _ _ _
                   (square_stamp_disk _ _ _ _ _ _ Hsq))
                (ring_inv_stamp j img Hsq Hinv)) as (img' & Hrun & Hsq' & Hinv').
    exists img'. replace (S (i1 + j)) with (i1 + S j)%nat by lia.
    rewrite Hrun. replace (i1 + S j + len)%nat with (i1 + j + S len)%nat by lia.
    replace (j + S len)%nat with (S j + len)%nat by lia. auto.
Qed.

(** The stamp of a dot of the ring stays between [a - 2] and [b + 1/4]
    from the centre. *)
Lemma stamp_bounds (t : R) (y x : Z) :
  (0 <= y < image_size)%Z -> (0 <= x < image_size)%Z ->
  in_stamp image_size (dot_y center a (b - a) t) (dot_x center a (b - a) t)
           (dot_radius_of (b - a)) y x = true ->
  (a - 2) ^ 2 < IZR ((x - center) ^ 2 + (y - center) ^ 2) <= (b + 1 / 4) ^ 2.
Proof.
  intros Hy Hx Hst.
  destruct (dot_in_canvas t) as (_ & Dx & Dy).
  apply in_stamp_unclipped in Hst; try assumption.
  destruct Hst as (_ & _ & Hdisk).
  pose proof (dot_radius_sq t) as [Hr0 Hr].
  set (qx := dot_x center a (b - a) t) in *. set (qy := dot_y center a (b - a) t) in *.
  destruct ring_dot_radius as (D1 & D2 & _). apply IZR_le in D1.
  apply IZR_le in Hdisk. rewrite plus_IZR, !IZR_sq, !minus_IZR in Hdisk.
  rewrite plus_IZR, !IZR_sq, !minus_IZR in Hr.
  pose proof (truncated_radius (a + (b - a) / 2) _ _ ltac:(lra)
                (circle_point (a + (b - a) / 2) t)) as [Hlow _].
  assert (Hq : (a + (b - a) / 2) ^ 2 - 3 * (a + (b - a) / 2)
               <= (IZR qx - IZR center) ^ 2 + (IZR qy - IZR center) ^ 2).
  { unfold qx, qy, dot_x, dot_y. rewrite !plus_IZR.
    replace (IZR center + IZR (int_of ((a + (b - a) / 2) * cos t)) - IZR center)
      with (IZR (int_of ((a + (b - a) / 2) * cos t))) by ring.
    replace (IZR center + IZR (int_of ((a + (b - a) / 2) * sin t)) - IZR center)
      with (IZR (int_of ((a + (b - a) / 2) * sin t))) by ring.
    exact Hlow. }
  rewrite plus_IZR, !IZR_sq, !minus_IZR.
  pose proof mid_bounds as (M1 & M2 & M3).
  split.
  - destruct (Rlt_dec ((a - 2) ^ 2) ((IZR x - IZR center) ^ 2 + (IZR y - IZR center) ^ 2))
      as [|Hn]; [assumption | exfalso].
    pose proof (norm_triangle_sq (IZR x - IZR center) (IZR y - IZR center)
                  (IZR qx - IZR x) (IZR qy - IZR y)
                  (a - 2) (IZR (dot_radius_of (b - a)))
                  ltac:(lra) ltac:(lra) ltac:(lra) ltac:(nra)) as Htri.
    replace (IZR x - IZR center + (IZR qx - IZR x)) with (IZR qx - IZR center)
      in Htri by ring.
    replace (IZR y - IZR center + (IZR qy - IZR y)) with (IZR qy - IZR center)
      in Htri by ring.
    assert (Hle : (a - 2 + IZR (dot_radius_of (b - a))) ^ 2
                  <= (a + (b - a) / 2 - 7 / 4) ^ 2) by (apply pow_incr; lra).
    nra.
  - pose proof (norm_triangle_sq (IZR qx - IZR center) (IZR qy - IZR center)
                  (IZR x - IZR qx) (IZR y - IZR qy)
                  (a + (b - a) / 2) (IZR (dot_radius_of (b - a)))
                  ltac:(lra) ltac:(lra) Hr ltac:(lra)) as Htri.
    replace (IZR qx - IZR center + (IZR x - IZR qx)) with (IZR x - IZR center)
      in Htri by ring.
    replace (IZR qy - IZR center + (IZR y - IZR qy)) with (IZR y - IZR center)
      in Htri by ring.
    eapply Rle_trans; [exact Htri|].
    apply pow_incr. lra.
Qed.

End RingPlacement.

(** ** Canvases on which the dots of a ring never meet *)

Lemma nth_diff (l : list R) (k : nat) :
  (S k < length l)%nat -> nth k (diff l) 0 = nth (S k) l 0 - nth k l 0.
Proof.
  revert k; induction l as [|x [|y t] IH]; intros k Hk; simpl in Hk; try lia.
  destruct k as [|k]; [reflexivity|].
  change (diff (x :: y :: t)) with ((y - x) :: diff (y :: t)).
  cbn [nth]. apply IH. simpl. lia.
Qed.

Lemma increasing_nth_le_last (l : list R) (k : nat) :
  increasing l -> (k < length l)%nat -> nth k l 0 <= last l 0.
Proof.
  revert k; induction l as [|x [|y t] IH]; intros k Hinc Hk; simpl in Hk; try lia.
  - destruct k; [simpl; lra | lia].
  - destruct Hinc as [Hxy Ht]. destruct k as [|k].
    + pose proof (IH 0%nat Ht ltac:(simpl; lia)) as H. simpl in H. simpl. lra.
    + apply (IH k Ht). simpl. lia.
Qed.

Lemma increasing_nth_pos (l : list R) (k : nat) :
  increasing l -> 0 < hd 0 l -> (k < length l)%nat -> 0 < nth k l 0.
Proof.
  revert k; induction l as [|x [|y t] IH]; intros k Hinc Hhd Hk; simpl in Hk; try lia.
  - destruct k; [exact Hhd | lia].
  - destruct Hinc as [Hxy Ht]. destruct k as [|k]; [exact Hhd|].
    apply (IH k Ht); simpl in *; [lra | lia].
Qed.

(** Consecutive radii differ by at most a factor 2. *)
Lemma ring_radii_ratio (wavelength focal_length : R) (num_rings k : Z) :
  0 < wavelength -> 0 < focal_length -> (1 <= k < num_rings)%Z ->
  radius_at (ring_radii wavelength focal_length num_rings) k
  <= 2 * radius_at (ring_radii wavelength focal_length num_rings) (k - 1).
Proof.
  intros Hw Hf Hk. rewrite !radius_at_ring_radii by lia.
  replace (k - 1 + 1)%Z with k by lia.
  replace 2 with (sqrt (Rsqr 2)) at 1 by (apply sqrt_Rsqr; lra).
  rewrite <- sqrt_mult_alt by (unfold Rsqr; lra).
  apply sqrt_le_1_alt. unfold radicand, Rsqr. rewrite plus_IZR.
  assert (Hk1 : 1 <= IZR k) by (apply IZR_le; lia).
  assert (0 < wavelength * focal_length) by nra.
  assert (0 < wavelength ^ 2) by nra.
  assert ((IZR k + 1) ^ 2 <= 4 * IZR k ^ 2) by nra.
  nra.
Qed.

Lemma physical_good_canvas (wavelength focal_length : R) (num_rings : Z) :
  0 < wavelength -> 0 < focal_length -> (2 <= num_rings)%Z ->
  exists (image_size : Z) (scaled : list R),
    canvas (ring_radii wavelength focal_length num_rings) = Ok (image_size, scaled)
    /\ good_canvas image_size scaled num_rings.
Proof.
  intros Hw Hf HN.
  pose proof (ring_radii_valid wavelength focal_length num_rings Hw Hf HN) as Hv.
  set (radii := ring_radii wavelength focal_length num_rings) in *.
  assert (Hlen : length radii = Z.to_nat num_rings) by apply length_ring_radii.
  destruct (canvas_valid_size radii Hv) as (size & scaled & Hc & Hscaled & Hsize).
  destruct (valid_radii_min_gap radii Hv) as (g & Hg & Hgpos & HgL).
  pose proof (canvas_valid radii g Hg Hgpos ltac:(lra)) as Hc'.
  rewrite Hc in Hc'. injection Hc' as Hsz _.
  destruct (scaled_gap_bounds g (last radii 0) Hgpos HgL) as (Hhalf & _ & _ & Hlow & _).
  rewrite <- Hsz in Hhalf. rewrite <- Hhalf in Hlow.
  destruct (list_min_spec _ _ Hg) as [_ Hmin].
  destruct Hv as (_ & Hhd & Hinc).
  set (L := last radii 0) in *.
  set (c := IZR (size / 2) / L) in *.
  assert (Hh : 8 <= IZR (size / 2)).
  { apply IZR_le. apply Z.div_le_lower_bound; lia. }
  assert (Hcpos : 0 < c) by (apply Rdiv_lt_0_compat; lra).
  assert (Hgap : forall k : Z, (1 <= k < num_rings)%Z ->
             g <= radius_at radii k - radius_at radii (k - 1)).
  { intros k Hk. apply Hmin. unfold radius_at.
    replace (Z.to_nat k) with (S (Z.to_nat (k - 1))) by lia.
    rewrite <- nth_diff by lia.
    apply nth_In. rewrite length_diff. lia. }
  assert (HgL2 : 2 * g <= L).
  { pose proof (Hgap 1%Z ltac:(lia)) as H1.
    pose proof (ring_radii_ratio wavelength focal_length num_rings 1 Hw Hf ltac:(lia)) as H2.
    fold radii in H2.
    pose proof (increasing_nth_le_last radii 1 Hinc ltac:(lia)) as H3.
    fold L in H3. change (nth 1 radii 0) with (radius_at radii 1) in H3. lra. }
  assert (Hgc : 15 / 2 < g * c).
  { fold L c in Hlow.
    assert (g / L <= 1 / 2).
    { apply Rmult_le_reg_r with (r := L); [lra|].
      replace (g / L * L) with g by (field; lra). lra. }
    lra. }
  assert (Hscale : forall k : Z, (0 <= k < num_rings)%Z ->
             radius_at scaled k = radius_at radii k * c).
  { intros k Hk. unfold radius_at. rewrite Hscaled.
    rewrite nth_scale_radii by lia. reflexivity. }
  exists size, scaled. split; [assumption|]. split; [lia|]. split; [assumption|].
  intros k Hk. rewrite !Hscale by lia.
  pose proof (Hgap k Hk) as Hgk.
  pose proof (ring_radii_ratio wavelength focal_length num_rings k Hw Hf Hk) as Hr.
  fold radii in Hr.
  assert (Hpos : 0 < radius_at radii (k - 1)).
  { unfold radius_at. apply increasing_nth_pos; auto. lia. }
  assert (HleL : radius_at radii k <= L).
  { unfold radius_at, L. apply increasing_nth_le_last; auto. lia. }
  split; [apply Rmult_lt_0_compat; assumption|].
  split; [nra|]. split; [nra|].
  unfold c. replace (radius_at radii k * (IZR (size / 2) / L))
    with (radius_at radii k / L * IZR (size / 2)) by (field; lra).
  assert (radius_at radii k / L <= 1).
  { apply Rmult_le_reg_r with (r := L); [lra|].
    replace (radius_at radii k / L * L) with (radius_at radii k) by (field; lra). lra. }
  nra.
Qed.

(** ** The random photon sieve never retries on a good canvas *)

Lemma num_dots_random_bound (rng : nat -> R) (radius_outer : R) (dot_radius : Z) (i : nat) :
  0 <= rng i < 1 -> (4 <= dot_radius)%Z -> 0 <= radius_outer ->
  snd (num_dots_of rng true radius_outer dot_radius i) = S i
  /\ (1 <= fst (num_dots_of rng true radius_outer dot_radius i))%Z
  /\ ((2 <= fst (num_dots_of rng true radius_outer dot_radius i))%Z ->
      IZR (fst (num_dots_of rng true radius_outer dot_radius i))
      * (663 / 100 * IZR dot_radius) <= 2 * PI * radius_outer).
Proof.
  intros Hr Hd Hb. unfold num_dots_of. cbn [fst snd].
  split; [reflexivity|]. split; [lia|].
  apply IZR_le in Hd. pose proof PI_RGT_0 as Hpi.
  pose proof (uniform_range_strict rng (13 / 10) (15 / 10) i ltac:(lra) Hr) as [U1 U2].
  set (u := uniform rng (13 / 10) (15 / 10) i) in *.
  set (D := (IZR dot_radius * (11 / 10) + IZR dot_radius * 4) * u).
  assert (HD : 663 / 100 * IZR dot_radius <= D) by (unfold D; nra).
  assert (HDpos : 0 < D) by lra.
  assert (Hq : 0 <= 2 * PI * radius_outer / D).
  { apply Rmult_le_pos; [nra | left; now apply Rinv_0_lt_compat]. }
  rewrite int_of_nonneg by assumption.
  intros Hn. rewrite Z.max_r in * by lia.
  pose proof (Zfloor_bound (2 * PI * radius_outer / D)) as [F1 _].
  set (nz := IZR (Zfloor (2 * PI * radius_outer / D))) in *.
  assert (Hnz : 0 <= nz) by (unfold nz; apply IZR_le; lia).
  assert (nz * D <= 2 * PI * radius_outer).
  { apply Rmult_le_reg_r with (r := / D); [now apply Rinv_0_lt_compat|].
    replace (nz * D * / D) with nz by (field; lra). exact F1. }
  nra.
Qed.

Lemma sieve_ring_first_try (rng : nat -> R) (image_size : Z) (radii : list R)
    (num_rings k : Z) (img : image) (i0 fuel : nat) :
  (forall i : nat, 0 <= rng i < 1) ->
  good_canvas image_size radii num_rings -> (1 <= k < num_rings)%Z ->
  square image_size img ->
  opaque_within image_size img (radius_at radii (k - 1)) ->
  exists (img' : image) (i' : nat),
    sieve_ring rng true (S fuel) image_size (image_size / 2) radii (img, i0) k
    = Ok (img', i')
    /\ square image_size img'
    /\ opaque_within image_size img' (radius_at radii k + 1 / 4).
Proof.
  intros Hrng (Hsize & _ & Hgood) Hk Hsq Hop.
  destruct (Hgood k Hk) as (Ha & HT & HTa & Hb).
  unfold sieve_ring. cbn [fst snd].
  set (a := radius_at radii (k - 1)) in *. set (b := radius_at radii k) in *.
  destruct (num_dots_random_bound rng b (dot_radius_of (b - a)) i0
              (Hrng i0) (dot_radius_min _) ltac:(lra)) as (Hi & Hn1 & Hcount).
  rewrite Hi.
  set (n := fst (num_dots_of rng true b (dot_radius_of (b - a)) i0)) in *.
  assert (Hcenter : (2 * (image_size / 2) <= image_size)%Z)
    by (apply Z.mul_div_le; lia).
  assert (Hinv0 : dots_inv rng image_size (image_size / 2) a b (S i0) n 0 img).
  { intros y x Hy Hx Hpx. left. now apply Hop. }
  assert (Hlen : (Z.of_nat (0 + Z.to_nat (n - 0)) <= n)%Z) by lia.
  destruct (place_dots_first_try rng Hrng fuel image_size (image_size / 2) a b (S i0) n
              Hcenter Ha HT HTa Hb Hn1 Hcount (Z.to_nat (n - 0)) 0%nat img
              Hlen Hsq Hinv0) as (img' & Hrun & Hsq' & Hinv').
  exists img', (S i0 + Z.to_nat (n - 0))%nat.
  split; [|split; [assumption|]].
  - unfold linspace_angles, zrange. rewrite Nat.add_0_r in Hrun. exact Hrun.
  - intros y x Hy Hx Hpx.
    destruct (Hinv' y x Hy Hx Hpx) as [Hin | (j & _ & Hst)].
    + eapply Rle_trans; [exact Hin|]. apply pow_incr. lra.
    + eapply (stamp_bounds image_size (image_size / 2) a b); eauto.
Qed.

Lemma sieve_rings_first_try (rng : nat -> R) (image_size : Z) (radii : list R)
    (num_rings : Z) (fuel : nat) :
  (forall i : nat, 0 <= rng i < 1) ->
  good_canvas image_size radii num_rings ->
  forall (cnt t : nat) (img : image) (i0 : nat),
    (2 * Z.of_nat (t + cnt) <= num_rings)%Z ->
    square image_size img ->
    ((0 < cnt)%nat ->
     opaque_within image_size img (radius_at radii (1 + 2 * Z.of_nat t - 1))) ->
    exists st' : image * nat,
      sieve_rings rng true (S fuel) image_size (image_size / 2) radii
        (map (fun i => (1 + 2 * Z.of_nat i)%Z) (seq t cnt)) (img, i0) = Ok st'
      /\ square image_size (fst st').
Proof.
  intros Hrng Hgood. induction cnt as [|cnt IH]; intros t img i0 Hn Hsq Hop.
  - exists (img, i0). simpl. auto.
  - cbn [seq map sieve_rings].
    set (k := (1 + 2 * Z.of_nat t)%Z) in *.
    assert (Hk : (1 <= k < num_rings)%Z) by (unfold k; lia).
    destruct (sieve_ring_first_try rng image_size radii num_rings k img i0 fuel
                Hrng Hgood Hk Hsq (Hop ltac:(lia))) as (img' & i' & Hrun & Hsq' & Hop').
    rewrite Hrun. cbn [bind].
    apply IH; [lia | assumption |].
    intros Hcnt.
    replace (1 + 2 * Z.of_nat (S t) - 1)%Z with (k + 1)%Z by (unfold k; lia).
    destruct Hgood as (_ & _ & Hgood).
    destruct (Hgood k Hk) as (Ha & HT & _ & _).
    destruct (Hgood (k + 1)%Z ltac:(unfold k; lia)) as (_ & HT' & _ & _).
    replace (k + 1 - 1)%Z with k in HT' by lia.
    intros y x Hy Hx Hpx.
    eapply Rle_trans; [apply (Hop' y x Hy Hx Hpx)|].
    apply pow_incr. lra.
Qed.

(** Without random spacing no dot can fail. *)
Lemma place_dots_regular (rng : nat -> R) (fuel : nat) (image_size center : Z)
    (radius_inner ring_thickness : R) (num_dots dot_radius : Z) (angles : list R) :
  forall st : image * nat,
    square image_size (fst st) ->
    exists st' : image * nat,
      place_dots rng false fuel image_size center radius_inner ring_thickness
                 num_dots dot_radius angles st = Ok st'
      /\ square image_size (fst st').
Proof.
  induction angles as [|angle rest IH]; intros [img i] Hsq.
  - exists (img, i). simpl. auto.
  - cbn [place_dots place_dot bind]. apply IH. cbn [fst].
    now apply square_stamp_at_angle.
Qed.

Lemma sieve_rings_regular (rng : nat -> R) (fuel : nat) (image_size center : Z)
    (radii : list R) (ks : list Z) :
  forall st : image * nat,
    square image_size (fst st) ->
    exists st' : image * nat,
      sieve_rings rng false fuel image_size center radii ks st = Ok st'
      /\ square image_size (fst st').
Proof.
  induction ks as [|k rest IH]; intros st Hsq.
  - exists st. simpl. auto.
  - cbn [sieve_rings]. unfold sieve_ring.
    destruct (place_dots_regular rng fuel image_size center
                (radius_at radii (k - 1))
                (radius_at radii k - radius_at radii (k - 1))
                (fst (num_dots_of rng false (radius_at radii k)
                        (dot_radius_of (radius_at radii k - radius_at radii (k - 1)))
                        (snd st)))
                (dot_radius_of (radius_at radii k - radius_at radii (k - 1)))
                (linspace_angles
                   (fst (num_dots_of rng false (radius_at radii k)
                           (dot_radius_of (radius_at radii k - radius_at radii (k - 1)))
                           (snd st))))
                (fst st,
                 snd (num_dots_of rng false (radius_at radii k)
                        (dot_radius_of (radius_at radii k - radius_at radii (k - 1)))
                        (snd st)))
                Hsq) as (st1 & Hrun & Hsq1).
    rewrite Hrun. cbn [bind]. now apply IH.
Qed.

Lemma photon_sieve_returns (rng : nat -> R) (random_spacing : bool) (fuel : nat)
    (image_size : Z) (radii : list R) (num_rings : Z) :
  (forall i : nat, 0 <= rng i < 1) ->
  good_canvas image_size radii num_rings ->
  (random_spacing = true -> (1 <= fuel)%nat) ->
  exists st : image * nat,
    sieve_rings rng random_spacing fuel image_size (image_size / 2) radii
                (zrange2 1 num_rings) (zeros image_size, 0%nat) = Ok st
    /\ square image_size (fst st)
    /\ photon_sieve rng random_spacing fuel image_size radii num_rings
       = set_border image_size (fst st).
Proof.
  intros Hrng Hgood Hfuel. pose proof Hgood as (Hsize & HN & _).
  assert (Hrun : exists st' : image * nat,
            sieve_rings rng random_spacing fuel image_size (image_size / 2) radii
                        (zrange2 1 num_rings) (zeros image_size, 0%nat) = Ok st'
            /\ square image_size (fst st')).
  { destruct random_spacing.
    - destruct fuel as [|fuel]; [specialize (Hfuel eq_refl); lia|].
      unfold zrange2.
      apply sieve_rings_first_try with (num_rings := num_rings);
        auto using square_zeros.
      + pose proof (Z.mul_div_le (num_rings - 1 + 1) 2 ltac:(lia)).
        assert (0 <= (num_rings - 1 + 1) / 2)%Z by (apply Z.div_pos; lia).
        lia.
      + intros _ y x Hy Hx Hpx. rewrite pixel_zeros in Hpx. congruence.
    - apply sieve_rings_regular. apply square_zeros. }
  destruct Hrun as (st' & Hrun & Hsq). exists st'.
  split; [assumption | split; [assumption|]].
  unfold photon_sieve. destruct (image_size <? 0)%Z eqn:E; [lia|].
  rewrite clear_center_zeros, Hrun. reflexivity.
Qed.

(** ** What stays open in a photon sieve *)

Section OpenCentre.

Variable rng : nat -> R.
Variables (image_size : Z) (radii : list R) (num_rings : Z).
Hypothesis canvas_ok : good_canvas image_size radii num_rings.

Lemma good_canvas_monotone (k : Z) :
  (0 <= k < num_rings)%Z -> radius_at radii 0 <= radius_at radii k.
Proof.
  destruct canvas_ok as (_ & _ & Hgood). intros [Hk0 Hk].
  revert Hk. pattern k. apply natlike_ind; [intros; lra | | assumption].
  intros j Hj IH Hlt.
  destruct (Hgood (Z.succ j) ltac:(lia)) as (_ & HT & _ & _).
  replace (Z.succ j - 1)%Z with j in HT by lia.
  specialize (IH ltac:(lia)). lra.
Qed.

Lemma stamp_disk_outside (k : Z) (img : image) (t : R) :
  (1 <= k < num_rings)%Z -> square image_size img ->
  opaque_outside image_size img (radius_at radii 0 - 2) ->
  opaque_outside image_size
    (stamp_disk img image_size
       (dot_y (image_size / 2) (radius_at radii (k - 1))
              (radius_at radii k - radius_at radii (k - 1)) t)
       (dot_x (image_size / 2) (radius_at radii (k - 1))
              (radius_at radii k - radius_at radii (k - 1)) t)
       (dot_radius_of (radius_at radii k - radius_at radii (k - 1))))
    (radius_at radii 0 - 2).
Proof.
  intros Hk Hsq Hout y x Hy Hx Hpx.
  rewrite pixel_stamp_disk in Hpx by assumption.
  destruct (in_stamp _ _ _ _ y x) eqn:E; [|now apply Hout].
  pose proof canvas_ok as (Hsize & HN & Hgood).
  destruct (Hgood k Hk) as (Ha & HT & HTa & Hb).
  destruct (Hgood 1%Z ltac:(lia)) as (Ha0 & HT0 & HTa0 & _).
  change (1 - 1)%Z with 0%Z in *.
  pose proof (good_canvas_monotone (k - 1) ltac:(lia)) as Hmono.
  assert (Hcenter : (2 * (image_size / 2) <= image_size)%Z)
    by (apply Z.mul_div_le; lia).
  pose proof (stamp_bounds image_size (image_size / 2) _ _ Hcenter Ha HT HTa Hb
                t y x Hy Hx E) as [Hlow _].
  eapply Rle_lt_trans; [|exact Hlow].
  apply pow_incr. lra.
Qed.

Lemma stamp_at_angle_outside (k : Z) (img : image) (t : R) :
  (1 <= k < num_rings)%Z -> square image_size img ->
  opaque_outside image_size img (radius_at radii 0 - 2) ->
  opaque_outside image_size
    (stamp_at_angle img image_size (image_size / 2) (radius_at radii (k - 1))
       (radius_at radii k - radius_at radii (k - 1))
       (dot_radius_of (radius_at radii k - radius_at radii (k - 1))) t)
    (radius_at radii 0 - 2).
Proof.
  intros Hk Hsq Hout. unfold stamp_at_angle.
  destruct (in_canvas _ _ _); [now apply stamp_disk_outside | assumption].
Qed.

Lemma place_dots_outside (k : Z) (random_spacing : bool) (fuel : nat) (num_dots : Z)
    (angles : list R) :
  (1 <= k < num_rings)%Z ->
  forall st st' : image * nat,
    square image_size (fst st) ->
    opaque_outside image_size (fst st) (radius_at radii 0 - 2) ->
    place_dots rng random_spacing fuel image_size (image_size / 2)
      (radius_at radii (k - 1)) (radius_at radii k - radius_at radii (k - 1))
      num_dots (dot_radius_of (radius_at radii k - radius_at radii (k - 1)))
      angles st = Ok st' ->
    opaque_outside image_size (fst st') (radius_at radii 0 - 2).
Proof.
  intros Hk. induction angles as [|angle rest IH]; intros [img i] st' Hsq Hout.
  - simpl. now intros [= <-].
  - cbn [place_dots].
    destruct (place_dot _ _ _ _ _ _ _ _ _ _ _) as [st1 | |] eqn:Hp; cbn [bind];
      try discriminate.
    apply IH.
    + eapply square_place_dot; [|exact Hp]. exact Hsq.
    + unfold place_dot in Hp. destruct random_spacing.
      * destruct (retry _ _ _ _ _ _ _ _ _ _) as [r | |]; cbn [bind] in Hp;
          try discriminate.
        injection Hp as <-. cbn [fst] in *.
        apply stamp_at_angle_outside; auto using square_stamp_disk.
        apply stamp_disk_outside; auto.
      * injection Hp as <-. cbn [fst] in *. now apply stamp_at_angle_outside.
Qed.

Lemma sieve_rings_outside (random_spacing : bool) (fuel : nat) (ks : list Z) :
  Forall (fun k => (1 <= k < num_rings)%Z) ks ->
  forall st st' : image * nat,
    square image_size (fst st) ->
    opaque_outside image_size (fst st) (radius_at radii 0 - 2) ->
    sieve_rings rng random_spacing fuel image_size (image_size / 2) radii ks st = Ok st' ->
    opaque_outside image_size (fst st') (radius_at radii 0 - 2).
Proof.
  induction ks as [|k rest IH]; intros Hks st st' Hsq Hout.
  - simpl. now intros [= <-].
  - inversion Hks as [|? ? Hk Hrest]; subst. cbn [sieve_rings].
    destruct (sieve_ring _ _ _ _ _ _ _ _) as [st1 | |] eqn:Hs; cbn [bind];
      try discriminate.
    unfold sieve_ring in Hs.
    apply (IH Hrest).
    + eapply square_place_dots; [|exact Hs]. exact Hsq.
    + eapply place_dots_outside; [exact Hk | | | exact Hs]; assumption.
Qed.

End OpenCentre.

Lemma zrange2_bounds (num_rings : Z) :
  Forall (fun k => (1 <= k < num_rings)%Z) (zrange2 1 num_rings).
Proof.
  apply Forall_forall. intros k Hk. unfold zrange2 in Hk.
  apply in_map_iff in Hk. destruct Hk as (i & <- & Hi). apply in_seq in Hi.
  destruct (Z.le_gt_cases ((num_rings - 1 + 1) / 2) 0) as [H | H]; [lia|].
  pose proof (Z.mul_div_le (num_rings - 1 + 1) 2 ltac:(lia)). lia.
Qed.

Lemma distance_sq_le (center y x : Z) (bound : R) :
  distance center y x <= bound ->
  IZR ((x - center) ^ 2 + (y - center) ^ 2) <= bound ^ 2.
Proof.
  unfold distance. intros H.
  assert (Hv : 0 <= IZR ((x - center) ^ 2 + (y - center) ^ 2)).
  { apply IZR_le. nia. }
  pose proof (sqrt_pos (IZR ((x - center) ^ 2 + (y - center) ^ 2))) as Hs.
  rewrite <- (sqrt_sqrt _ Hv) at 1.
  nra.
Qed.

(** The mask of a photon sieve on a good canvas, in either mode. *)
Lemma photon_sieve_mask (rng : nat -> R) (random_spacing : bool) (fuel : nat)
    (image_size : Z) (radii : list R) (num_rings : Z) :
  (forall i : nat, 0 <= rng i < 1) ->
  good_canvas image_size radii num_rings ->
  (random_spacing = true -> (1 <= fuel)%nat) ->
  exists img : image,
    photon_sieve rng random_spacing fuel image_size radii num_rings = Ok img
    /\ square image_size img
    /\ forall y x, (0 <= y < image_size)%Z -> (0 <= x < image_size)%Z ->
         (on_border image_size y x -> pixel img y x = 0%Z)
         /\ (distance (image_size / 2) y x <= radius_at radii 0 - 2 ->
             pixel img y x = 0%Z).
Proof.
  intros Hrng Hgood Hfuel.
  destruct (photon_sieve_returns rng random_spacing fuel image_size radii num_rings
              Hrng Hgood Hfuel) as (st & Hrun & Hsq & Heq).
  pose proof Hgood as (Hsize & HN & _).
  destruct (set_border_spec image_size (fst st) Hsize Hsq) as (out & Hout & Hsqo & Hpix).
  exists out. rewrite Heq. split; [assumption | split; [assumption|]].
  intros y x Hy Hx. destruct (Hpix y x Hy Hx) as [Hb Hnb].
  split; [assumption|]. intros Hd.
  destruct (classic_border image_size y x) as [B | B]; [now apply Hb|].
  rewrite (Hnb B).
  destruct (Z.eq_dec (pixel (fst st) y x) 0) as [E | E]; [assumption | exfalso].
  assert (Hout0 : opaque_outside image_size (zeros image_size) (radius_at radii 0 - 2)).
  { intros y' x' _ _ Hpx. rewrite pixel_zeros in Hpx. congruence. }
  pose proof (sieve_rings_outside rng image_size radii num_rings Hgood random_spacing
                fuel (zrange2 1 num_rings) (zrange2_bounds num_rings)
                (zeros image_size, 0%nat) st (square_zeros image_size) Hout0 Hrun
                y x Hy Hx E) as Hfar.
  apply distance_sq_le in Hd. lra.
Qed.

(** C6.  For valid physical parameters and any sequence of draws in [0, 1)
    the three generators return a mask.  In the random photon sieve the first
    position tried for a dot is always inside the canvas and open, so the
    [while True] loop ends at its first test: one unit of fuel is enough. *)
Theorem generation_terminates (rng : nat -> R) (wavelength focal_length : R)
    (num_rings : Z) (fuel : nat) :
  0 < wavelength -> 0 < focal_length -> (2 <= num_rings)%Z ->
  (forall i : nat, 0 <= rng i < 1) ->
  (exists img : image,
     generate_fresnel_zone_plate wavelength focal_length num_rings = Ok img)
  /\ (exists img : image,
        generate_photon_sieve rng fuel wavelength focal_length num_rings false = Ok img)
  /\ (exists img : image,
        generate_photon_sieve rng (S fuel) wavelength focal_length num_rings true
        = Ok img).
Proof.
  intros Hw Hf HN Hrng.
  destruct (physical_good_canvas wavelength focal_length num_rings Hw Hf HN)
    as (size & scaled & Hc & Hgood).
  pose proof Hgood as (Hsize & _).
  split; [|split].
  - destruct (zone_plate_pixels size scaled num_rings Hsize) as (img & Hz & _).
    exists img. unfold generate_fresnel_zone_plate.
    rewrite has_nan_valid, Hc by assumption. exact Hz.
  - destruct (photon_sieve_mask rng false fuel size scaled num_rings Hrng Hgood
                ltac:(discriminate)) as (img & Hp & _).
    exists img. unfold generate_photon_sieve.
    rewrite has_nan_valid, Hc by assumption. exact Hp.
  - destruct (photon_sieve_mask rng true (S fuel) size scaled num_rings Hrng Hgood
                ltac:(lia)) as (img & Hp & _).
    exists img. unfold generate_photon_sieve.
    rewrite has_nan_valid, Hc by assumption. exact Hp.
Qed.

(** C10, amended.  For valid physical parameters and any sequence of draws
    in [0, 1) the random photon sieve returns a square mask whose border row
    and column are 0 and in which every pixel at distance at most
    [scaled[0] - 2] from the centre is 0.  (Dots of the first dark ring can
    reach up to two pixels into the innermost disk.) *)
Theorem random_sieve_mask (rng : nat -> R) (wavelength focal_length : R)
    (num_rings : Z) (fuel : nat) :
  0 < wavelength -> 0 < focal_length -> (2 <= num_rings)%Z ->
  (forall i : nat, 0 <= rng i < 1) ->
  exists (image_size : Z) (scaled : list R) (img : image),
    canvas (ring_radii wavelength focal_length num_rings) = Ok (image_size, scaled)
    /\ generate_photon_sieve rng (S fuel) wavelength focal_length num_rings true
       = Ok img
    /\ square image_size img
    /\ forall y x, (0 <= y < image_size)%Z -> (0 <= x < image_size)%Z ->
         (on_border image_size y x -> pixel img y x = 0%Z)
         /\ (distance (image_size / 2) y x <= radius_at scaled 0 - 2 ->
             pixel img y x = 0%Z).
Proof.
  intros Hw Hf HN Hrng.
  destruct (physical_good_canvas wavelength focal_length num_rings Hw Hf HN)
    as (size & scaled & Hc & Hgood).
  destruct (photon_sieve_mask rng true (S fuel) size scaled num_rings Hrng Hgood
              ltac:(lia)) as (img & Hp & Hsq & Hpix).
  exists size, scaled, img. split; [assumption|]. split; [|split; assumption].
  unfold generate_photon_sieve.
  rewrite has_nan_valid, Hc by assumption. exact Hp.
Qed.

Lemma generation_terminates_witness :
  (exists img : image, generate_fresnel_zone_plate 2 24 2 = Ok img)
  /\ (exists img : image, generate_photon_sieve zero_rng 0 2 24 2 false = Ok img)
  /\ (exists img : image, generate_photon_sieve zero_rng 1 2 24 2 true = Ok img).
Proof.
  apply (generation_terminates zero_rng 2 24 2 0); try lra; try lia.
  intros i. unfold zero_rng. lra.
Defined.

Lemma random_sieve_mask_witness :
  exists (image_size : Z) (scaled : list R) (img : image),
    canvas (ring_radii 2 24 2) = Ok (image_size, scaled)
    /\ generate_photon_sieve zero_rng 1 2 24 2 true = Ok img
    /\ square image_size img
    /\ forall y x, (0 <= y < image_size)%Z -> (0 <= x < image_size)%Z ->
         (on_border image_size y x -> pixel img y x = 0%Z)
         /\ (distance (image_size / 2) y x <= radius_at scaled 0 - 2 ->
             pixel img y x = 0%Z).
Proof.
  apply (random_sieve_mask zero_rng 2 24 2 0); try lra; try lia.
  intros i. unfold zero_rng. lra.
Defined.

(** * The first stage and the zone plate in floating point *)

(** ** A rounding to a grid *)

Lemma round_grid_monotone : monotone round_grid.
Proof.
  intros x y Hxy. unfold round_grid.
  apply Rmult_le_compat_r; [lra|]. apply IZR_le, Zfloor_le. lra.
Qed.

Lemma round_grid_multiple (k : Z) : round_grid (IZR k / 1024) = IZR k / 1024.
Proof.
  unfold round_grid. f_equal. f_equal. apply Zfloor_eq.
  replace (IZR k / 1024 * 1024) with (IZR k) by field. lra.
Qed.

Lemma round_grid_integers : exact_integers round_grid.
Proof.
  intros z _. replace (IZR z) with (IZR (z * 1024) / 1024) at 1 2
    by (rewrite mult_IZR; field).
  apply round_grid_multiple.
Qed.

Lemma round_grid_zero : round_grid 0 = 0.
Proof. apply (round_grid_integers 0%Z). simpl. lia. Qed.

Lemma round_grid_sign : distinct_gaps round_grid.
Proof.
  intros a b Ha Hb Hab. unfold round_grid in Ha, Hb.
  set (ka := Zfloor (a * 1024 + / 2)) in *. set (kb := Zfloor (b * 1024 + / 2)) in *.
  rewrite <- Ha, <- Hb.
  replace (IZR kb / 1024 - IZR ka / 1024) with (IZR (kb - ka) / 1024)
    by (rewrite minus_IZR; field).
  rewrite round_grid_multiple. rewrite <- Ha, <- Hb in Hab.
  rewrite minus_IZR. lra.
Qed.

(** ** The radius sequence under rounding *)

Lemma ring_radii_rnd_exact (wavelength focal_length : R) (num_rings : Z) :
  ring_radii_rnd (fun x => x) (fun x => x * x) wavelength focal_length num_rings
  = ring_radii wavelength focal_length num_rings.
Proof.
  unfold ring_radii_rnd, ring_radii, radicand. apply map_ext. intros n.
  f_equal. change (n ^ 2)%Z with (n ^ Z.of_nat 2)%Z. rewrite <- pow_IZR. field.
Qed.

Lemma length_ring_radii_rnd (rnd pow2 : R -> R) (wavelength focal_length : R)
    (num_rings : Z) :
  length (ring_radii_rnd rnd pow2 wavelength focal_length num_rings) = Z.to_nat num_rings.
Proof. unfold ring_radii_rnd. rewrite length_map, length_zrange. f_equal. lia. Qed.

Lemma nth_ring_radii_rnd (rnd pow2 : R -> R) (wavelength focal_length : R)
    (num_rings n : Z) :
  (1 <= n <= num_rings)%Z ->
  nth (Z.to_nat (n - 1)) (ring_radii_rnd rnd pow2 wavelength focal_length num_rings) 0
  = rnd (sqrt (rnd (rnd (rnd (IZR n * wavelength) * focal_length)
                    + rnd (rnd (IZR (n ^ 2) * pow2 wavelength) / 4)))).
Proof.
  intros Hn. unfold ring_radii_rnd.
  rewrite nth_map_lt with (d' := 0%Z) by (rewrite length_zrange; lia).
  rewrite nth_zrange by lia.
  replace (1 + Z.of_nat (Z.to_nat (n - 1)))%Z with n by lia. reflexivity.
Qed.

Lemma monotone_nonneg (rnd : R -> R) (x : R) :
  monotone rnd -> rnd 0 = 0 -> 0 <= x -> 0 <= rnd x.
Proof. intros Hm H0 Hx. rewrite <- H0. now apply Hm. Qed.



(** ** The canvas under rounding *)

Lemma canvas_rnd_exact (radii : list R) : canvas_rnd (fun x => x) radii = canvas radii.
Proof.
  unfold canvas_rnd, canvas.
  assert (E : diff_rnd (fun x => x) radii = diff radii).
  { induction radii as [|a [|b t] IH]; try reflexivity.
    change (diff_rnd (fun x => x) (a :: b :: t))
      with ((b - a) :: diff_rnd (fun x => x) (b :: t)).
    now rewrite IH. }
  rewrite E. reflexivity.
Qed.

Lemma length_diff_rnd (rnd : R -> R) (l : list R) :
  length (diff_rnd rnd l) = (length l - 1)%nat.
Proof.
  induction l as [|a [|b t] IH]; try reflexivity.
  change (diff_rnd rnd (a :: b :: t)) with (rnd (b - a) :: diff_rnd rnd (b :: t)).
  cbn [length] in *. rewrite IH. lia.
Qed.

Lemma nth_diff_rnd (rnd : R -> R) (l : list R) (k : nat) :
  (S k < length l)%nat ->
  nth k (diff_rnd rnd l) 0 = rnd (nth (S k) l 0 - nth k l 0).
Proof.
  revert k; induction l as [|x [|y t] IH]; intros k Hk; simpl in Hk; try lia.
  destruct k as [|k]; [reflexivity|].
  change (diff_rnd rnd (x :: y :: t)) with (rnd (y - x) :: diff_rnd rnd (y :: t)).
  cbn [nth]. apply IH. simpl. lia.
Qed.

Lemma increasing_nth_lt (l : list R) (k : nat) :
  increasing l -> (S k < length l)%nat -> nth k l 0 < nth (S k) l 0.
Proof.
  revert k; induction l as [|x [|y t] IH]; intros k Hinc Hk; simpl in Hk; try lia.
  destruct Hinc as [Hxy Ht]. destruct k as [|k]; [exact Hxy|].
  apply (IH k Ht). simpl. lia.
Qed.

(** C3, amended.  For a valid radius sequence of floats, under every
    monotone rounding that is exact on the integers up to [2^53] and does not
    round the difference of two distinct floats to zero: the canvas sizer
    returns; [minGap] is the least of the rounded consecutive differences;
    [sizePx] is the integer part of the product [((8 / minGap) * radii[N]) * 2]
    with each operation rounded; every radius is divided by [radii[N]] and
    multiplied by [sizePx // 2], each operation rounded; and the outermost
    scaled radius is exactly [sizePx // 2]. *)
Theorem canvas_spec (rnd : R -> R) (radii : list R) :
  monotone rnd -> exact_integers rnd -> distinct_gaps rnd ->
  valid_radii radii -> Forall (fun r => rnd r = r) radii ->
  exists (min_gap : R) (image_size : Z) (scaled : list R),
    canvas_rnd rnd radii = Ok (image_size, scaled)
    /\ (exists j : nat, (S j < length radii)%nat
                        /\ min_gap = rnd (nth (S j) radii 0 - nth j radii 0))
    /\ (forall j : nat, (S j < length radii)%nat ->
          min_gap <= rnd (nth (S j) radii 0 - nth j radii 0))
    /\ image_size
       = Zfloor (rnd (rnd (rnd (8 / min_gap) * nth (length radii - 1) radii 0) * 2))
    /\ length scaled = length radii
    /\ (forall k : nat, (k < length radii)%nat ->
          nth k scaled 0
          = rnd (rnd (nth k radii 0 / nth (length radii - 1) radii 0)
                 * IZR (image_size / 2)))
    /\ ((Z.abs (image_size / 2) <= 2 ^ 53)%Z ->
        nth (length radii - 1) scaled 0 = IZR (image_size / 2)).
Proof.
  intros Hm Hint Hsign (Hlen & Hhd & Hinc) Hrep.
  assert (H0 : rnd 0 = 0) by (apply (Hint 0%Z); simpl; lia).
  assert (H1 : rnd 1 = 1) by (apply (Hint 1%Z); simpl; lia).
  assert (Hpos : forall x, 0 <= x -> 0 <= rnd x)
    by (intros x; now apply monotone_nonneg).
  assert (Hgap : forall j : nat, (S j < length radii)%nat ->
                   0 < rnd (nth (S j) radii 0 - nth j radii 0)).
  { intros j Hj. rewrite Forall_forall in Hrep.
    apply Hsign; [apply Hrep, nth_In; lia | apply Hrep, nth_In; lia|].
    now apply increasing_nth_lt. }
  destruct (list_min (diff_rnd rnd radii)) as [g|] eqn:Hg.
  2:{ destruct (diff_rnd rnd radii) eqn:E; [|discriminate].
      pose proof (length_diff_rnd rnd radii) as HL. rewrite E in HL. simpl in HL. lia. }
  destruct (list_min_spec _ _ Hg) as [Hin Hle].
  destruct (In_nth _ _ 0 Hin) as (j & Hj & Ej).
  rewrite length_diff_rnd in Hj.
  rewrite nth_diff_rnd in Ej by lia.
  assert (Hgpos : 0 < g) by (rewrite <- Ej; apply Hgap; lia).
  assert (HL : 0 < last radii 0).
  { rewrite <- nth_last. apply increasing_nth_pos; [assumption | assumption | lia]. }
  set (size := Zfloor (rnd (rnd (rnd (8 / g) * last radii 0) * 2))).
  exists g, size, (map (fun r => rnd (rnd (r / last radii 0) * IZR (size / 2))) radii).
  rewrite !nth_last.
  split.
  { unfold canvas_rnd. rewrite Hg.
    destruct (Req_dec_T g 0) as [E | _]; [lra|].
    change (IZR min_ring_thickness_px) with 8.
    rewrite int_of_nonneg; [reflexivity|].
    assert (A : 0 <= rnd (8 / g))
      by (apply Hpos; apply Rlt_le, Rdiv_lt_0_compat; lra).
    assert (B : 0 <= rnd (rnd (8 / g) * last radii 0)) by (apply Hpos; nra).
    apply Hpos. lra. }
  split; [exists j; split; [lia | now symmetry]|].
  split.
  { intros j' Hj'. apply Hle. rewrite <- nth_diff_rnd by assumption.
    apply nth_In. rewrite length_diff_rnd. lia. }
  split; [reflexivity|].
  split; [apply length_map|].
  split.
  { intros k Hk. now rewrite nth_map_lt with (d' := 0). }
  intros Hhalf. rewrite nth_map_lt with (d' := 0) by lia.
  rewrite nth_last.
  replace (last radii 0 / last radii 0) with 1 by (field; lra).
  rewrite H1, Rmult_1_l. now apply Hint.
Qed.

Lemma canvas_spec_witness :
  exists (min_gap : R) (image_size : Z) (scaled : list R),
    canvas_rnd round_grid [7; 10] = Ok (image_size, scaled)
    /\ (exists j : nat, (S j < length [7; 10])%nat
                        /\ min_gap = round_grid (nth (S j) [7; 10] 0 - nth j [7; 10] 0))
    /\ (forall j : nat, (S j < length [7; 10])%nat ->
          min_gap <= round_grid (nth (S j) [7; 10] 0 - nth j [7; 10] 0))
    /\ image_size
       = Zfloor (round_grid
                   (round_grid (round_grid (8 / min_gap)
                                * nth (length [7; 10] - 1) [7; 10] 0) * 2))
    /\ length scaled = length [7; 10]
    /\ (forall k : nat, (k < length [7; 10])%nat ->
          nth k scaled 0
          = round_grid (round_grid (nth k [7; 10] 0 / nth (length [7; 10] - 1) [7; 10] 0)
                        * IZR (image_size / 2)))
    /\ ((Z.abs (image_size / 2) <= 2 ^ 53)%Z ->
        nth (length [7; 10] - 1) scaled 0 = IZR (image_size / 2)).
Proof.
  apply (canvas_spec round_grid [7; 10]).
  - exact round_grid_monotone.
  - exact round_grid_integers.
  - exact round_grid_sign.
  - exact valid_radii_example.
  - repeat constructor.
    + apply (round_grid_integers 7%Z). simpl. lia.
    + apply (round_grid_integers 10%Z). simpl. lia.
Defined.

(** ** The zone plate rasterizer in binary64 *)

Lemma square_fill_bands (p : Z -> Z -> Z -> bool) (n : Z) (ks : list Z) (img : image) :
  square n img ->
  square n (fold_left (fun im k =>
                         if (k mod 2 =? 1)%Z then
                           map_pixels (fun y x v => if p k y x then 1%Z else v) im
                         else im) ks img).
Proof.
  revert img; induction ks as [|k ks IH]; intros img Hsq; simpl; [assumption|].
  apply IH. destruct (k mod 2 =? 1)%Z; [now apply square_map_pixels | assumption].
Qed.

Lemma pixel_fill_bands (p : Z -> Z -> Z -> bool) (n : Z) (ks : list Z) (img : image)
    (y x : Z) :
  square n img -> (0 <= y < n)%Z -> (0 <= x < n)%Z ->
  pixel (fold_left (fun im k =>
                      if (k mod 2 =? 1)%Z then
                        map_pixels (fun y x v => if p k y x then 1%Z else v) im
                      else im) ks img) y x
  = if existsb (fun k => (k mod 2 =? 1)%Z && p k y x) ks then 1%Z else pixel img y x.
Proof.
  revert img; induction ks as [|k ks IH]; intros img Hsq Hy Hx; simpl; [reflexivity|].
  destruct (k mod 2 =? 1)%Z eqn:Ek; simpl.
  - rewrite IH by (try apply square_map_pixels; assumption).
    rewrite pixel_map_pixels with (n := n) by assumption.
    destruct (p k y x); simpl; [|reflexivity].
    now destruct (existsb _ ks).
  - now apply IH.
Qed.

(** The rasterizer on any canvas with at least one pixel. *)
Lemma zone_plate64_pixels (image_size : Z) (radii : list PrimFloat.float)
    (num_rings : Z) :
  (0 < image_size)%Z ->
  exists img, zone_plate64 image_size radii num_rings = Ok img
    /\ square image_size img
    /\ forall y x, (0 <= y < image_size)%Z -> (0 <= x < image_size)%Z ->
         (pixel img y x = 1%Z \/ pixel img y x = 0%Z)
         /\ (pixel img y x = 1%Z <->
             ~ on_border image_size y x
             /\ exists k, (0 <= k < num_rings)%Z /\ (k mod 2 = 1)%Z
                  /\ in_band64 radii k (distance64 (image_size / 2) y x) = true).
Proof.
  intros Hn. unfold zone_plate64, zone_rings64.
  destruct (image_size <? 0)%Z eqn:E; [lia|].
  set (body := fold_left _ _ _).
  assert (Hsq : square image_size body)
    by (apply (square_fill_bands
                 (fun k y x => in_band64 radii k (distance64 (image_size / 2) y x))),
        square_zeros).
  destruct (set_border_spec image_size body Hn Hsq) as (out & Hout & Hsqo & Hpix).
  exists out. split; [assumption | split; [assumption|]].
  intros y x Hy Hx. destruct (Hpix y x Hy Hx) as [Hb Hnb].
  assert (Hbody : pixel body y x
    = if existsb (fun k => (k mod 2 =? 1)%Z
                           && in_band64 radii k (distance64 (image_size / 2) y x))
                 (zrange 0 num_rings)
      then 1%Z else 0%Z).
  { unfold body.
    rewrite (pixel_fill_bands
               (fun k y x => in_band64 radii k (distance64 (image_size / 2) y x))
               image_size) by (try apply square_zeros; assumption).
    now rewrite pixel_zeros. }
  assert (Hex : existsb (fun k => (k mod 2 =? 1)%Z
                           && in_band64 radii k (distance64 (image_size / 2) y x))
                 (zrange 0 num_rings) = true
     <-> exists k, (0 <= k < num_rings)%Z /\ (k mod 2 = 1)%Z
                  /\ in_band64 radii k (distance64 (image_size / 2) y x) = true).
  { rewrite existsb_exists. split.
    - intros (k & Hk & Hc). apply in_zrange in Hk.
      apply andb_true_iff in Hc. destruct Hc as [Ho Hin].
      exists k. repeat split; try lia; assumption.
    - intros (k & Hk & Ho & Hin). exists k. split; [now apply in_zrange|].
      apply andb_true_iff. split; [lia | assumption]. }
  destruct (classic_border image_size y x) as [B | B].
  - rewrite (Hb B). split; [now right|]. split; [discriminate | tauto].
  - rewrite (Hnb B), Hbody.
    destruct (existsb _ _) eqn:Ee.
    + split; [now left|]. split; [intros _; split; [assumption | now apply Hex] | reflexivity].
    + split; [now right|]. split; [discriminate|].
      intros [_ H]. apply Hex in H. discriminate.
Qed.

(** A canvas returned by the first stage has one scaled radius per ring, and
    there are at least two rings. *)
Lemma sized_canvas64_length (pow2 : PrimFloat.float -> option PrimFloat.float)
    (wavelength focal_length : PrimFloat.float)
    (num_rings image_size : Z) (scaled : list PrimFloat.float) :
  sized_canvas64 pow2 wavelength focal_length num_rings = Ok (image_size, scaled) ->
  length scaled = Z.to_nat num_rings /\ (2 <= num_rings)%Z.
Proof.
  unfold sized_canvas64, ring_radii64.
  destruct (num_rings <=? 0)%Z eqn:E; [discriminate|].
  destruct (pow2 wavelength) as [w2|]; cbn [bind]; try discriminate.
  set (radii := map _ _).
  assert (Hlen : length radii = Z.to_nat num_rings).
  { unfold radii. rewrite length_map, length_zrange. f_equal. lia. }
  unfold canvas64.
  destruct (min64 (diff64 radii)) as [g|] eqn:Hg; [|discriminate].
  destruct (int_of64 _) as [size | |]; cbn [bind]; try discriminate.
  intros [= <- <-]. rewrite length_map. split; [assumption|].
  destruct radii as [|a [|b t]]; try discriminate. simpl in Hlen. lia.
Qed.

(** C1.  On every canvas with at least one pixel the zone plate rasterizer
    returns a square mask of the canvas size in which every pixel is 0 or 1,
    and a pixel is 1 exactly when it is off the border and its distance from
    the canvas centre lies in a band [scaled[k-1] <= distance < scaled[k]]
    with [k] odd; the distance is the binary64 square root of
    [(x - c)^2 + (y - c)^2], as line 41 computes it, and the comparisons are
    those of binary64.  The mask is a function of the canvas, and it is the
    mask the generator returns whenever its first stage gives this canvas,
    whatever the C library's [pow] returns for [wavelength ** 2]. *)
Theorem fresnel_zone_plate_spec (image_size : Z) (scaled : list PrimFloat.float)
    (num_rings : Z) :
  (0 < image_size)%Z -> length scaled = Z.to_nat num_rings ->
  exists img : image,
    zone_plate64 image_size scaled num_rings = Ok img
    /\ (forall (pow2 : PrimFloat.float -> option PrimFloat.float)
               (wavelength focal_length : PrimFloat.float),
          sized_canvas64 pow2 wavelength focal_length num_rings = Ok (image_size, scaled) ->
          generate_fresnel_zone_plate64 pow2 wavelength focal_length num_rings = Ok img)
    /\ square image_size img
    /\ forall y x, (0 <= y < image_size)%Z -> (0 <= x < image_size)%Z ->
         (pixel img y x = 1%Z \/ pixel img y x = 0%Z)
         /\ (pixel img y x = 1%Z <->
             ~ on_border image_size y x
             /\ exists k, (0 <= k < num_rings)%Z /\ (k mod 2 = 1)%Z
                  /\ (nth (Z.to_nat (k - 1)) scaled PrimFloat.zero
                      <=? PrimFloat.sqrt
                            (of_uint63
                               (Uint63Axioms.of_Z
                                  ((x - image_size / 2) ^ 2
                                   + (y - image_size / 2) ^ 2))))%float = true
                  /\ (PrimFloat.sqrt
                        (of_uint63
                           (Uint63Axioms.of_Z
                              ((x - image_size / 2) ^ 2 + (y - image_size / 2) ^ 2)))
                      <? nth (Z.to_nat k) scaled PrimFloat.zero)%float = true).
Proof.
  intros Hsize Hlen.
  destruct (zone_plate64_pixels image_size scaled num_rings Hsize)
    as (img & Hz & Hsq & Hpix).
  exists img. split; [exact Hz|]. split.
  { intros pow2 wavelength focal_length Hc.
    unfold generate_fresnel_zone_plate64. rewrite Hc. exact Hz. }
  split; [assumption|].
  intros y x Hy Hx. destruct (Hpix y x Hy Hx) as [Hbin Hiff].
  split; [assumption|]. rewrite Hiff.
  split; intros [B (k & Hk & Ho & Hin)]; (split; [assumption|]); exists k.
  - unfold in_band64, distance64 in Hin. apply andb_true_iff in Hin. tauto.
  - split; [assumption|]. split; [assumption|].
    unfold in_band64, distance64. apply andb_true_iff. tauto.
Qed.

Lemma fresnel_zone_plate_spec_witness :
  exists img : image,
    zone_plate64 53 [18.2; 26]%float 2 = Ok img
    /\ (forall (pow2 : PrimFloat.float -> option PrimFloat.float)
               (wavelength focal_length : PrimFloat.float),
          sized_canvas64 pow2 wavelength focal_length 2 = Ok (53%Z, [18.2; 26]%float) ->
          generate_fresnel_zone_plate64 pow2 wavelength focal_length 2 = Ok img)
    /\ square 53 img
    /\ forall y x, (0 <= y < 53)%Z -> (0 <= x < 53)%Z ->
         (pixel img y x = 1%Z \/ pixel img y x = 0%Z)
         /\ (pixel img y x = 1%Z <->
             ~ on_border 53 y x
             /\ exists k, (0 <= k < 2)%Z /\ (k mod 2 = 1)%Z
                  /\ (nth (Z.to_nat (k - 1)) [18.2; 26]%float PrimFloat.zero
                      <=? PrimFloat.sqrt
                            (of_uint63
                               (Uint63Axioms.of_Z ((x - 53 / 2) ^ 2 + (y - 53 / 2) ^ 2))))%float
                     = true
                  /\ (PrimFloat.sqrt
                        (of_uint63
                           (Uint63Axioms.of_Z ((x - 53 / 2) ^ 2 + (y - 53 / 2) ^ 2)))
                      <? nth (Z.to_nat k) [18.2; 26]%float PrimFloat.zero)%float = true).
Proof.
  apply (fresnel_zone_plate_spec 53 [18.2; 26]%float 2); [lia | reflexivity].
Defined.

Lemma sized_canvas64_example :
  sized_canvas64 square64 2 24 2 = Ok (53%Z, [18.2; 26]%float).
Proof. vm_compute. reflexivity. Qed.

(** The first stage at some inputs: the size follows the rounding of the
    product, a negative radicand ends in [int] of NaN, and a wavelength whose
    square is out of range raises at line 24. *)
Lemma sized_canvas64_examples :
  sized_canvas64 square64 12 21 2 = Ok (47%Z, [15.333333333333332; 23]%float)
  /\ sized_canvas64 square64 (-2) 24 2 = Raise nan_to_int
  /\ sized_canvas64 square64 1e200 1e200 2 = Raise OverflowError.
Proof. vm_compute. repeat split. Qed.

(** ** Inputs at which rounding decides *)


(** C3 as stated fails: with wavelength 98, focal length [1e-30] and 2 rings
    the radii are 49 and 98, so that the claimed size is
    [floor ((8 / 49) * 98 * 2) = 32]; in binary64 the product is
    31.999999999999996 and [int] gives 31. *)
Lemma canvas_rounding_counterexample :
  (ring_radii64 square64 98 1e-30 2 = Ok [49; 98]%float
   /\ (Z2F 8 / (98 - 49) * 98 * Z2F 2 = 31.999999999999996)%float
   /\ canvas64 [49; 98]%float = Ok (31%Z, [7.5; 15]%float))
  /\ Zfloor (8 / (98 - 49) * 98 * 2) = 32%Z.
Proof.
  split; [vm_compute; repeat split|].
  apply Zfloor_eq. lra.
Qed.

(** C4.  With wavelength 2, focal length 24 and 2 rings the canvas is 53
    pixels wide and the scaled radii are 18.2 and 26: the only ring is
    7.8 pixels thick, below the 8 pixels that the comment of line 28 names as
    the minimum ring thickness. *)
Theorem canvas_below_floor :
  sized_canvas64 square64 2 24 2 = Ok (53%Z, [18.2; 26]%float)
  /\ min64 (diff64 [18.2; 26]%float) = Some (26 - 18.2)%float
  /\ (26 - 18.2 <? Z2F min_ring_thickness_px)%float = true.
Proof. vm_compute. repeat split. Qed.

(** * Collision avoidance on a valid canvas *)

(** ** Stamping a disk twice *)

Lemma imap_from_ext {A B : Type} (f g : Z -> A -> B) (i : Z) (l : list A) :
  (forall j a, f j a = g j a) -> imap_from f i l = imap_from g i l.
Proof.
  intros H. revert i; induction l as [|a l IH]; intros i; simpl; [reflexivity|].
  now rewrite H, IH.
Qed.

Lemma imap_from_compose {A B C : Type} (f : Z -> B -> C) (g : Z -> A -> B)
    (i : Z) (l : list A) :
  imap_from f i (imap_from g i l) = imap_from (fun j a => f j (g j a)) i l.
Proof.
  revert i; induction l as [|a l IH]; intros i; simpl; [reflexivity|].
  now rewrite IH.
Qed.

Lemma map_pixels_idempotent (f : Z -> Z -> Z -> Z) (img : image) :
  (forall y x v, f y x (f y x v) = f y x v) ->
  map_pixels f (map_pixels f img) = map_pixels f img.
Proof.
  intros H. unfold map_pixels. rewrite imap_from_compose.
  apply imap_from_ext. intros y row. rewrite imap_from_compose.
  apply imap_from_ext. intros x v. apply H.
Qed.

Lemma stamp_disk_idempotent (img : image) (image_size y x dot_radius : Z) :
  stamp_disk (stamp_disk img image_size y x dot_radius) image_size y x dot_radius
  = stamp_disk img image_size y x dot_radius.
Proof.
  unfold stamp_disk. apply map_pixels_idempotent.
  intros Y X v. now destruct (_ && _).
Qed.

(** ** The dots of a ring stay inside the canvas *)

(** A dot centre lies on the mid-ring circle, truncated toward the canvas
    centre; when the mid-ring radius is below the centre coordinate the
    position is inside the canvas at every angle. *)
Lemma mid_ring_in_canvas (image_size center : Z) (radius_inner ring_thickness angle : R) :
  (2 * center <= image_size)%Z ->
  Rabs (radius_inner + ring_thickness / 2) < IZR center ->
  in_canvas image_size (dot_y center radius_inner ring_thickness angle)
                       (dot_x center radius_inner ring_thickness angle) = true.
Proof.
  intros Hsize Hmid. unfold dot_x, dot_y.
  set (m := radius_inner + ring_thickness / 2) in *.
  pose proof (COS_bound angle) as [C1 C2]. pose proof (SIN_bound angle) as [S1 S2].
  assert (Hm : 0 <= Rabs m) by apply Rabs_pos.
  assert (HX : - Rabs m <= m * cos angle <= Rabs m).
  { unfold Rabs in *. destruct (Rcase_abs m); split; nra. }
  assert (HY : - Rabs m <= m * sin angle <= Rabs m).
  { unfold Rabs in *. destruct (Rcase_abs m); split; nra. }
  apply int_of_abs_le in HX, HY.
  set (tx := int_of (m * cos angle)) in *. set (ty := int_of (m * sin angle)) in *.
  assert (Hx : (- center < tx < center)%Z)
    by (split; [apply lt_IZR; rewrite opp_IZR | apply lt_IZR]; lra).
  assert (Hy : (- center < ty < center)%Z)
    by (split; [apply lt_IZR; rewrite opp_IZR | apply lt_IZR]; lra).
  unfold in_canvas. rewrite !andb_true_iff, !Z.leb_le, !Z.ltb_lt. lia.
Qed.

Lemma retry_spec_refines (rng : nat -> R) (fuel : nat) (img : image)
    (image_size center : Z) (radius_inner ring_thickness : R) (num_dots : Z) :
  (2 * center <= image_size)%Z ->
  Rabs (radius_inner + ring_thickness / 2) < IZR center ->
  forall (random_angle : R) (i : nat),
    retry_spec rng fuel img image_size center radius_inner ring_thickness num_dots
               random_angle i
    = r <- retry rng fuel img image_size center radius_inner ring_thickness num_dots
                 random_angle i ;;
      Ok (Some (fst r), snd r).
Proof.
  intros Hsize Hmid. induction fuel as [|fuel IH]; intros a i; [reflexivity|].
  cbn [retry_spec retry].
  rewrite (mid_ring_in_canvas image_size center radius_inner ring_thickness a Hsize Hmid).
  cbn [negb andb].
  destruct (pixel img _ _ =? 0)%Z; [reflexivity | apply IH].
Qed.



(** * Further properties of the code *)

Lemma Rleb_false_lt (a b : R) : Rleb a b = false -> b < a.
Proof. unfold Rleb. destruct (Rle_dec a b); [discriminate | lra]. Qed.

(** X2.  The lens diameter computed at the end of [main] is NaN when the
    radicand of the last ring is negative, and otherwise twice the last radius
    of the radius sequence the generators build. *)
Theorem outer_ring_diameter_last (wavelength focal_length : R) (num_rings : Z) :
  (1 <= num_rings)%Z ->
  (radicand wavelength focal_length num_rings < 0 ->
   outer_ring_diameter wavelength focal_length num_rings = NaN)
  /\ (0 <= radicand wavelength focal_length num_rings ->
      outer_ring_diameter wavelength focal_length num_rings
      = Num (2 * last (ring_radii wavelength focal_length num_rings) 0)).
Proof.
  intros HN. unfold outer_ring_diameter.
  change (IZR num_rings * wavelength * focal_length
          + IZR num_rings ^ 2 * wavelength ^ 2 / 4)
    with (radicand wavelength focal_length num_rings).
  unfold fsqrt. split; intros Hr.
  - destruct (Rltb _ 0) eqn:E; [reflexivity|]. apply Rltb_false in E. lra.
  - destruct (Rltb _ 0) eqn:E; [apply Rltb_true in E; lra|].
    cbn [fmul]. f_equal.
    rewrite <- nth_last, length_ring_radii.
    pose proof (radius_at_ring_radii wavelength focal_length num_rings (num_rings - 1)
                  ltac:(lia)) as R1.
    unfold radius_at in R1.
    replace (Z.to_nat num_rings - 1)%nat with (Z.to_nat (num_rings - 1)) by lia.
    rewrite R1. replace (num_rings - 1 + 1)%Z with num_rings by lia. ring.
Qed.

(** X3.  [format_diameter] keeps the length: the number times the length of
    the unit of its suffix is the diameter.  From one nanometre on the number
    is at least 1, below one metre it is less than 1000, and the picometre
    suffix is used exactly below one nanometre.  A NaN diameter falls through
    every comparison and is written as NaN picometres. *)
Theorem format_diameter_spec (d : R) :
  format_diameter NaN = (NaN, S_pm)
  /\ exists (x : R) (s : length_suffix),
       format_diameter (Num d) = (Num x, s)
       /\ x * suffix_metres s = d
       /\ (1 / 1000000000 <= d -> 1 <= x)
       /\ (d < 1 -> x < 1000)
       /\ (s = S_pm <-> d < 1 / 1000000000).
Proof.
  split; [reflexivity|]. unfold format_diameter, fge, fmul.
  destruct (Rleb 1 d) eqn:E1; [apply Rleb_true in E1 | apply Rleb_false_lt in E1].
  { do 2 eexists. split; [reflexivity|]. simpl.
    repeat split; try lra; try discriminate. }
  destruct (Rleb (1 / 100) d) eqn:E2; [apply Rleb_true in E2 | apply Rleb_false_lt in E2].
  { do 2 eexists. split; [reflexivity|]. simpl.
    repeat split; try lra; try discriminate. }
  destruct (Rleb (1 / 1000) d) eqn:E3; [apply Rleb_true in E3 | apply Rleb_false_lt in E3].
  { do 2 eexists. split; [reflexivity|]. simpl.
    repeat split; try lra; try discriminate. }
  destruct (Rleb (1 / 1000000) d) eqn:E4;
    [apply Rleb_true in E4 | apply Rleb_false_lt in E4].
  { do 2 eexists. split; [reflexivity|]. simpl.
    repeat split; try lra; try discriminate. }
  destruct (Rleb (1 / 1000000000) d) eqn:E5;
    [apply Rleb_true in E5 | apply Rleb_false_lt in E5].
  { do 2 eexists. split; [reflexivity|]. simpl.
    repeat split; try lra; try discriminate. }
  do 2 eexists. split; [reflexivity|]. simpl.
  repeat split; try lra; try discriminate; auto.
Qed.

(** ** Pointwise equal tests *)

Lemma existsb_pointwise {A : Type} (f g : A -> bool) (l : list A) :
  (forall a, f a = g a) -> existsb f l = existsb g l.
Proof. intros H. induction l as [|a l IH]; simpl; [reflexivity | now rewrite H, IH]. Qed.

(** ** Where the zone plate is opaque *)

(** X7.  For valid physical parameters every opaque pixel of the zone plate is
    at distance at least [scaled[0]] and less than [sizePx // 2] from the
    centre: the central zone and the corners outside the lens are open. *)
Theorem zone_plate_annulus (wavelength focal_length : R) (num_rings : Z) :
  0 < wavelength -> 0 < focal_length -> (2 <= num_rings)%Z ->
  exists (image_size : Z) (scaled : list R) (img : image),
    canvas (ring_radii wavelength focal_length num_rings) = Ok (image_size, scaled)
    /\ generate_fresnel_zone_plate wavelength focal_length num_rings = Ok img
    /\ forall y x, (0 <= y < image_size)%Z -> (0 <= x < image_size)%Z ->
         pixel img y x <> 0%Z ->
         radius_at scaled 0 <= distance (image_size / 2) y x < IZR (image_size / 2).
Proof.
  intros Hw Hf HN.
  destruct (physical_good_canvas wavelength focal_length num_rings Hw Hf HN)
    as (size & scaled & Hc & Hgood).
  pose proof Hgood as (Hsize & _ & Hrings).
  destruct (zone_plate_pixels size scaled num_rings Hsize) as (img & Hz & _ & Hpix).
  exists size, scaled, img. split; [assumption|]. split.
  - unfold generate_fresnel_zone_plate.
    rewrite has_nan_valid, Hc by assumption. exact Hz.
  - intros y x Hy Hx Hpx. destruct (Hpix y x Hy Hx) as [Hbin Hiff].
    assert (H1 : pixel img y x = 1%Z) by (destruct Hbin; [assumption | contradiction]).
    apply Hiff in H1. destruct H1 as (_ & k & Hk & Hodd & Hlo & Hhi).
    assert (Hk1 : (1 <= k < num_rings)%Z).
    { destruct (Z.eq_dec k 0) as [-> | ]; [discriminate Hodd | lia]. }
    destruct (Hrings k Hk1) as (_ & _ & _ & Hb).
    pose proof (good_canvas_monotone size scaled num_rings Hgood (k - 1) ltac:(lia)).
    lra.
Qed.

(** ** Symmetry of the zone plate *)

Lemma generate_fresnel_zone_plate_Ok (wavelength focal_length : R) (num_rings : Z)
    (img : image) :
  generate_fresnel_zone_plate wavelength focal_length num_rings = Ok img ->
  exists (image_size : Z) (scaled : list R),
    canvas (ring_radii wavelength focal_length num_rings) = Ok (image_size, scaled)
    /\ (0 < image_size)%Z
    /\ zone_plate image_size scaled num_rings = Ok img.
Proof.
  unfold generate_fresnel_zone_plate.
  destruct (has_nan _ _ _ && _); [discriminate|].
  destruct (canvas _) as [[size scaled] | |]; cbn [bind fst snd]; try discriminate.
  intros Hz. exists size, scaled. split; [reflexivity|]. split; [|assumption].
  unfold zone_plate, set_border in Hz.
  destruct (size <? 0)%Z eqn:E1; [discriminate|].
  destruct (size <=? 0)%Z eqn:E2; [discriminate|]. lia.
Qed.

Lemma distance_sym (center y x : Z) : distance center y x = distance center x y.
Proof. unfold distance. do 2 f_equal. ring. Qed.

(** X8.  Every mask the zone plate generator returns is symmetric about its
    main diagonal. *)
Theorem zone_plate_symmetric (wavelength focal_length : R) (num_rings : Z) (img : image) :
  generate_fresnel_zone_plate wavelength focal_length num_rings = Ok img ->
  forall y x : Z,
    (0 <= y < Z.of_nat (length img))%Z -> (0 <= x < Z.of_nat (length img))%Z ->
    pixel img y x = pixel img x y.
Proof.
  intros Hg. destruct (generate_fresnel_zone_plate_Ok _ _ _ _ Hg)
    as (size & scaled & _ & Hsize & Hz).
  destruct (zone_plate_pixels size scaled num_rings Hsize) as (img' & Hz' & Hsq & Hpix).
  rewrite Hz in Hz'. injection Hz' as <-.
  destruct Hsq as [Hlen _]. rewrite Hlen, Z2Nat.id by lia.
  intros y x Hy Hx.
  destruct (Hpix y x Hy Hx) as [B1 I1]. destruct (Hpix x y Hx Hy) as [B2 I2].
  assert (Hiff : pixel img y x = 1%Z <-> pixel img x y = 1%Z).
  { rewrite I1, I2. rewrite (distance_sym (size / 2) y x). unfold on_border. tauto. }
  destruct B1 as [B1 | B1], B2 as [B2 | B2]; try congruence.
  - apply Hiff in B1. congruence.
  - apply Hiff in B2. congruence.
Qed.

(** ** Dependence on the scale and on the unit *)

(** X4.  The mask depends on the scale of the two lengths, not only on their
    ratio and the number of rings: with 2 rings, wavelength 2 and focal
    length 12 give the same canvas size as 2000 and 12000, but the first
    scaled radius differs in its last bit, and the masks differ at row 8,
    column 25, at distance [sqrt 325] from the centre. *)
Theorem scale_changes_mask :
  sized_canvas64 square64 2 12 2 = Ok (52%Z, [18.02775637731995; 26]%float)
  /\ sized_canvas64 square64 2000 12000 2 = Ok (52%Z, [18.027756377319946; 26]%float)
  /\ exists img1 img2 : image,
       generate_fresnel_zone_plate64 square64 2 12 2 = Ok img1
       /\ generate_fresnel_zone_plate64 square64 2000 12000 2 = Ok img2
       /\ pixel img1 8 25 = 0%Z /\ pixel img2 8 25 = 1%Z.
Proof.
  split; [vm_compute; reflexivity|]. split; [vm_compute; reflexivity|].
  destruct (generate_fresnel_zone_plate64 square64 2 12 2) as [img1| |] eqn:E1;
    [|vm_compute in E1; discriminate..].
  destruct (generate_fresnel_zone_plate64 square64 2000 12000 2) as [img2| |] eqn:E2;
    [|vm_compute in E2; discriminate..].
  exists img1, img2. split; [reflexivity|]. split; [reflexivity|].
  assert (H1 : match generate_fresnel_zone_plate64 square64 2 12 2 with
               | Ok im => pixel im 8 25 | _ => 2%Z end = 0%Z)
    by (vm_compute; reflexivity).
  assert (H2 : match generate_fresnel_zone_plate64 square64 2000 12000 2 with
               | Ok im => pixel im 8 25 | _ => 2%Z end = 1%Z)
    by (vm_compute; reflexivity).
  rewrite E1 in H1. rewrite E2 in H2. now split.
Qed.

(** X5.  The canvas depends on the unit in which the same two numbers are
    given: for 28 and 11 with 2 rings, [convert_units] with unit m leaves
    the first stage a canvas of 39 pixels, with unit cm (0.28 and 0.11) one
    of 40 pixels.  (The square of 0.28 is not a float; [pow] returns the
    nearest one.) *)
Theorem unit_changes_canvas :
  sized_canvas64 square64 (convert_units64 28 U_m) (convert_units64 11 U_m) 2
  = Ok (39%Z, [11.4; 19]%float)
  /\ convert_units64 28 U_cm = 0.28%float
  /\ convert_units64 11 U_cm = 0.11%float
  /\ sized_canvas64 square64 (convert_units64 28 U_cm) (convert_units64 11 U_cm) 2
     = Ok (40%Z, [12; 20]%float).
Proof. vm_compute. repeat split. Qed.

(** ** Fewer than two rings *)

Lemma canvas64_short (radii : list PrimFloat.float) :
  (length radii <= 1)%nat -> canvas64 radii = Raise empty_min.
Proof. destruct radii as [|a [|b t]]; simpl; intros; try reflexivity; lia. Qed.

(** X9.  Called with fewer than two rings, the first stage of both
    generators raises, and the zone plate generator with it: [ValueError]
    from [min] of an empty sequence, or, with exactly one ring,
    [OverflowError] when [wavelength ** 2] raises it. *)
Theorem generators_need_two_rings (pow2 : PrimFloat.float -> option PrimFloat.float)
    (wavelength focal_length : PrimFloat.float) (num_rings : Z) :
  (num_rings < 2)%Z ->
  let e := match pow2 wavelength with
           | None => if (num_rings =? 1)%Z then OverflowError else empty_min
           | Some _ => empty_min
           end in
  sized_canvas64 pow2 wavelength focal_length num_rings = Raise e
  /\ generate_fresnel_zone_plate64 pow2 wavelength focal_length num_rings = Raise e.
Proof.
  intros HN. cbv zeta.
  assert (H : sized_canvas64 pow2 wavelength focal_length num_rings
              = Raise match pow2 wavelength with
                      | None => if (num_rings =? 1)%Z then OverflowError else empty_min
                      | Some _ => empty_min
                      end).
  { unfold sized_canvas64, ring_radii64.
    destruct (num_rings <=? 0)%Z eqn:E0.
    - assert (E1 : (num_rings =? 1)%Z = false) by lia. rewrite E1.
      destruct (pow2 wavelength); reflexivity.
    - assert (E1 : num_rings = 1%Z) by lia. subst num_rings.
      destruct (pow2 wavelength); reflexivity. }
  split; [exact H|]. unfold generate_fresnel_zone_plate64. now rewrite H.
Qed.

Lemma generators_need_two_rings_witness :
  sized_canvas64 square64 2 24 1 = Raise empty_min
  /\ generate_fresnel_zone_plate64 square64 2 24 1 = Raise empty_min.
Proof. apply (generators_need_two_rings square64 2 24 1). lia. Defined.

(** ** A zero wavelength *)

Lemma map_const {A : Type} (c : R) (l : list A) :
  map (fun _ => c) l = repeat c (length l).
Proof. induction l as [|a l IH]; simpl; [reflexivity | now rewrite IH]. Qed.

Lemma ring_radii_zero_wavelength (focal_length : R) (num_rings : Z) :
  ring_radii 0 focal_length num_rings = repeat 0 (Z.to_nat num_rings).
Proof.
  unfold ring_radii.
  rewrite map_ext with (g := fun _ => 0).
  - rewrite map_const, length_zrange. f_equal. lia.
  - intros n. unfold radicand.
    replace (IZR n * 0 * focal_length + IZR n ^ 2 * 0 ^ 2 / 4) with 0 by field.
    apply sqrt_0.
Qed.

Lemma diff_repeat (m : nat) : diff (repeat 0 (S m)) = repeat 0 m.
Proof.
  induction m as [|m IH]; [reflexivity|].
  change (repeat 0 (S (S m))) with (0 :: 0 :: repeat 0 m).
  change (diff (0 :: 0 :: repeat 0 m)) with ((0 - 0) :: diff (repeat 0 (S m))).
  rewrite IH. cbn [repeat]. f_equal. lra.
Qed.

Lemma fold_Rmin_repeat (m : nat) : fold_left Rmin (repeat 0 m) 0 = 0.
Proof.
  induction m as [|m IH]; [reflexivity|]. cbn [repeat fold_left].
  rewrite Rmin_left by lra. exact IH.
Qed.

Lemma last_repeat (m : nat) : last (repeat 0 m) 0 = 0.
Proof. induction m as [|[|m] IH]; try reflexivity. exact IH. Qed.

Lemma canvas_zeros (n : nat) : (2 <= n)%nat -> canvas (repeat 0 n) = Raise nan_to_int.
Proof.
  intros Hn. destruct n as [|[|n]]; try lia.
  unfold canvas. rewrite diff_repeat. cbn [repeat list_min].
  change (0 :: 0 :: repeat 0 n) with (repeat 0 (S (S n))).
  rewrite fold_Rmin_repeat, last_repeat.
  destruct (Req_dec_T 0 0) as [_ | E]; [reflexivity | contradiction].
Qed.

(** X10.  With wavelength 0 and at least two rings both generators raise
    [ValueError] at the conversion of a NaN image size to an integer, whatever
    the focal length. *)
Theorem zero_wavelength_raises (rng : nat -> R) (fuel : nat) (focal_length : R)
    (num_rings : Z) (random_spacing : bool) :
  (2 <= num_rings)%Z ->
  generate_fresnel_zone_plate 0 focal_length num_rings = Raise nan_to_int
  /\ generate_photon_sieve rng fuel 0 focal_length num_rings random_spacing
     = Raise nan_to_int.
Proof.
  intros HN. unfold generate_fresnel_zone_plate, generate_photon_sieve.
  assert (Hnan : has_nan 0 focal_length num_rings = false).
  { unfold has_nan. destruct (existsb _ _) eqn:E; [|reflexivity].
    apply existsb_exists in E. destruct E as (n & _ & Hlt).
    apply Rltb_true in Hlt. unfold radicand in Hlt.
    replace (IZR n * 0 * focal_length + IZR n ^ 2 * 0 ^ 2 / 4) with 0 in Hlt by field.
    lra. }
  rewrite Hnan, ring_radii_zero_wavelength, canvas_zeros by lia.
  split; reflexivity.
Qed.

(** ** The photon sieve without random spacing *)

Lemma place_dots_regular_indep (rng rng' : nat -> R) (fuel fuel' : nat)
    (image_size center : Z) (radius_inner ring_thickness : R)
    (num_dots dot_radius : Z) (angles : list R) :
  forall (img : image) (i i' : nat),
    exists img' : image,
      place_dots rng false fuel image_size center radius_inner ring_thickness
                 num_dots dot_radius angles (img, i) = Ok (img', i)
      /\ place_dots rng' false fuel' image_size center radius_inner ring_thickness
                    num_dots dot_radius angles (img, i') = Ok (img', i').
Proof.
  induction angles as [|angle rest IH]; intros img i i'.
  - exists img. split; reflexivity.
  - cbn [place_dots place_dot bind]. apply IH.
Qed.

Lemma sieve_rings_regular_indep (rng rng' : nat -> R) (fuel fuel' : nat)
    (image_size center : Z) (radii : list R) (ks : list Z) :
  forall (img : image) (i i' : nat),
    exists img' : image,
      sieve_rings rng false fuel image_size center radii ks (img, i) = Ok (img', i)
      /\ sieve_rings rng' false fuel' image_size center radii ks (img, i')
         = Ok (img', i').
Proof.
  induction ks as [|k rest IH]; intros img i i'.
  - exists img. split; reflexivity.
  - cbn [sieve_rings]. unfold sieve_ring. cbn [fst snd num_dots_of].
    match goal with
    | |- context [place_dots rng false fuel ?s ?c ?ri ?t ?n ?d ?angles (img, i)] =>
        destruct (place_dots_regular_indep rng rng' fuel fuel' s c ri t n d angles
                    img i i') as (img1 & H1 & H2)
    end.
    rewrite H1, H2. cbn [bind]. apply IH.
Qed.

(** X11.  Without random spacing the photon sieve does not depend on the
    random source nor on the fuel: it reads no draw and never enters the
    [while True] loop. *)
Theorem regular_sieve_reads_no_draw (rng rng' : nat -> R) (fuel fuel' : nat)
    (wavelength focal_length : R) (num_rings : Z) :
  generate_photon_sieve rng fuel wavelength focal_length num_rings false
  = generate_photon_sieve rng' fuel' wavelength focal_length num_rings false.
Proof.
  unfold generate_photon_sieve.
  destruct (has_nan _ _ _ && _); [reflexivity|].
  destruct (canvas _) as [[size scaled] | |]; cbn [bind fst snd]; try reflexivity.
  unfold photon_sieve. destruct (size <? 0)%Z; [reflexivity|].
  destruct (sieve_rings_regular_indep rng rng' fuel fuel' size (size / 2) scaled
              (zrange2 1 num_rings)
              (clear_center (size / 2) (radius_at scaled 0) (zeros size)) 0%nat 0%nat)
    as (img & H1 & H2).
  rewrite H1, H2. reflexivity.
Qed.

(** ** Stamping the same disk twice *)

(** X12.  With random spacing each dot is stamped by lines 106-112 and again
    by lines 115-124 at the same position; the second stamp changes nothing,
    so the image after a dot is the image before it with one stamp, at a
    position inside the canvas. *)
Theorem double_stamp_redundant (rng : nat -> R) (fuel : nat) (image_size center : Z)
    (radius_inner ring_thickness : R) (num_dots dot_radius : Z)
    (img : image) (i : nat) (angle : R) (img' : image) (i' : nat) :
  place_dot rng true fuel image_size center radius_inner ring_thickness
            num_dots dot_radius (img, i) angle = Ok (img', i') ->
  exists random_angle : R,
    in_canvas image_size (dot_y center radius_inner ring_thickness random_angle)
              (dot_x center radius_inner ring_thickness random_angle) = true
    /\ img' = stamp_disk img image_size
                (dot_y center radius_inner ring_thickness random_angle)
                (dot_x center radius_inner ring_thickness random_angle) dot_radius.
Proof.
  unfold place_dot.
  destruct (retry _ _ _ _ _ _ _ _ _ _) as [[a j] | |] eqn:Hr; cbn [bind fst snd];
    try discriminate.
  apply retry_Ok_iff in Hr. destruct Hr as (n & _ & Hacc & _ & -> & _).
  apply accepts_true in Hacc. destruct Hacc as [Hin _].
  intros [= <- <-]. eexists. split; [exact Hin|].
  unfold stamp_at_angle. rewrite Hin. apply stamp_disk_idempotent.
Qed.

(** ** Photon sieve masks are binary *)

Lemma imap_from_Forall {A B : Type} (P : A -> Prop) (Q : B -> Prop)
    (f : Z -> A -> B) (i : Z) (l : list A) :
  (forall j a, P a -> Q (f j a)) -> Forall P l -> Forall Q (imap_from f i l).
Proof.
  intros H HP. revert i; induction HP as [|a l Ha Hl IH]; intros i; simpl;
    constructor; auto.
Qed.

Lemma binary_map_pixels (f : Z -> Z -> Z -> Z) (img : image) :
  (forall y x v, v = 0%Z \/ v = 1%Z -> f y x v = 0%Z \/ f y x v = 1%Z) ->
  binary img -> binary (map_pixels f img).
Proof.
  intros H Hb. unfold binary, map_pixels.
  apply imap_from_Forall with (P := Forall (fun v => v = 0%Z \/ v = 1%Z));
    [|exact Hb].
  intros y row Hrow. eapply imap_from_Forall; [|exact Hrow].
  intros x v Hv. now apply H.
Qed.

Lemma binary_zeros (n : Z) : binary (zeros n).
Proof.
  unfold binary, zeros. apply Forall_forall. intros row Hrow.
  apply repeat_spec in Hrow. subst row.
  apply Forall_forall. intros v Hv. apply repeat_spec in Hv. now left.
Qed.

Lemma binary_stamp_disk (img : image) (image_size y x dot_radius : Z) :
  binary img -> binary (stamp_disk img image_size y x dot_radius).
Proof.
  intros H. unfold stamp_disk. apply binary_map_pixels; [|assumption].
  intros Y X v Hv. destruct (_ && _); [now right | assumption].
Qed.

Lemma binary_stamp_at_angle (img : image) (image_size center : Z)
    (radius_inner ring_thickness : R) (dot_radius : Z) (angle : R) :
  binary img ->
  binary (stamp_at_angle img image_size center radius_inner ring_thickness
                         dot_radius angle).
Proof.
  intros H. unfold stamp_at_angle.
  destruct (in_canvas _ _ _); [now apply binary_stamp_disk | assumption].
Qed.

Lemma binary_place_dots (rng : nat -> R) (random_spacing : bool) (fuel : nat)
    (image_size center : Z) (radius_inner ring_thickness : R)
    (num_dots dot_radius : Z) (angles : list R) :
  forall st st' : image * nat,
    binary (fst st) ->
    place_dots rng random_spacing fuel image_size center radius_inner ring_thickness
               num_dots dot_radius angles st = Ok st' ->
    binary (fst st').
Proof.
  induction angles as [|angle rest IH]; intros [img i] st' Hb.
  - simpl. now intros [= <-].
  - cbn [place_dots].
    destruct (place_dot _ _ _ _ _ _ _ _ _ _ _) as [st1 | |] eqn:Hp; cbn [bind];
      try discriminate.
    apply IH. unfold place_dot in Hp. destruct random_spacing.
    + destruct (retry _ _ _ _ _ _ _ _ _ _) as [r | |]; cbn [bind] in Hp;
        try discriminate.
      injection Hp as <-. cbn [fst] in *.
      now apply binary_stamp_at_angle, binary_stamp_disk.
    + injection Hp as <-. cbn [fst] in *. now apply binary_stamp_at_angle.
Qed.

Lemma binary_sieve_rings (rng : nat -> R) (random_spacing : bool) (fuel : nat)
    (image_size center : Z) (radii : list R) (ks : list Z) :
  forall st st' : image * nat,
    binary (fst st) ->
    sieve_rings rng random_spacing fuel image_size center radii ks st = Ok st' ->
    binary (fst st').
Proof.
  induction ks as [|k rest IH]; intros st st' Hb.
  - simpl. now intros [= <-].
  - cbn [sieve_rings].
    destruct (sieve_ring _ _ _ _ _ _ _ _) as [st1 | |] eqn:Hs; cbn [bind];
      try discriminate.
    apply IH. unfold sieve_ring in Hs.
    eapply binary_place_dots; [|exact Hs]. exact Hb.
Qed.

(** X13.  Every pixel of every mask the photon sieve generator returns, in
    either mode, is 0 or 1. *)
Theorem photon_sieve_binary (rng : nat -> R) (fuel : nat)
    (wavelength focal_length : R) (num_rings : Z) (random_spacing : bool)
    (img : image) :
  generate_photon_sieve rng fuel wavelength focal_length num_rings random_spacing
  = Ok img ->
  binary img.
Proof.
  unfold generate_photon_sieve.
  destruct (has_nan _ _ _ && _); [discriminate|].
  destruct (canvas _) as [[size scaled] | |]; cbn [bind fst snd]; try discriminate.
  unfold photon_sieve. destruct (size <? 0)%Z; [discriminate|].
  destruct (sieve_rings _ _ _ _ _ _ _ _) as [st | |] eqn:Hs; cbn [bind];
    try discriminate.
  unfold set_border. destruct (size <=? 0)%Z; [discriminate|].
  intros [= <-]. apply binary_map_pixels.
  - intros y x v Hv. destruct (_ || _); [now left | assumption].
  - eapply binary_sieve_rings; [|exact Hs]. cbn [fst].
    rewrite clear_center_zeros. apply binary_zeros.
Qed.

(** ** [main] on valid arguments *)

(** X14.  On valid arguments [main] returns one mask for each of the letters
    f, p, r that occurs in the generate string, under the titles
    fresnel_zone_plate, photon_sieve, random_photon_sieve in this order
    whatever the order and number of the letters; all the masks are square
    with the same side. *)
Theorem main_valid_run (rng : nat -> R) (fuel : nat) (a : arguments) :
  0 < convert_units (arg_wavelength a) (arg_wavelength_unit a) ->
  0 < convert_units (arg_focal_length a) (arg_focal_length_unit a) ->
  (2 <= arg_num_rings a)%Z ->
  (forall i : nat, 0 <= rng i < 1) -> (1 <= fuel)%nat ->
  exists (image_size : Z) (images : list (string * image)),
    main rng fuel a = Ok images
    /\ map fst images = requested_titles (arg_generate a)
    /\ Forall (fun entry => square image_size (snd entry)) images.
Proof.
  intros Hw Hf HN Hrng Hfuel. unfold main, requested_titles.
  set (w := convert_units (arg_wavelength a) (arg_wavelength_unit a)) in *.
  set (f := convert_units (arg_focal_length a) (arg_focal_length_unit a)) in *.
  set (n := arg_num_rings a) in *.
  destruct (physical_good_canvas w f n Hw Hf HN) as (size & scaled & Hc & Hgood).
  pose proof Hgood as (Hsize & _).
  assert (Hzone : exists img, generate_fresnel_zone_plate w f n = Ok img
                              /\ square size img).
  { destruct (zone_plate_pixels size scaled n Hsize) as (img & Hz & Hsq & _).
    exists img. split; [|assumption]. unfold generate_fresnel_zone_plate.
    rewrite has_nan_valid, Hc by assumption. exact Hz. }
  assert (Hsieve : forall random_spacing : bool,
            exists img, generate_photon_sieve rng fuel w f n random_spacing = Ok img
                        /\ square size img).
  { intros rs.
    destruct (photon_sieve_mask rng rs fuel size scaled n Hrng Hgood (fun _ => Hfuel))
      as (img & Hp & Hsq & _).
    exists img. split; [|assumption]. unfold generate_photon_sieve.
    rewrite has_nan_valid, Hc by assumption. exact Hp. }
  destruct Hzone as (imgf & Hgf & Hsf).
  destruct (Hsieve false) as (imgp & Hgp & Hsp).
  destruct (Hsieve true) as (imgr & Hgr & Hsr).
  destruct (n <=? 1)%Z eqn:E; [lia|].
  rewrite Hgf, Hgp, Hgr. exists size.
  destruct (contains "f" (arg_generate a)), (contains "p" (arg_generate a)),
    (contains "r" (arg_generate a)); cbn [bind app];
    eexists; (split; [reflexivity|]); (split; [reflexivity|]);
    repeat (apply Forall_cons; [cbn [snd]; assumption|]); apply Forall_nil.
Qed.

(** ** The regular photon sieve on valid parameters *)

(** X16.  For valid physical parameters the regular photon sieve returns a
    square mask whose border is 0 and in which every pixel at distance at most
    [scaled[0] - 2] from the centre is 0. *)
Theorem regular_sieve_mask (rng : nat -> R) (fuel : nat) (wavelength focal_length : R)
    (num_rings : Z) :
  0 < wavelength -> 0 < focal_length -> (2 <= num_rings)%Z ->
  exists (image_size : Z) (scaled : list R) (img : image),
    canvas (ring_radii wavelength focal_length num_rings) = Ok (image_size, scaled)
    /\ generate_photon_sieve rng fuel wavelength focal_length num_rings false = Ok img
    /\ square image_size img
    /\ forall y x, (0 <= y < image_size)%Z -> (0 <= x < image_size)%Z ->
         (on_border image_size y x -> pixel img y x = 0%Z)
         /\ (distance (image_size / 2) y x <= radius_at scaled 0 - 2 ->
             pixel img y x = 0%Z).
Proof.
  intros Hw Hf HN.
  destruct (physical_good_canvas wavelength focal_length num_rings Hw Hf HN)
    as (size & scaled & Hc & Hgood).
  assert (Hzero : forall i : nat, 0 <= zero_rng i < 1) by (intros i; unfold zero_rng; lra).
  destruct (photon_sieve_mask zero_rng false fuel size scaled num_rings Hzero Hgood
              ltac:(discriminate)) as (img & Hp & Hsq & Hpix).
  exists size, scaled, img. split; [assumption|]. split; [|split; assumption].
  unfold generate_photon_sieve.
  rewrite has_nan_valid, Hc by assumption. cbn [bind fst snd].
  rewrite <- Hp. unfold photon_sieve. destruct (size <? 0)%Z; [reflexivity|].
  destruct (sieve_rings_regular_indep rng zero_rng fuel fuel size (size / 2) scaled
              (zrange2 1 num_rings)
              (clear_center (size / 2) (radius_at scaled 0) (zeros size)) 0%nat 0%nat)
    as (im & H1 & H2).
  rewrite H1, H2. reflexivity.
Qed.

(** ** The canvas keeps a radius sequence valid *)

Lemma increasing_scale (c : R) (l : list R) :
  0 < c -> increasing l -> increasing (map (fun r => r * c) l).
Proof.
  intros Hc. induction l as [|a [|b t] IH]; simpl; auto.
  intros [Hab Ht]. split; [nra | now apply IH].
Qed.

(** X17.  The canvas of a valid radius sequence is a valid radius sequence:
    the scaled radii are positive and strictly increasing, and the ratios
    between radii are unchanged. *)
Theorem canvas_keeps_valid (radii : list R) :
  valid_radii radii ->
  exists (image_size : Z) (scaled : list R),
    canvas radii = Ok (image_size, scaled)
    /\ valid_radii scaled
    /\ forall i j : nat, (i < length radii)%nat -> (j < length radii)%nat ->
         nth i scaled 0 * nth j radii 0 = nth j scaled 0 * nth i radii 0.
Proof.
  intros Hv. destruct (canvas_valid_size radii Hv) as (size & scaled & Hc & -> & Hsize).
  destruct (valid_radii_min_gap radii Hv) as (g & _ & Hg & HgL).
  exists size, (scale_radii radii size). split; [assumption|].
  assert (Hh : 8 <= IZR (size / 2)).
  { apply IZR_le. apply Z.div_le_lower_bound; lia. }
  assert (Hcpos : 0 < IZR (size / 2) / last radii 0)
    by (apply Rdiv_lt_0_compat; lra).
  assert (E : scale_radii radii size
              = map (fun r => r * (IZR (size / 2) / last radii 0)) radii).
  { unfold scale_radii. apply map_ext. intros r. unfold Rdiv. ring. }
  destruct Hv as (Hlen & Hhd & Hinc).
  split; [|intros i j Hi Hj; rewrite !nth_scale_radii by assumption; ring].
  rewrite E. split; [now rewrite length_map | split].
  - destruct radii as [|a t]; simpl in *; [lia | nra].
  - now apply increasing_scale.
Qed.

(** ** Dot counts of the two modes *)

(** X18.  A ring gets at least one dot, and with random spacing never more
    dots than without. *)
Theorem random_never_denser (rng rng' : nat -> R) (radius_outer : R)
    (dot_radius : Z) (i i' : nat) :
  0 <= radius_outer -> (0 < dot_radius)%Z -> 0 <= rng i < 1 ->
  (1 <= fst (num_dots_of rng true radius_outer dot_radius i))%Z
  /\ (fst (num_dots_of rng true radius_outer dot_radius i)
      <= fst (num_dots_of rng' false radius_outer dot_radius i'))%Z.
Proof.
  intros Hb Hd Hr. unfold num_dots_of. cbn [fst].
  split; [lia|].
  apply IZR_lt in Hd. pose proof PI_RGT_0 as Hpi.
  pose proof (uniform_range_strict rng (13 / 10) (15 / 10) i ltac:(lra) Hr) as [U1 U2].
  set (u := uniform rng (13 / 10) (15 / 10) i) in *.
  set (d := IZR dot_radius) in *.
  assert (Hc : 0 <= 2 * PI * radius_outer) by nra.
  assert (D1 : 0 < (d * 3 + d * 4) / 2) by lra.
  assert (D2 : (d * 3 + d * 4) / 2 <= (d * (11 / 10) + d * 4) * u) by nra.
  assert (Hle : 2 * PI * radius_outer / ((d * (11 / 10) + d * 4) * u)
                <= 2 * PI * radius_outer / ((d * 3 + d * 4) / 2)).
  { apply Rmult_le_compat_l; [assumption|]. apply Rinv_le_contravar; assumption. }
  assert (Hq : 0 <= 2 * PI * radius_outer / ((d * (11 / 10) + d * 4) * u)).
  { apply Rmult_le_pos; [assumption|]. left. apply Rinv_0_lt_compat. lra. }
  rewrite !int_of_nonneg by lra.
  apply Z.max_le_compat_l. now apply Zfloor_le.
Qed.

(** ** Flipping both signs *)

(** X19.  Changing the sign of both the wavelength and the focal length
    changes no mask. *)
Theorem sign_flip_invariant (rng : nat -> R) (fuel : nat) (wavelength focal_length : R)
    (num_rings : Z) (random_spacing : bool) :
  generate_fresnel_zone_plate (- wavelength) (- focal_length) num_rings
  = generate_fresnel_zone_plate wavelength focal_length num_rings
  /\ generate_photon_sieve rng fuel (- wavelength) (- focal_length) num_rings
                           random_spacing
     = generate_photon_sieve rng fuel wavelength focal_length num_rings random_spacing.
Proof.
  assert (Hrad : forall n, radicand (- wavelength) (- focal_length) n
                           = radicand wavelength focal_length n)
    by (intros n; unfold radicand; field).
  assert (Hradii : ring_radii (- wavelength) (- focal_length) num_rings
                   = ring_radii wavelength focal_length num_rings).
  { unfold ring_radii. apply map_ext. intros n. now rewrite Hrad. }
  assert (Hnan : has_nan (- wavelength) (- focal_length) num_rings
                 = has_nan wavelength focal_length num_rings).
  { unfold has_nan. apply existsb_pointwise. intros n. now rewrite Hrad. }
  unfold generate_fresnel_zone_plate, generate_photon_sieve.
  rewrite Hnan, Hradii. split; reflexivity.
Qed.

(** ** Instances *)

Lemma outer_ring_diameter_last_witness :
  (radicand 2 24 2 < 0 -> outer_ring_diameter 2 24 2 = NaN)
  /\ (0 <= radicand 2 24 2 ->
      outer_ring_diameter 2 24 2 = Num (2 * last (ring_radii 2 24 2) 0)).
Proof. apply (outer_ring_diameter_last 2 24 2). lia. Defined.

Lemma zone_plate_annulus_witness :
  exists (image_size : Z) (scaled : list R) (img : image),
    canvas (ring_radii 2 24 2) = Ok (image_size, scaled)
    /\ generate_fresnel_zone_plate 2 24 2 = Ok img
    /\ forall y x, (0 <= y < image_size)%Z -> (0 <= x < image_size)%Z ->
         pixel img y x <> 0%Z ->
         radius_at scaled 0 <= distance (image_size / 2) y x < IZR (image_size / 2).
Proof. apply (zone_plate_annulus 2 24 2); [lra | lra | lia]. Defined.

Lemma zone_plate_symmetric_witness :
  exists img : image,
    generate_fresnel_zone_plate 2 24 2 = Ok img
    /\ forall y x : Z,
         (0 <= y < Z.of_nat (length img))%Z -> (0 <= x < Z.of_nat (length img))%Z ->
         pixel img y x = pixel img x y.
Proof.
  destruct (zone_plate_pixels 53 [182 / 10; 26] 2 ltac:(lia)) as (img & Hz & _).
  assert (Hg : generate_fresnel_zone_plate 2 24 2 = Ok img).
  { unfold generate_fresnel_zone_plate.
    rewrite has_nan_valid, ring_radii_example, canvas_example by lra. exact Hz. }
  exists img. split; [exact Hg | exact (zone_plate_symmetric 2 24 2 img Hg)].
Defined.

Lemma zero_wavelength_raises_witness :
  generate_fresnel_zone_plate 0 24 2 = Raise nan_to_int
  /\ generate_photon_sieve zero_rng 1 0 24 2 true = Raise nan_to_int.
Proof. apply (zero_wavelength_raises zero_rng 1 24 2 true). lia. Defined.

Lemma double_stamp_redundant_witness :
  exists random_angle : R,
    in_canvas 4 (dot_y 2 2 1 random_angle) (dot_x 2 2 1 random_angle) = true
    /\ stamp_disk (stamp_disk (zeros 4) 4 2 0 4) 4 2 0 4
       = stamp_disk (zeros 4) 4 (dot_y 2 2 1 random_angle) (dot_x 2 2 1 random_angle) 4.
Proof.
  apply (double_stamp_redundant retry_rng 5 4 2 2 1 1 4 (zeros 4) 0 0
           (stamp_disk (stamp_disk (zeros 4) 4 2 0 4) 4 2 0 4) 3).
  exact place_dot_retry_run.
Defined.

Lemma photon_sieve_binary_witness : binary example_mask.
Proof.
  apply (photon_sieve_binary zero_rng 1 2 24 2 true example_mask).
  exact example_generate.
Defined.

Lemma main_valid_run_witness :
  exists (image_size : Z) (images : list (string * image)),
    main zero_rng 1 valid_arguments = Ok images
    /\ map fst images = ["fresnel_zone_plate"%string; "random_photon_sieve"%string]
    /\ Forall (fun entry => square image_size (snd entry)) images.
Proof.
  apply (main_valid_run zero_rng 1 valid_arguments); simpl; try lra; try lia.
  intros i. unfold zero_rng. lra.
Defined.

Lemma regular_sieve_mask_witness :
  exists (image_size : Z) (scaled : list R) (img : image),
    canvas (ring_radii 2 24 2) = Ok (image_size, scaled)
    /\ generate_photon_sieve zero_rng 0 2 24 2 false = Ok img
    /\ square image_size img
    /\ forall y x, (0 <= y < image_size)%Z -> (0 <= x < image_size)%Z ->
         (on_border image_size y x -> pixel img y x = 0%Z)
         /\ (distance (image_size / 2) y x <= radius_at scaled 0 - 2 ->
             pixel img y x = 0%Z).
Proof.
  apply (regular_sieve_mask zero_rng 0 2 24 2); [lra | lra | lia].
Defined.

Lemma canvas_keeps_valid_witness :
  exists (image_size : Z) (scaled : list R),
    canvas [7; 10] = Ok (image_size, scaled)
    /\ valid_radii scaled
    /\ forall i j : nat, (i < length [7; 10])%nat -> (j < length [7; 10])%nat ->
         nth i scaled 0 * nth j [7; 10] 0 = nth j scaled 0 * nth i [7; 10] 0.
Proof. apply (canvas_keeps_valid [7; 10]). exact valid_radii_example. Defined.

Lemma random_never_denser_witness :
  (1 <= fst (num_dots_of zero_rng true 26 4 0))%Z
  /\ (fst (num_dots_of zero_rng true 26 4 0)
      <= fst (num_dots_of zero_rng false 26 4 0))%Z.
Proof.
  apply (random_never_denser zero_rng zero_rng 26 4 0 0); try lra; try lia.
  unfold zero_rng. lra.
Defined.
